(** * VRse FBX Batch Exporter: a shallow embedding of the export operator

    The development follows [VRseFbx_BatchExporter.py].  The host
    application (scene graph, selection state, native FBX exporter) and the
    operating system (path algebra, file system) are interfaces; the
    add-on's own functions are written over them as the Python code is. *)

From Stdlib Require Import String Ascii.
From stdpp Require Import gmap strings list fin_maps pretty.

Open Scope string_scope.
Open Scope list_scope.
Set Warnings "-register-all".

(** ** Operating-system interface *)

(** The three [except] clauses of [ensure_directory_exists]. *)
Inductive OSError :=
| PermissionError
| FileNotFoundError
| OtherError (msg : string).

(** [os.path], [platform.system() == "Windows"] and [bpy.path.abspath]. *)
Class OsPath := {
  platform_is_windows : bool;
  os_path_splitdrive : string → string;   (* component [0] of the pair *)
  os_path_dirname : string → string;
  os_path_basename : string → string;
  os_path_join : string → string → string;
  bpy_path_abspath : string → string
}.

(** [os.path.exists] and [os.makedirs(_, exist_ok=True)].  The code only
    calls [makedirs] on a path whose parent exists, so a failed call is a
    single failed [mkdir] and leaves the file system as it was. *)
Class FileSystem (FS : Type) := {
  os_path_exists : FS → string → bool;
  os_makedirs : FS → string → FS + OSError
}.

(** Python truthiness of a string: non-empty. *)
Definition truthy (s : string) : bool := negb (String.eqb s "").

(** ** Path helper *)

Section PathHelper.
Context `{OsPath} {FS : Type} `{!FileSystem FS}.

(** [check_path_exists], lines 75-95.  The recursion follows
    [os.path.dirname]; [None] stands for a recursion that never returns
    (a missing path that is its own parent). *)
Fixpoint check_path_exists_rec (fuel : nat) (fs : FS) (path : string)
  : option (bool * string) :=
  match fuel with
  | O => None
  | S fuel' =>
    if os_path_exists fs path then Some (true, "")
    else
      let drive := os_path_splitdrive path in
      if platform_is_windows && truthy drive && negb (os_path_exists fs drive)
      then Some (false, "Drive '" +:+ drive +:+ "' does not exist or is not accessible.")
      else
        let parent_dir := os_path_dirname path in
        if truthy parent_dir && negb (os_path_exists fs parent_dir)
        then check_path_exists_rec fuel' fs parent_dir
        else Some (false, "Path '" +:+ path +:+ "' is not accessible.")
  end.

Definition check_path_exists (fs : FS) (path : string) : option (bool * string) :=
  check_path_exists_rec (S (String.length path)) fs path.

(** [ensure_directory_exists], lines 98-118: the result pair and the file
    system after the call. *)
Definition ensure_directory_exists (fs : FS) (directory_path : string)
  : option ((bool * string) * FS) :=
  match check_path_exists fs (os_path_dirname directory_path) with
  | None => None
  | Some (exists_, msg) =>
    if negb exists_ then Some ((false, msg), fs)
    else if negb (os_path_exists fs directory_path) then
      match os_makedirs fs directory_path with
      | inl fs' => Some ((true, ""), fs')
      | inr PermissionError =>
        Some ((false, "Permission denied: Cannot create directory '"
                      +:+ directory_path +:+ "'"), fs)
      | inr FileNotFoundError =>
        Some ((false, "Path not found: Cannot create directory '"
                      +:+ directory_path +:+ "'"), fs)
      | inr (OtherError e) =>
        Some ((false, "Error creating directory '"
                      +:+ directory_path +:+ "': " +:+ e), fs)
      end
    else Some ((true, ""), fs)
  end.
End PathHelper.

(** ** Host scene graph *)

(** A scene object: [name], [type], [hide_viewport]. *)
Record Object := {
  ob_name : string;
  ob_type : string;
  ob_hide_viewport : bool
}.

#[global] Instance Object_eq_dec : EqDecision Object.
Proof. solve_decision. Defined.

(** A collection: [name], [hide_viewport], [objects], [children].  Blender
    keeps collection names unique, so a collection object used as a set
    element or dictionary key is identified by its name. *)
Inductive Collection :=
| Coll (name : string) (hide_viewport : bool)
       (objects : list Object) (children : list Collection).

Definition coll_name (c : Collection) : string :=
  match c with Coll n _ _ _ => n end.
Definition coll_hide_viewport (c : Collection) : bool :=
  match c with Coll _ h _ _ => h end.
Definition coll_objects (c : Collection) : list Object :=
  match c with Coll _ _ o _ => o end.
Definition coll_children (c : Collection) : list Collection :=
  match c with Coll _ _ _ ch => ch end.

(** A layer collection: its own [hide_viewport], the [collection] it links
    and its [children]. *)
Inductive LayerCollection :=
| LayerColl (hide_viewport : bool) (collection : Collection)
            (children : list LayerCollection).

Definition lc_hide_viewport (lc : LayerCollection) : bool :=
  match lc with LayerColl h _ _ => h end.
Definition lc_collection (lc : LayerCollection) : Collection :=
  match lc with LayerColl _ c _ => c end.
Definition lc_children (lc : LayerCollection) : list LayerCollection :=
  match lc with LayerColl _ _ ch => ch end.

(** ** Scene traversal *)

(** State of the walk in [gather_top_level_collections]: the set
    [all_visible] and the dictionary [child_to_parent], both keyed by
    collection name. *)
Record Walk := {
  all_visible : gmap string Collection;
  child_to_parent : gmap string Collection
}.

(** [set.add]: an element already present stays. *)
Definition set_add (c : Collection) (s : gmap string Collection)
  : gmap string Collection :=
  match s !! coll_name c with
  | Some _ => s
  | None => <[coll_name c := c]> s
  end.

(** The body of [recurse_layer_coll] before its loop over the children. *)
Definition visit_layer_coll (layer_coll : LayerCollection)
    (parent_coll : option Collection) (st : Walk) : Walk :=
  if negb (lc_hide_viewport layer_coll)
     && negb (coll_hide_viewport (lc_collection layer_coll))
  then
    {| all_visible := set_add (lc_collection layer_coll) (all_visible st);
       child_to_parent :=
         match parent_coll with
         | Some p => <[coll_name (lc_collection layer_coll) := p]> (child_to_parent st)
         | None => child_to_parent st
         end |}
  else st.

(** [recurse_layer_coll], lines 31-37. *)
Fixpoint recurse_layer_coll (layer_coll : LayerCollection)
    (parent_coll : option Collection) (st : Walk) : Walk :=
  let st1 := visit_layer_coll layer_coll parent_coll st in
  match layer_coll with
  | LayerColl _ collection children =>
    fold_left (fun s child => recurse_layer_coll child (Some collection) s)
              children st1
  end.

(** The loop of lines 39-40 over [context.view_layer.layer_collection.children]. *)
Definition walk_layer_collections (roots : list LayerCollection) : Walk :=
  fold_left (fun s lc => recurse_layer_coll lc None s) roots
            {| all_visible := ∅; child_to_parent := ∅ |}.

(** [gather_top_level_collections], lines 23-42.  Python iterates the set
    in an unspecified order; here it is the order of the map's keys. *)
Definition gather_top_level_collections (roots : list LayerCollection)
  : list Collection :=
  let st := walk_layer_collections roots in
  filter (fun c => child_to_parent st !! coll_name c = None)
         (map_to_list (all_visible st)).*2.

(** The visibility test of line 32. *)
Definition lc_visible (layer_coll : LayerCollection) : bool :=
  negb (lc_hide_viewport layer_coll)
  && negb (coll_hide_viewport (lc_collection layer_coll)).

(** [lc_in n t]: the layer collection [n] occurs in the tree [t]. *)
Inductive lc_in (n : LayerCollection) : LayerCollection → Prop :=
| lc_in_here : lc_in n n
| lc_in_child t child : child ∈ lc_children t → lc_in n child → lc_in n t.

(** [linked_below roots a b]: somewhere in the layer hierarchy a visible
    link to the collection named [b] lies strictly below a link to the
    collection named [a].  Every descendant relation of the
    visibility-filtered graph is contained in this one. *)
Definition linked_below (roots : list LayerCollection) (a b : string) : Prop :=
  ∃ root n child m,
    root ∈ roots ∧ lc_in n root ∧ coll_name (lc_collection n) = a
    ∧ child ∈ lc_children n ∧ lc_in m child
    ∧ coll_name (lc_collection m) = b ∧ lc_visible m = true.

(** The collection named [x] has a recorded parent. *)
Definition recorded (st : Walk) (x : string) : Prop :=
  is_Some (child_to_parent st !! x).

(** [gather_all_objects_recursive], lines 59-72. *)
Fixpoint gather_all_objects_recursive (collection : Collection)
    (allowed_types : gset string) : list Object :=
  match collection with
  | Coll _ _ objects children =>
    filter (fun o => bool_decide (ob_type o ∈ allowed_types)
                     && negb (ob_hide_viewport o)) objects
    ++ concat (map (fun child_coll =>
                      gather_all_objects_recursive child_coll allowed_types)
                   children)
  end.

(** [collection.all_objects]: the objects of the collection and of all its
    descendants. *)
Fixpoint all_objects (collection : Collection) : list Object :=
  match collection with
  | Coll _ _ objects children => objects ++ concat (map all_objects children)
  end.

(** ** Export configuration *)

Inductive ExportMode := COLLECTIONS | SELECTED.

(** [VRseFbxExporterProperties], lines 133-260; the mutable
    [exported_files] list lives in the run state below. *)
Record VRseFbxExporterProperties := {
  export_mode : ExportMode;
  apply_unit : bool;
  use_space_transform : bool;
  apply_transform : bool;
  axis_forward : string;
  axis_up : string;
  apply_scale_options : string;
  apply_modifiers : bool;
  as_single_mesh : bool;
  make_separate_folders : bool;
  separate_child_collections : bool;
  combine_nested_collections : bool;
  export_empty : bool;
  export_camera : bool;
  export_lamp : bool;
  export_armature : bool;
  export_mesh : bool;
  export_other : bool;
  embed_textures : bool;
  export_animations : bool;
  export_smoothing : string
}.

(** Keyword arguments of [bpy.ops.export_scene.fbx], lines 363-386. *)
Module Fbx.
Record Params := {
  check_existing : bool;
  filepath : string;
  filter_glob : string;
  use_selection : bool;
  object_types : gset string;
  bake_anim : bool;
  bake_anim_use_all_bones : bool;
  bake_anim_use_all_actions : bool;
  use_armature_deform_only : bool;
  bake_space_transform : bool;
  mesh_smooth_type : string;
  add_leaf_bones : bool;
  embed_textures : bool;
  path_mode : string;
  axis_forward : string;
  axis_up : string;
  global_scale : string;
  apply_unit_scale : bool;
  use_space_transform : bool;
  apply_scale_options : string;
  use_mesh_modifiers : bool
}.
End Fbx.

(** [if b: t.add(x)]. *)
Definition add_if (b : bool) (x : string) (t : gset string) : gset string :=
  if b then {[x]} ∪ t else t.

(** [get_object_types], lines 310-319. *)
Definition get_object_types (props : VRseFbxExporterProperties) : gset string :=
  let t : gset string := ∅ in
  let t := add_if (export_empty props) "EMPTY" t in
  let t := add_if (export_camera props) "CAMERA" t in
  let t := add_if (export_lamp props) "LIGHT" t in
  let t := add_if (export_armature props) "ARMATURE" t in
  let t := add_if (export_mesh props) "MESH" t in
  let t := add_if (export_other props) "OTHER" t in
  t.

(** [ex_object_types] of [export_fbx], lines 328-335. *)
Definition ex_object_types (props : VRseFbxExporterProperties) : gset string :=
  let t : gset string := ∅ in
  let t := add_if (export_mesh props) "MESH" t in
  let t := add_if (export_armature props || export_animations props) "ARMATURE" t in
  let t := add_if (export_empty props) "EMPTY" t in
  let t := add_if (export_camera props) "CAMERA" t in
  let t := add_if (export_lamp props) "LIGHT" t in
  let t := add_if (export_other props) "OTHER" t in
  t.

(** The argument record of the exporter call, lines 363-386. *)
Definition fbx_params (props : VRseFbxExporterProperties) (filepath : string)
  : Fbx.Params :=
  {| Fbx.check_existing := false;
     Fbx.filepath := filepath;
     Fbx.filter_glob := "*.fbx";
     Fbx.use_selection := true;
     Fbx.object_types := ex_object_types props;
     Fbx.bake_anim := export_animations props;
     Fbx.bake_anim_use_all_bones := export_animations props;
     Fbx.bake_anim_use_all_actions := export_animations props;
     Fbx.use_armature_deform_only := true;
     Fbx.bake_space_transform := apply_transform props;
     Fbx.mesh_smooth_type := export_smoothing props;
     Fbx.add_leaf_bones := false;
     Fbx.embed_textures := embed_textures props;
     Fbx.path_mode := if embed_textures props then "COPY" else "AUTO";
     Fbx.axis_forward := axis_forward props;
     Fbx.axis_up := axis_up props;
     Fbx.global_scale := "1.0";
     Fbx.apply_unit_scale := apply_unit props;
     Fbx.use_space_transform := use_space_transform props;
     Fbx.apply_scale_options := apply_scale_options props;
     Fbx.use_mesh_modifiers := apply_modifiers props |}.

(** ** Host context and run state *)

(** The part of [context] the operator only reads.  [selectable] is the
    host's answer to whether an object can be selected in the view layer:
    an object that is hidden there, for instance because its collection is
    hidden in the viewport, cannot. *)
Record Context := {
  layer_collection_children : list LayerCollection;
  view_layer_objects : list Object;
  selectable : Object → bool;
  data_collections : list Collection;
  props : VRseFbxExporterProperties
}.

(** [obj.users_collection]: the collections that list the object. *)
Definition users_collection (context : Context) (obj : Object) : list Collection :=
  filter (fun c => bool_decide (obj ∈ coll_objects c)) (data_collections context).

Inductive Severity := INFO | WARNING | ERROR.

(** [ExportedFileItem], lines 124-127. *)
Record ExportedFileItem := { item_name : string; file_path : string }.

(** One invocation of the host exporter: its arguments, the selection it
    exports ([use_selection=True]), the active object at the time of the
    call and the exception it raised, if any. *)
Record FbxCall := {
  call_params : Fbx.Params;
  call_objects : list Object;
  call_active : option Object;
  call_error : option string
}.

(** The native exporter and [bpy.ops.object.mode_set].  The exporter gets
    the file system, its arguments and the selected objects, and returns
    the file system it leaves and the message of the exception it raised,
    if any.  The other host calls of the operator ([select_all],
    [select_set], the assignment of the active object) raise nothing. *)
Class Host (FS : Type) := {
  export_scene_fbx : FS → Fbx.Params → list Object → FS * option string;
  mode_set_succeeds : string → bool
}.

(** What a run reads and writes. *)
Record World (FS : Type) := {
  w_fs : FS;
  w_mode : string;
  w_selected : list Object;
  w_active : option Object;
  exported_files : list ExportedFileItem;
  reports : list (Severity * string);
  fbx_calls : list FbxCall;
  summary_dialogs : nat
}.
Arguments w_fs {FS}.
Arguments w_mode {FS}.
Arguments w_selected {FS}.
Arguments w_active {FS}.
Arguments exported_files {FS}.
Arguments reports {FS}.
Arguments fbx_calls {FS}.
Arguments summary_dialogs {FS}.

Inductive Status := FINISHED | CANCELLED.

(** ** The export operator *)

(** Number to text, as an f-string prints it. *)
Definition str_of_nat (n : nat) : string := pretty n.

Section Operator.
Context `{OsPath} {FS : Type} `{!FileSystem FS} `{!Host FS}.

(** Operator code runs over the run state and may fail to return. *)
Definition M (A : Type) : Type := World FS → option (A * World FS).

Definition ret {A} (a : A) : M A := fun w => Some (a, w).

Definition bind {A B} (m : M A) (k : A → M B) : M B :=
  fun w => match m w with
           | Some (a, w') => k a w'
           | None => None
           end.

Notation "x <- c1 ;; c2" := (bind c1 (fun x => c2))
  (at level 100, c1 at next level, right associativity).
Notation "c1 ;; c2" := (bind c1 (fun _ => c2))
  (at level 100, right associativity).

(** [for x in l: count += f(x)]. *)
Definition for_sum {A} (f : A → M nat) : list A → M nat :=
  fix go l :=
    match l with
    | [] => ret 0
    | x :: l' => n <- f x ;; m <- go l' ;; ret (n + m)
    end.

(** [for x in l: f(x)]. *)
Definition for_each {A} (f : A → M unit) : list A → M unit :=
  fix go l :=
    match l with
    | [] => ret tt
    | x :: l' => f x ;; go l'
    end.

(** *** Host and file-system effects *)

(** [self.report({sev}, msg)]. *)
Definition add_report (sev : Severity) (msg : string) (w : World FS) : World FS :=
  {| w_fs := w_fs w; w_mode := w_mode w; w_selected := w_selected w;
     w_active := w_active w; exported_files := exported_files w;
     reports := reports w ++ [(sev, msg)];
     fbx_calls := fbx_calls w; summary_dialogs := summary_dialogs w |}.

Definition report (sev : Severity) (msg : string) : M unit := fun w =>
  Some (tt, add_report sev msg w).

Definition with_fs (fs : FS) (w : World FS) : World FS :=
  {| w_fs := fs; w_mode := w_mode w; w_selected := w_selected w;
     w_active := w_active w; exported_files := exported_files w;
     reports := reports w; fbx_calls := fbx_calls w;
     summary_dialogs := summary_dialogs w |}.

Definition check_path (path : string) : M (bool * string) := fun w =>
  match check_path_exists (w_fs w) path with
  | Some r => Some (r, w)
  | None => None
  end.

Definition ensure_directory (directory_path : string) : M (bool * string) := fun w =>
  match ensure_directory_exists (w_fs w) directory_path with
  | Some (r, fs') => Some (r, with_fs fs' w)
  | None => None
  end.

(** [if bpy.context.mode != 'OBJECT': try mode_set(mode='OBJECT') except: pass]. *)
Definition ensure_object_mode : M unit := fun w =>
  let mode :=
    if negb (String.eqb (w_mode w) "OBJECT") && mode_set_succeeds (w_mode w)
    then "OBJECT" else w_mode w in
  Some (tt, {| w_fs := w_fs w; w_mode := mode; w_selected := w_selected w;
               w_active := w_active w; exported_files := exported_files w;
               reports := reports w; fbx_calls := fbx_calls w;
               summary_dialogs := summary_dialogs w |}).

(** [bpy.ops.object.select_all(action='DESELECT')]. *)
Definition select_all_deselect : M unit := fun w =>
  Some (tt, {| w_fs := w_fs w; w_mode := w_mode w; w_selected := [];
               w_active := w_active w; exported_files := exported_files w;
               reports := reports w; fbx_calls := fbx_calls w;
               summary_dialogs := summary_dialogs w |}).

(** [o.select_set(True)]: the host selects an object that can be
    selected and silently leaves any other as it is. *)
Definition select_set (context : Context) (o : Object) : M unit := fun w =>
  let sel := if negb (selectable context o) || bool_decide (o ∈ w_selected w)
             then w_selected w
             else w_selected w ++ [o] in
  Some (tt, {| w_fs := w_fs w; w_mode := w_mode w; w_selected := sel;
               w_active := w_active w; exported_files := exported_files w;
               reports := reports w; fbx_calls := fbx_calls w;
               summary_dialogs := summary_dialogs w |}).

(** [context.view_layer.objects.active = o]. *)
Definition set_active (o : Object) : M unit := fun w =>
  Some (tt, {| w_fs := w_fs w; w_mode := w_mode w; w_selected := w_selected w;
               w_active := Some o; exported_files := exported_files w;
               reports := reports w; fbx_calls := fbx_calls w;
               summary_dialogs := summary_dialogs w |}).

(** [context.selected_objects]: the selected objects of the view layer.
    The host lists no object that cannot be selected there. *)
Definition selected_objects (context : Context) (w : World FS) : list Object :=
  filter (fun o => bool_decide (o ∈ w_selected w) && selectable context o)
         (view_layer_objects context).

(** The item lines 389-391 add for an exported file. *)
Definition record_of (filepath : string) : ExportedFileItem :=
  {| item_name := os_path_basename filepath; file_path := filepath |}.

(** The [try] block of [export_fbx], lines 361-396: the exporter call,
    then the new [exported_files] item or the error report. *)
Definition call_exporter (context : Context) (filepath : string) : M bool := fun w =>
  let params := fbx_params (props context) filepath in
  let '(fs', err) := export_scene_fbx (w_fs w) params (selected_objects context w) in
  let call := {| call_params := params;
                 call_objects := selected_objects context w;
                 call_active := w_active w;
                 call_error := err |} in
  match err with
  | None =>
    Some (true,
          {| w_fs := fs'; w_mode := w_mode w; w_selected := w_selected w;
             w_active := w_active w;
             exported_files := exported_files w ++ [record_of filepath];
             reports := reports w;
             fbx_calls := fbx_calls w ++ [call];
             summary_dialogs := summary_dialogs w |})
  | Some e =>
    Some (false,
          {| w_fs := fs'; w_mode := w_mode w; w_selected := w_selected w;
             w_active := w_active w; exported_files := exported_files w;
             reports := reports w ++
               [(ERROR, "Error exporting to " +:+ filepath +:+ ": " +:+ e)];
             fbx_calls := fbx_calls w ++ [call];
             summary_dialogs := summary_dialogs w |})
  end.

(** [export_fbx], lines 321-396. *)
Definition export_fbx (context : Context) (filepath : string)
    (objects : list Object) : M bool :=
  match objects with
  | [] => ret false
  | _ :: _ =>
    r <- ensure_directory (os_path_dirname filepath) ;;
    if negb (fst r) then report ERROR (snd r) ;; ret false
    else
      ensure_object_mode ;;
      select_all_deselect ;;
      let view_objs := view_layer_objects context in
      let valid_objects := filter (fun o => bool_decide (o ∈ view_objs)) objects in
      for_each (select_set context) valid_objects ;;
      match valid_objects with
      | o :: _ => set_active o
      | [] => ret tt
      end ;;
      call_exporter context filepath
  end.

(** [1 if ok else 0], the increments of [exported_count]. *)
Definition count_of (ok : bool) : nat := if ok then 1 else 0.

Definition visible_allowed (allowed_types : gset string) (o : Object) : bool :=
  bool_decide (ob_type o ∈ allowed_types) && negb (ob_hide_viewport o).

(** [export_collection_recursive], lines 398-451. *)
Fixpoint export_collection_recursive (context : Context)
    (collection : Collection) (parent_dir : string)
    (allowed_types : gset string) (create_subfolder : bool) : M nat :=
  match collection with
  | Coll name _ objects children =>
    let body (coll_folder : string) : M nat :=
      if combine_nested_collections (props context)
         && negb (bool_decide (children = []))
      then
        let all_objects := gather_all_objects_recursive collection allowed_types in
        match all_objects with
        | [] => ret 0
        | _ :: _ =>
          let export_path := os_path_join coll_folder (name +:+ ".fbx") in
          ok <- export_fbx context export_path all_objects ;;
          ret (count_of ok)
        end
      else
        let direct_objs := filter (visible_allowed allowed_types) objects in
        n <- match direct_objs with
             | [] => ret 0
             | _ :: _ =>
               let export_path := os_path_join coll_folder (name +:+ ".fbx") in
               ok <- export_fbx context export_path direct_objs ;;
               ret (count_of ok)
             end ;;
        m <- (if separate_child_collections (props context)
              then for_sum (fun child_coll =>
                     export_collection_recursive context child_coll coll_folder
                                                 allowed_types true) children
              else for_sum (fun child_coll =>
                     export_collection_recursive context child_coll coll_folder
                                                 allowed_types false) children) ;;
        ret (n + m)
    in
    if create_subfolder then
      let coll_folder := os_path_join parent_dir name in
      r <- ensure_directory coll_folder ;;
      if negb (fst r) then report ERROR (snd r) ;; ret 0
      else body coll_folder
    else body parent_dir
  end.

(** *** Selection mode *)

(** [coll_map.setdefault(coll, []).append(obj)] on an insertion-ordered
    dictionary. *)
Fixpoint setdefault_append (coll : Collection) (obj : Object)
    (coll_map : list (Collection * list Object))
  : list (Collection * list Object) :=
  match coll_map with
  | [] => [(coll, [obj])]
  | (c, objs) :: rest =>
    if String.eqb (coll_name c) (coll_name coll)
    then (c, objs ++ [obj]) :: rest
    else (c, objs) :: setdefault_append coll obj rest
  end.

(** [coll_map[coll]], [None] when [coll not in coll_map]. *)
Fixpoint coll_map_get (coll_map : list (Collection * list Object))
    (coll : Collection) : option (list Object) :=
  match coll_map with
  | [] => None
  | (c, objs) :: rest =>
    if String.eqb (coll_name c) (coll_name coll) then Some objs
    else coll_map_get rest coll
  end.

(** [gather_selected_by_collection], lines 453-459. *)
Definition gather_selected_by_collection (context : Context)
    (selected_objs : list Object) : list (Collection * list Object) :=
  fold_left (fun coll_map obj =>
               fold_left (fun coll_map coll => setdefault_append coll obj coll_map)
                         (users_collection context obj) coll_map)
            selected_objs [].

(** [export_selected_as_collections], lines 461-486.  The shared
    [visited] set is passed in and handed back. *)
Fixpoint export_selected_as_collections (context : Context)
    (coll_map : list (Collection * list Object)) (parent_coll : Collection)
    (parent_dir : string) (visited : gset string) : M (nat * gset string) :=
  match parent_coll with
  | Coll name _ _ children =>
    if bool_decide (name ∈ visited) then ret (0, visited)
    else
      let visited := {[name]} ∪ visited in
      let coll_folder := os_path_join parent_dir name in
      r <- ensure_directory coll_folder ;;
      if negb (fst r) then report ERROR (snd r) ;; ret (0, visited)
      else
        n <- match coll_map_get coll_map parent_coll with
             | Some ((_ :: _) as objs) =>
               let export_path := os_path_join coll_folder (name +:+ ".fbx") in
               ok <- export_fbx context export_path objs ;;
               ret (count_of ok)
             | _ => ret 0
             end ;;
        (fix loop (cs : list Collection) (count : nat) (visited : gset string)
           : M (nat * gset string) :=
           match cs with
           | [] => ret (count, visited)
           | child :: cs' =>
             match coll_map_get coll_map child with
             | Some _ =>
               r <- export_selected_as_collections context coll_map child
                                                   coll_folder visited ;;
               loop cs' (count + fst r) (snd r)
             | None => loop cs' count visited
             end
           end) children n visited
  end.

(** [export_selected_each_object], lines 488-505. *)
Definition export_selected_each_object (context : Context)
    (selected_objs : list Object) (directory : string) : M nat :=
  for_sum (fun obj =>
    if make_separate_folders (props context) then
      let obj_folder := os_path_join directory (ob_name obj) in
      r <- ensure_directory obj_folder ;;
      if negb (fst r) then report ERROR (snd r) ;; ret 0
      else
        let export_path := os_path_join obj_folder (ob_name obj +:+ ".fbx") in
        ok <- export_fbx context export_path [obj] ;;
        ret (count_of ok)
    else
      let export_path := os_path_join directory (ob_name obj +:+ ".fbx") in
      ok <- export_fbx context export_path [obj] ;;
      ret (count_of ok)) selected_objs.

(** *** The run *)

(** [props.exported_files.clear()]. *)
Definition clear_exported_files : M unit := fun w =>
  Some (tt, {| w_fs := w_fs w; w_mode := w_mode w; w_selected := w_selected w;
               w_active := w_active w; exported_files := [];
               reports := reports w; fbx_calls := fbx_calls w;
               summary_dialogs := summary_dialogs w |}).

(** [bpy.ops.vrse.show_exported_files('INVOKE_DEFAULT')]. *)
Definition show_exported_files : M unit := fun w =>
  Some (tt, {| w_fs := w_fs w; w_mode := w_mode w; w_selected := w_selected w;
               w_active := w_active w; exported_files := exported_files w;
               reports := reports w; fbx_calls := fbx_calls w;
               summary_dialogs := S (summary_dialogs w) |}).

Definition get_world : M (World FS) := fun w => Some (w, w).

(** Lines 592-604 of [execute]: restore the selection, open the dialog. *)
Definition restore_and_present (context : Context) (orig_sel : list Object)
    (orig_active : option Object) : M Status :=
  select_all_deselect ;;
  for_each (select_set context) orig_sel ;;
  match orig_active with
  | Some o => set_active o
  | None => ret tt
  end ;;
  w <- get_world ;;
  match exported_files w with
  | _ :: _ => show_exported_files
  | [] => ret tt
  end ;;
  ret FINISHED.

(** Lines 559-566: the collections of the group that are no child of
    another collection of the group. *)
Definition selection_top_level (all_colls : list Collection) : list Collection :=
  filter (fun c =>
    negb (existsb (fun other_coll =>
                     bool_decide (coll_name c ∈ map coll_name (coll_children other_coll)))
                  (filter (fun other_coll =>
                             negb (String.eqb (coll_name other_coll) (coll_name c)))
                          all_colls)))
    all_colls.

(** Lines 568-571: the loop over [top_level] with the shared [visited]. *)
Fixpoint export_top_level_groups (context : Context)
    (coll_map : list (Collection * list Object)) (top_level : list Collection)
    (directory : string) (visited : gset string) : M nat :=
  match top_level with
  | [] => ret 0
  | top_coll :: rest =>
    r <- export_selected_as_collections context coll_map top_coll directory visited ;;
    m <- export_top_level_groups context coll_map rest directory (snd r) ;;
    ret (fst r + m)
  end.

(** [execute], lines 507-604; [directory] is [self.directory]. *)
Definition execute (context : Context) (directory : string) : M Status :=
  let props := props context in
  clear_exported_files ;;
  let directory := bpy_path_abspath directory in
  r <- check_path (os_path_dirname directory) ;;
  if negb (fst r) then report ERROR (snd r) ;; ret CANCELLED
  else
    r <- ensure_directory directory ;;
    if negb (fst r) then report ERROR (snd r) ;; ret CANCELLED
    else
      w0 <- get_world ;;
      let orig_sel := selected_objects context w0 in
      let orig_active := w_active w0 in
      let allowed_types := get_object_types props in
      match export_mode props with
      | COLLECTIONS =>
        let top_colls :=
          gather_top_level_collections (layer_collection_children context) in
        let valid_colls :=
          filter (fun c =>
                    negb (bool_decide
                            (filter (visible_allowed allowed_types) (all_objects c) = [])))
                 top_colls in
        export_count <- for_sum (fun coll =>
          export_collection_recursive context coll directory allowed_types true)
          valid_colls ;;
        report INFO ("Exported " +:+ str_of_nat export_count
                     +:+ " FBX files (Collections mode).") ;;
        restore_and_present context orig_sel orig_active
      | SELECTED =>
        let sel_objects :=
          filter (fun o => bool_decide (ob_type o ∈ allowed_types)) orig_sel in
        match sel_objects with
        | [] => report WARNING "No valid selected objects to export" ;; ret CANCELLED
        | _ :: _ =>
          (if as_single_mesh props && make_separate_folders props then
             let coll_map := gather_selected_by_collection context sel_objects in
             let all_colls := coll_map.*1 in
             let top_level := selection_top_level all_colls in
             export_count <- export_top_level_groups context coll_map top_level
                                                     directory ∅ ;;
             report INFO ("Exported " +:+ str_of_nat export_count
                          +:+ " FBX files (Single Mesh + Separate Folders).")
           else if as_single_mesh props then
             let export_name :=
               match orig_active with
               | Some a =>
                 match users_collection context a with
                 | c :: _ => coll_name c
                 | [] => "combined_export"
                 end
               | None => "combined_export"
               end in
             let export_path := os_path_join directory (export_name +:+ ".fbx") in
             export_fbx context export_path sel_objects ;;
             report INFO ("Exported single FBX with all selected objects: "
                          +:+ export_name +:+ ".fbx")
           else
             export_count <- export_selected_each_object context sel_objects directory ;;
             report INFO ("Exported " +:+ str_of_nat export_count
                          +:+ " objects separately.")) ;;
          restore_and_present context orig_sel orig_active
        end
      end.

(** *** The log of a run *)

(** The items the successful calls of a list of exporter calls leave in
    [exported_files], in call order. *)
Definition records_of (calls : list FbxCall) : list ExportedFileItem :=
  flat_map (fun c => match call_error c with
                     | None => [record_of (Fbx.filepath (call_params c))]
                     | Some _ => []
                     end) calls.

(** [w'] comes after [w] in a run: the exporter was called some more
    times, [exported_files] grew by the items of the calls that
    succeeded, and no dialog was opened. *)
Definition extends_log (w w' : World FS) : Prop :=
  ∃ calls, fbx_calls w' = fbx_calls w ++ calls
           ∧ exported_files w' = exported_files w ++ records_of calls
           ∧ summary_dialogs w' = summary_dialogs w.

(** The computation returns from every state and extends the log. *)
Definition logs {A} (m : M A) : Prop :=
  ∀ w, ∃ a w', m w = Some (a, w') ∧ extends_log w w'.

(** The computation [m] takes every state to one related to it by [R]. *)
Definition respects {A} (R : World FS → World FS → Prop) (m : M A) : Prop :=
  ∀ w a w', m w = Some (a, w') → R w w'.

(** The active object after the exporter calls [calls] when it was
    [start] before them: the one that was active at the last call. *)
Definition active_after (start : option Object) (calls : list FbxCall)
  : option Object :=
  match last calls with
  | Some c => call_active c
  | None => start
  end.

(** From [w] to [w'] the active object was only set for exporter calls. *)
Definition tracks_active (w w' : World FS) : Prop :=
  ∃ calls, fbx_calls w' = fbx_calls w ++ calls
           ∧ w_active w' = active_after (w_active w) calls.

(** What a whole run leaves behind, from the state [w] it starts in to
    the state [w'] it ends in: the exporter calls it made, one
    [exported_files] item per call that succeeded, the dialog opened
    exactly when there is such an item, the selection as it was, and the
    active object as it was when there was one. *)
Definition run_effect (context : Context) (w w' : World FS) : Prop :=
  (∃ calls, fbx_calls w' = fbx_calls w ++ calls
            ∧ exported_files w' = records_of calls
            ∧ summary_dialogs w' =
                summary_dialogs w
                + match exported_files w' with [] => 0 | _ :: _ => 1 end)
  ∧ selected_objects context w' = selected_objects context w
  ∧ (∀ o, w_active w = Some o → w_active w' = Some o).
End Operator.
Arguments M : clear implicits.

(** ** What the proofs ask of the operating system *)

(** [dirname] returns its argument or a shorter path. *)
Definition dirname_shortens `{OsPath} : Prop :=
  ∀ p, os_path_dirname p = p
       ∨ (String.length (os_path_dirname p) < String.length p)%nat.

(** [dirname] never lengthens a path, and a non-empty path that is its own
    parent (a root) exists. *)
Class PathLaws `{OsPath} {FS : Type} `{!FileSystem FS} : Prop := {
  dirname_shorter : ∀ p,
    os_path_dirname p = p
    ∨ (String.length (os_path_dirname p) < String.length p)%nat;
  root_exists : ∀ (fs : FS) p,
    os_path_dirname p = p → truthy p = true → os_path_exists fs p = true
}.

(** A successful [makedirs] leaves its argument in place and removes
    nothing. *)
Class MakedirsLaws {FS : Type} `{!FileSystem FS} : Prop := {
  makedirs_creates : ∀ (fs fs' : FS) p,
    os_makedirs fs p = inl fs' → os_path_exists fs' p = true;
  makedirs_keeps : ∀ (fs fs' : FS) p q,
    os_makedirs fs p = inl fs' →
    os_path_exists fs q = true → os_path_exists fs' q = true
}.

(** ** A POSIX instance of the interfaces *)

Module Posix.
Definition is_slash (c : ascii) : bool := Ascii.eqb c "/".

(** The part of a reversed path from its first slash on: [p[:i]]
    reversed, with [i = p.rfind('/') + 1]. *)
Fixpoint from_slash (l : list ascii) : list ascii :=
  match l with
  | [] => []
  | c :: l' => if is_slash c then l else from_slash l'
  end.

(** The part of a reversed path before its first slash: [p[i:]] reversed. *)
Fixpoint before_slash (l : list ascii) : list ascii :=
  match l with
  | [] => []
  | c :: l' => if is_slash c then [] else c :: before_slash l'
  end.

(** [rstrip('/')] on a reversed path. *)
Fixpoint strip_slashes (l : list ascii) : list ascii :=
  match l with
  | [] => []
  | c :: l' => if is_slash c then strip_slashes l' else l
  end.

(** [posixpath.dirname]. *)
Definition dirname (p : string) : string :=
  let head := from_slash (rev (list_ascii_of_string p)) in
  if forallb is_slash head then string_of_list_ascii (rev head)
  else string_of_list_ascii (rev (strip_slashes head)).

(** [posixpath.basename]. *)
Definition basename (p : string) : string :=
  string_of_list_ascii (rev (before_slash (rev (list_ascii_of_string p)))).

(** [posixpath.join] of two components. *)
Definition join (a b : string) : string :=
  match list_ascii_of_string b with
  | c :: _ => if is_slash c then b
              else match rev (list_ascii_of_string a) with
                   | [] => b
                   | d :: _ => if is_slash d then a +:+ b else a +:+ "/" +:+ b
                   end
  | [] => match rev (list_ascii_of_string a) with
          | [] => b
          | d :: _ => if is_slash d then a +:+ b else a +:+ "/" +:+ b
          end
  end.

(** No drive letters; [bpy.path.abspath] leaves a path that does not
    start with "//" as it is. *)
#[export] Instance os_path : OsPath := {|
  platform_is_windows := false;
  os_path_splitdrive := fun _ => "";
  os_path_dirname := dirname;
  os_path_basename := basename;
  os_path_join := join;
  bpy_path_abspath := fun p => p
|}.

(** An in-memory file system: the paths that exist (besides the roots,
    which always do) and the paths the system refuses to create. *)
Record MemFS := { entries : list string; denied : list string }.

Definition is_root (p : string) : bool :=
  truthy p && forallb is_slash (list_ascii_of_string p).

(** A run of slashes counts as one slash. *)
Fixpoint squeeze (l : list ascii) : list ascii :=
  match l with
  | [] => []
  | c :: l' =>
    let r := squeeze l' in
    if is_slash c then
      match r with
      | d :: _ => if is_slash d then r else c :: r
      | [] => [c]
      end
    else c :: r
  end.

(** The path as the system resolves it: repeated slashes and a trailing
    slash do not matter.  The components [.] and [..] and symbolic links
    are not modelled; [entries] holds paths in this form. *)
Definition norm (p : string) : string :=
  let l := squeeze (list_ascii_of_string p) in
  match rev l with
  | c :: d :: rest =>
    if is_slash c then string_of_list_ascii (rev (d :: rest))
    else string_of_list_ascii l
  | _ => string_of_list_ascii l
  end.

Definition exists_ (fs : MemFS) (p : string) : bool :=
  is_root p || bool_decide (norm p ∈ entries fs).

(** [os.makedirs(p, exist_ok=True)]: the missing ancestors first, then
    [p]; nothing is created when a needed path is refused. *)
Fixpoint makedirs_rec (fuel : nat) (fs : MemFS) (p : string) : MemFS + OSError :=
  match fuel with
  | O => inr (OtherError "maximum recursion depth exceeded")
  | S fuel' =>
    if exists_ fs p then inl fs
    else if negb (truthy p) then inr FileNotFoundError
    else
      match (if truthy (dirname p) then makedirs_rec fuel' fs (dirname p)
             else inl fs) with
      | inl fs1 =>
        if bool_decide (norm p ∈ denied fs1) then inr PermissionError
        else inl {| entries := entries fs1 ++ [norm p]; denied := denied fs1 |}
      | inr e => inr e
      end
  end.

Definition makedirs (fs : MemFS) (p : string) : MemFS + OSError :=
  makedirs_rec (S (String.length p)) fs p.

#[export] Instance file_system : FileSystem MemFS := {|
  os_path_exists := exists_;
  os_makedirs := makedirs
|}.

(** A host whose exporter writes the file unless the path is refused,
    and whose mode switch always works. *)
#[export] Instance host : Host MemFS := {|
  export_scene_fbx := fun fs params _ =>
    if bool_decide (Fbx.filepath params ∈ denied fs)
    then (fs, Some "Permission denied")
    else ({| entries := entries fs ++ [Fbx.filepath params];
             denied := denied fs |}, None);
  mode_set_succeeds := fun _ => true
|}.
End Posix.

(** ** The Props/Nested scene of the specification's scenarios *)

Module Scene.
Import Posix.

Definition Cube : Object :=
  {| ob_name := "Cube"; ob_type := "MESH"; ob_hide_viewport := false |}.
Definition Sphere : Object :=
  {| ob_name := "Sphere"; ob_type := "MESH"; ob_hide_viewport := false |}.

Definition Nested : Collection := Coll "Nested" false [Sphere] [].
Definition Props : Collection := Coll "Props" false [Cube] [Nested].

Definition layers : list LayerCollection :=
  [LayerColl false Props [LayerColl false Nested []]].

(** The add-on's defaults (lines 133-260) with the two folder options of
    collection mode as arguments. *)
Definition settings (separate_child combine_nested : bool)
  : VRseFbxExporterProperties :=
  {| export_mode := COLLECTIONS;
     apply_unit := true; use_space_transform := true; apply_transform := true;
     axis_forward := "-Z"; axis_up := "Y";
     apply_scale_options := "FBX_SCALE_ALL"; apply_modifiers := true;
     as_single_mesh := true; make_separate_folders := false;
     separate_child_collections := separate_child;
     combine_nested_collections := combine_nested;
     export_empty := false; export_camera := false; export_lamp := false;
     export_armature := false; export_mesh := true; export_other := false;
     embed_textures := false; export_animations := false;
     export_smoothing := "OFF" |}.

Definition context (separate_child combine_nested : bool) : Context :=
  {| layer_collection_children := layers;
     view_layer_objects := [Cube; Sphere];
     selectable := fun _ => true;
     data_collections := [Nested; Props];
     props := settings separate_child combine_nested |}.

(** Three disks: one with [/home], one with an output root [/out], and
    one whose [/srv] refuses the creation of [/srv/Props]. *)
Definition home_disk : MemFS := {| entries := ["/home"]; denied := [] |}.
Definition out_disk : MemFS := {| entries := ["/out"]; denied := [] |}.
Definition guarded_disk : MemFS :=
  {| entries := ["/srv"]; denied := ["/srv/Props"] |}.


(** A run starts with [fs] on disk, nothing selected and no active object. *)
Definition start (fs : MemFS) : World MemFS :=
  {| w_fs := fs; w_mode := "OBJECT"; w_selected := []; w_active := None;
     exported_files := []; reports := []; fbx_calls := [];
     summary_dialogs := 0 |}.

(** The export jobs of a run: output path and exported objects of every
    exporter call. *)
Definition jobs (w : World MemFS) : list (string * list Object) :=
  map (fun c => (Fbx.filepath (call_params c), call_objects c)) (fbx_calls w).
End Scene.

(** ** The rest of the add-on *)

(** [all_have_2nd_uv_layer], lines 45-56; [uv_layers obj] is
    [len(obj.data.uv_layers)], which the code reads for meshes only. *)
Section SecondUvLayer.
Variable uv_layers : Object → nat.

(** The loop of lines 51-55 from a given value of [mesh_found]. *)
Fixpoint all_have_2nd_uv_layer_from (mesh_found : bool) (objects : list Object)
  : bool :=
  match objects with
  | [] => mesh_found
  | obj :: rest =>
    if String.eqb (ob_type obj) "MESH" then
      if (uv_layers obj <? 2)%nat then false
      else all_have_2nd_uv_layer_from true rest
    else all_have_2nd_uv_layer_from mesh_found rest
  end.

Definition all_have_2nd_uv_layer (objects : list Object) : bool :=
  all_have_2nd_uv_layer_from false objects.
End SecondUvLayer.

(** [get_allowed_types] of the panel, lines 820-828. *)
Definition get_allowed_types (props : VRseFbxExporterProperties) : gset string :=
  let t : gset string := ∅ in
  let t := add_if (export_empty props) "EMPTY" t in
  let t := add_if (export_camera props) "CAMERA" t in
  let t := add_if (export_lamp props) "LIGHT" t in
  let t := add_if (export_armature props) "ARMATURE" t in
  let t := add_if (export_mesh props) "MESH" t in
  let t := add_if (export_other props) "OTHER" t in
  t.

(** [gather_layer_coll] of the panel, lines 665-669. *)
Fixpoint gather_layer_coll (lc : LayerCollection) (out : gmap string Collection)
  : gmap string Collection :=
  let out1 :=
    if negb (lc_hide_viewport lc) && negb (coll_hide_viewport (lc_collection lc))
    then set_add (lc_collection lc) out else out in
  match lc with
  | LayerColl _ _ children =>
    fold_left (fun o ch => gather_layer_coll ch o) children out1
  end.

(** [build_map] of the panel, lines 674-679. *)
Fixpoint build_map (lc : LayerCollection) (parent : option Collection)
    (child_to_parent : gmap string Collection) : gmap string Collection :=
  let map1 :=
    if negb (lc_hide_viewport lc) && negb (coll_hide_viewport (lc_collection lc))
    then match parent with
         | Some p => <[coll_name (lc_collection lc) := p]> child_to_parent
         | None => child_to_parent
         end
    else child_to_parent in
  match lc with
  | LayerColl _ collection children =>
    fold_left (fun m ch => build_map ch (Some collection) m) children map1
  end.

(** [top_level] of the panel, lines 664-683: two walks, then the filter. *)
Definition draw_top_level (roots : list LayerCollection) : list Collection :=
  let all_visible := fold_left (fun o lc => gather_layer_coll lc o) roots ∅ in
  let child_to_parent := fold_left (fun m lc => build_map lc None m) roots ∅ in
  filter (fun c => child_to_parent !! coll_name c = None)
         (map_to_list all_visible).*2.

(** Some visible link of the layer hierarchy leads to the collection
    named [k]. *)
Definition visible_link (roots : list LayerCollection) (k : string) : Prop :=
  ∃ root m, root ∈ roots ∧ lc_in m root ∧ lc_visible m = true
            ∧ coll_name (lc_collection m) = k.

(** [coll_in c t]: the collection [c] occurs in the tree of [t]. *)
Inductive coll_in (c : Collection) : Collection → Prop :=
| coll_in_here : coll_in c c
| coll_in_child t child : child ∈ coll_children t → coll_in c child → coll_in c t.

(** ** The panel's preview and the calls of a computation *)

Section Preview.
Context `{OsPath} {FS : Type} `{!FileSystem FS} `{!Host FS}.

(** The figures [VRSE3D_PT_panel.draw] shows in its info box, lines
    646-709: [fbx_count] and the list [objects_to_check]. *)
Definition draw_counts (context : Context) (w : World FS) : nat * list Object :=
  let props := props context in
  let allowed_types := get_allowed_types props in
  match export_mode props with
  | SELECTED =>
    let selected_objs :=
      filter (fun o => bool_decide (ob_type o ∈ allowed_types))
             (selected_objects context w) in
    if as_single_mesh props && make_separate_folders props then
      let coll_map :=
        fold_left (fun coll_map obj =>
                     fold_left (fun coll_map c => setdefault_append c obj coll_map)
                               (users_collection context obj) coll_map)
                  selected_objs [] in
      (length coll_map, concat coll_map.*2)
    else if as_single_mesh props then
      (match selected_objs with [] => 0 | _ :: _ => 1 end, selected_objs)
    else (length selected_objs, selected_objs)
  | COLLECTIONS =>
    let top_level := draw_top_level (layer_collection_children context) in
    let valid_colls :=
      filter (fun c =>
                negb (bool_decide
                        (filter (visible_allowed allowed_types) (all_objects c) = [])))
             top_level in
    (length valid_colls,
     concat (map (fun coll => filter (visible_allowed allowed_types) (all_objects coll))
                 valid_colls))
  end.

(** The "2nd UV map" label of the panel, lines 711-712. *)
Definition draw_has_2nd_uv (uv_layers : Object → nat) (context : Context)
    (w : World FS) : bool :=
  all_have_2nd_uv_layer uv_layers (draw_counts context w).2.

(** Whenever [m] returns, the exporter calls it made and its result
    satisfy [Q]. *)
Definition emits {A} (m : M FS A) (Q : A → list FbxCall → Prop) : Prop :=
  ∀ w a w', m w = Some (a, w') →
            ∃ calls, fbx_calls w' = fbx_calls w ++ calls ∧ Q a calls.

(** An exporter call made for the tree of [collection] in collection
    mode: its file is named after a collection of the tree, and it exports
    objects of the tree that are in the view layer, have an allowed type
    and are not hidden. *)
Definition collection_call (context : Context) (allowed_types : gset string)
    (collection : Collection) (call : FbxCall) : Prop :=
  (∃ c folder, coll_in c collection
               ∧ Fbx.filepath (call_params call)
                 = os_path_join folder (coll_name c +:+ ".fbx"))
  ∧ ∀ o, o ∈ call_objects call →
         o ∈ all_objects collection ∧ o ∈ view_layer_objects context
         ∧ ob_type o ∈ allowed_types ∧ ob_hide_viewport o = false.

(** The objects a call of [export_fbx] on [objects] hands to the
    exporter: those of [objects] that are in the view layer and can be
    selected there, in view-layer order. *)
Definition exported_of (context : Context) (objects : list Object) : list Object :=
  filter (fun o => bool_decide (o ∈ objects) && selectable context o)
         (view_layer_objects context).
End Preview.

(** ** Exporter calls for a grouped selection *)

Section SelectionCallsDefs.
Context `{OsPath} {FS : Type} `{!FileSystem FS} `{!Host FS}.

(** The names of the keys of [coll_map]. *)
Definition key_names (coll_map : list (Collection * list Object)) : gset string :=
  list_to_set (coll_name <$> coll_map.*1).

(** An exporter call made for one group of [coll_map]: its file is named
    after the group's collection and it exports the group's objects that
    are in the view layer. *)
Definition group_call (context : Context)
    (coll_map : list (Collection * list Object)) (call : FbxCall) : Prop :=
  ∃ c objs folder,
    coll_map_get coll_map c = Some objs
    ∧ Fbx.filepath (call_params call) = os_path_join folder (coll_name c +:+ ".fbx")
    ∧ call_objects call = exported_of context objs.

(** What [export_selected_as_collections] returns for the collection named
    [name] from the visited set [visited]: the count of the files it
    recorded, and a visited set that has grown by at least one name per
    exporter call, all of them [name] or keys of [coll_map]. *)
Definition visit_result (context : Context)
    (coll_map : list (Collection * list Object)) (name : string)
    (visited : gset string) (r : nat * gset string) (calls : list FbxCall) : Prop :=
  r.1 = length (records_of calls)
  ∧ visited ⊆ r.2
  ∧ (length calls + size visited ≤ size r.2)%nat
  ∧ r.2 ⊆ visited ∪ {[name]} ∪ key_names coll_map
  ∧ Forall (group_call context coll_map) calls.

(** An exporter call made for the group of the collection named [name]:
    the file carries that name and the call exports the group's objects. *)
Definition group_call_for (context : Context)
    (coll_map : list (Collection * list Object)) (call : FbxCall)
    (name : string) : Prop :=
  ∃ c objs folder,
    coll_name c = name
    ∧ coll_map_get coll_map c = Some objs
    ∧ Fbx.filepath (call_params call) = os_path_join folder (name +:+ ".fbx")
    ∧ call_objects call = exported_of context objs.

(** The exporter calls of a visit that takes the visited set from
    [visited] to [visited']: one call each for collections [names] that
    had not been visited before and are visited now, no two of them the
    same. *)
Definition visit_names (context : Context)
    (coll_map : list (Collection * list Object))
    (visited visited' : gset string) (calls : list FbxCall) : Prop :=
  visited ⊆ visited'
  ∧ ∃ names, Forall2 (group_call_for context coll_map) calls names
             ∧ NoDup names
             ∧ ∀ x, x ∈ names → (x ∉ visited) ∧ x ∈ visited'.
End SelectionCallsDefs.

(** ** A drive-letter instance of the path interface *)

Module Nt.
Import Posix.

(** [ntpath] takes both slashes for separators. *)
Definition is_sep (c : ascii) : bool := Ascii.eqb c "\" || Ascii.eqb c "/".

(** [ntpath.splitdrive] for drive letters; UNC shares are not modelled. *)
Definition splitdrive (p : string) : string * string :=
  match p with
  | String d (String c rest) =>
    if Ascii.eqb c ":" then (String d (String c EmptyString), rest) else ("", p)
  | _ => ("", p)
  end.

Fixpoint from_sep (l : list ascii) : list ascii :=
  match l with
  | [] => []
  | c :: l' => if is_sep c then l else from_sep l'
  end.

Fixpoint before_sep (l : list ascii) : list ascii :=
  match l with
  | [] => []
  | c :: l' => if is_sep c then [] else c :: before_sep l'
  end.

Fixpoint strip_seps (l : list ascii) : list ascii :=
  match l with
  | [] => []
  | c :: l' => if is_sep c then strip_seps l' else l
  end.

(** The head of [ntpath.split] on a path without drive. *)
Definition head_of (rest : string) : string :=
  let head := from_sep (rev (list_ascii_of_string rest)) in
  if forallb is_sep head then string_of_list_ascii (rev head)
  else string_of_list_ascii (rev (strip_seps head)).

(** [ntpath.dirname]: the drive, then the head of the rest. *)
Definition dirname (p : string) : string :=
  (splitdrive p).1 +:+ head_of (splitdrive p).2.

(** [ntpath.basename]. *)
Definition basename (p : string) : string :=
  string_of_list_ascii (rev (before_sep (rev (list_ascii_of_string (splitdrive p).2)))).

Definition starts_with_sep (p : string) : bool :=
  match p with
  | String c _ => is_sep c
  | EmptyString => false
  end.

Definition ends_with_sep (p : string) : bool :=
  match rev (list_ascii_of_string p) with
  | c :: _ => is_sep c
  | [] => false
  end.

(** [ntpath.join] of two components; drive letters are compared as
    written. *)
Definition join (a b : string) : string :=
  let '(result_drive, result_path) := splitdrive a in
  let '(p_drive, p_path) := splitdrive b in
  if starts_with_sep p_path then
    (if truthy p_drive || negb (truthy result_drive) then p_drive else result_drive)
    +:+ p_path
  else if truthy p_drive && negb (String.eqb p_drive result_drive) then
    p_drive +:+ p_path
  else
    (if truthy p_drive then p_drive else result_drive)
    +:+ (if truthy result_path && negb (ends_with_sep result_path)
         then result_path +:+ "\" else result_path)
    +:+ p_path.

Definition os_path : OsPath := {|
  platform_is_windows := true;
  os_path_splitdrive := fun p => (splitdrive p).1;
  os_path_dirname := dirname;
  os_path_basename := basename;
  os_path_join := join;
  bpy_path_abspath := fun p => p
|}.

(** On this file system exactly the listed paths exist, drives
    included. *)
Definition exists_ (fs : MemFS) (p : string) : bool :=
  bool_decide (p ∈ entries fs).

(** [os.makedirs(p, exist_ok=True)]: the missing ancestors first, then
    [p], which needs its parent. *)
Fixpoint makedirs_rec (fuel : nat) (fs : MemFS) (p : string) : MemFS + OSError :=
  match fuel with
  | O => inr (OtherError "maximum recursion depth exceeded")
  | S fuel' =>
    if exists_ fs p then inl fs
    else if negb (truthy p) then inr FileNotFoundError
    else
      match (if truthy (dirname p) && negb (String.eqb (dirname p) p)
             then makedirs_rec fuel' fs (dirname p)
             else inl fs) with
      | inl fs1 =>
        if truthy (dirname p) && negb (exists_ fs1 (dirname p))
        then inr FileNotFoundError
        else if bool_decide (p ∈ denied fs1) then inr PermissionError
        else inl {| entries := entries fs1 ++ [p]; denied := denied fs1 |}
      | inr e => inr e
      end
  end.

Definition makedirs (fs : MemFS) (p : string) : MemFS + OSError :=
  makedirs_rec (S (String.length p)) fs p.

Definition file_system : FileSystem MemFS := {|
  os_path_exists := exists_;
  os_makedirs := makedirs
|}.

(** A machine with a drive [C:] and no drive [Z:]. *)
Definition c_disk : MemFS :=
  {| entries := ["C:"; "C:\"; "C:\Users"]; denied := [] |}.
End Nt.

(** ** A scene with a hidden child collection *)

Module Veiled.
Import Posix Scene.

(** [Nested] is hidden in the viewport, so the host does not select
    [Sphere]; the object's own [hide_viewport] is off. *)
Definition Nested : Collection := Coll "Nested" true [Sphere] [].
Definition Props : Collection := Coll "Props" false [Cube] [Nested].

Definition layers : list LayerCollection :=
  [LayerColl false Props [LayerColl false Nested []]].

Definition context (separate_child combine_nested : bool) : Context :=
  {| layer_collection_children := layers;
     view_layer_objects := [Cube; Sphere];
     selectable := fun o => negb (bool_decide (o = Sphere));
     data_collections := [Nested; Props];
     props := settings separate_child combine_nested |}.
End Veiled.

(** ** A selection to export *)

Module Picked.
Import Posix Scene.

(** The settings of [Scene] switched to selection mode, with the two
    mesh-merging options as arguments. *)
Definition settings (single_mesh separate_folders : bool)
  : VRseFbxExporterProperties :=
  {| export_mode := SELECTED;
     apply_unit := true; use_space_transform := true; apply_transform := true;
     axis_forward := "-Z"; axis_up := "Y";
     apply_scale_options := "FBX_SCALE_ALL"; apply_modifiers := true;
     as_single_mesh := single_mesh; make_separate_folders := separate_folders;
     separate_child_collections := true;
     combine_nested_collections := false;
     export_empty := false; export_camera := false; export_lamp := false;
     export_armature := false; export_mesh := true; export_other := false;
     embed_textures := false; export_animations := false;
     export_smoothing := "OFF" |}.

Definition context (single_mesh separate_folders : bool) : Context :=
  {| layer_collection_children := layers;
     view_layer_objects := [Cube; Sphere];
     selectable := fun _ => true;
     data_collections := [Nested; Props];
     props := settings single_mesh separate_folders |}.

(** A run starts with [fs] on disk, both objects selected and [Cube]
    active. *)
Definition start (fs : MemFS) : World MemFS :=
  {| w_fs := fs; w_mode := "OBJECT"; w_selected := [Cube; Sphere];
     w_active := Some Cube;
     exported_files := []; reports := []; fbx_calls := [];
     summary_dialogs := 0 |}.
End Picked.

(** * Properties *)

(** ** Path helper *)

Section PathHelperFacts.
Context `{OsPath} {FS : Type} `{!FileSystem FS}.

Lemma truthy_true s : truthy s = true ↔ s ≠ "".
Proof.
  unfold truthy. destruct (String.eqb_spec s ""); simpl; split; congruence.
Qed.

(** Whatever [check_path_exists] returns, its flag is [os.path.exists]
    of its argument. *)
Lemma check_path_exists_rec_flag fuel (fs : FS) path r :
  check_path_exists_rec fuel fs path = Some r →
  r.1 = os_path_exists fs path.
Proof.
  revert path. induction fuel as [|fuel IH]; intros path; simpl; [done|].
  destruct (os_path_exists fs path) eqn:Hex.
  { by intros [= <-]. }
  destruct (platform_is_windows && truthy (os_path_splitdrive path)
            && negb (os_path_exists fs (os_path_splitdrive path))).
  { by intros [= <-]. }
  destruct (truthy (os_path_dirname path)
            && negb (os_path_exists fs (os_path_dirname path))) eqn:Hup.
  - intros Hrec. apply IH in Hrec. rewrite Hrec.
    apply andb_true_iff in Hup as [_ Hup]. by apply negb_true_iff in Hup.
  - by intros [= <-].
Qed.

(** More fuel does not change an answer. *)
Lemma check_path_exists_rec_mono (fuel fuel' : nat) (fs : FS) path r :
  (fuel ≤ fuel')%nat →
  check_path_exists_rec fuel fs path = Some r →
  check_path_exists_rec fuel' fs path = Some r.
Proof.
  revert fuel' path. induction fuel as [|fuel IH]; intros fuel' path Hle; simpl; [done|].
  destruct fuel' as [|fuel']; [lia|]. simpl.
  destruct (os_path_exists fs path); [done|].
  destruct (platform_is_windows && truthy (os_path_splitdrive path)
            && negb (os_path_exists fs (os_path_splitdrive path))); [done|].
  destruct (truthy (os_path_dirname path)
            && negb (os_path_exists fs (os_path_dirname path))); [|done].
  apply IH. lia.
Qed.

(** A missing path that is its own parent keeps the recursion going for
    ever. *)
Lemma check_path_exists_rec_loop (fuel : nat) (fs : FS) path :
  os_path_exists fs path = false →
  (platform_is_windows && truthy (os_path_splitdrive path)
   && negb (os_path_exists fs (os_path_splitdrive path))) = false →
  os_path_dirname path = path → truthy path = true →
  check_path_exists_rec fuel fs path = None.
Proof.
  intros Hex Hdrive Hfix Hne. induction fuel as [|fuel IH]; simpl; [done|].
  by rewrite Hex, Hdrive, Hfix, Hne, Hex.
Qed.

(** With enough fuel for the length of the path the answer does not
    depend on the fuel. *)
Lemma check_path_exists_rec_stable (fuel1 fuel2 : nat) (fs : FS) path :
  dirname_shortens →
  (String.length path < fuel1)%nat → (String.length path < fuel2)%nat →
  check_path_exists_rec fuel1 fs path = check_path_exists_rec fuel2 fs path.
Proof.
  intros Hshort. revert fuel2 path.
  induction fuel1 as [|fuel1 IH]; intros fuel2 path H1 H2; [lia|].
  destruct fuel2 as [|fuel2]; [lia|]. simpl.
  destruct (os_path_exists fs path) eqn:Hex; [done|].
  destruct (platform_is_windows && truthy (os_path_splitdrive path)
            && negb (os_path_exists fs (os_path_splitdrive path))) eqn:Hdrive;
    [done|].
  destruct (truthy (os_path_dirname path)
            && negb (os_path_exists fs (os_path_dirname path))) eqn:Hup; [|done].
  apply andb_true_iff in Hup as [Hne Hmiss].
  destruct (Hshort path) as [Hfix|Hlt].
  - rewrite Hfix in Hne |- *.
    by rewrite !check_path_exists_rec_loop.
  - apply IH; lia.
Qed.

(** One step of the upward walk: a missing path with a missing, non-empty
    parent gets the parent's answer. *)
Lemma check_path_exists_step (fs : FS) path :
  dirname_shortens →
  os_path_exists fs path = false →
  (platform_is_windows && truthy (os_path_splitdrive path)
   && negb (os_path_exists fs (os_path_splitdrive path))) = false →
  truthy (os_path_dirname path) = true →
  os_path_exists fs (os_path_dirname path) = false →
  check_path_exists fs path = check_path_exists fs (os_path_dirname path).
Proof.
  intros Hshort Hex Hdrive Hne Hmiss. unfold check_path_exists at 1.
  cbn [check_path_exists_rec]. rewrite Hex, Hdrive, Hne, Hmiss. cbn [negb andb].
  unfold check_path_exists. destruct (Hshort path) as [Hfix|Hlt].
  - rewrite Hfix in Hne |- *. by rewrite !check_path_exists_rec_loop.
  - apply check_path_exists_rec_stable; [done|lia..].
Qed.

Context `{!PathLaws}.

(** With the roots in place the upward recursion ends. *)
Lemma check_path_exists_rec_total (fuel : nat) (fs : FS) path :
  (String.length path < fuel)%nat →
  ∃ r, check_path_exists_rec fuel fs path = Some r.
Proof.
  revert path. induction fuel as [|fuel IH]; intros path Hlen; [lia|]. simpl.
  destruct (os_path_exists fs path) eqn:Hex; [eauto|].
  destruct (platform_is_windows && truthy (os_path_splitdrive path)
            && negb (os_path_exists fs (os_path_splitdrive path))); [eauto|].
  destruct (truthy (os_path_dirname path)
            && negb (os_path_exists fs (os_path_dirname path))) eqn:Hup; [|eauto].
  apply andb_true_iff in Hup as [Hne Hmiss]. apply negb_true_iff in Hmiss.
  destruct (dirname_shorter path) as [Hfix|Hlt].
  - rewrite Hfix in Hne, Hmiss. rewrite (root_exists fs path Hfix Hne) in Hmiss.
    discriminate.
  - apply IH. lia.
Qed.

Lemma check_path_exists_total (fs : FS) path :
  ∃ msg, check_path_exists fs path = Some (os_path_exists fs path, msg).
Proof.
  destruct (check_path_exists_rec_total (S (String.length path)) fs path)
    as [[b msg] Hr]; [lia|].
  exists msg. unfold check_path_exists. rewrite Hr.
  apply check_path_exists_rec_flag in Hr. simpl in Hr. by subst.
Qed.

End PathHelperFacts.

(** ** The POSIX instance satisfies the laws *)

Section PosixFacts.
Import Posix.

Lemma length_string_of_list_ascii l :
  String.length (string_of_list_ascii l) = length l.
Proof. induction l as [|c l IH]; simpl; congruence. Qed.

Lemma length_list_ascii_of_string s :
  length (list_ascii_of_string s) = String.length s.
Proof. induction s as [|c s IH]; simpl; congruence. Qed.

Lemma forallb_rev {A} (f : A → bool) l : forallb f (rev l) = forallb f l.
Proof.
  induction l as [|x l IH]; simpl; [done|].
  rewrite forallb_app, IH. simpl. destruct (f x), (forallb f l); done.
Qed.

Lemma from_slash_length l : (length (from_slash l) ≤ length l)%nat.
Proof.
  induction l as [|c l IH]; simpl; [lia|]. destruct (is_slash c); simpl; lia.
Qed.

Lemma from_slash_whole l : length (from_slash l) = length l → from_slash l = l.
Proof.
  destruct l as [|c l]; simpl; [done|]. destruct (is_slash c); [done|].
  pose proof (from_slash_length l). lia.
Qed.

Lemma from_slash_head l :
  from_slash l = [] ∨ ∃ c l', from_slash l = c :: l' ∧ is_slash c = true.
Proof.
  induction l as [|c l IH]; simpl; [by left|].
  destruct (is_slash c) eqn:Hc; [right; eauto|done].
Qed.

Lemma strip_slashes_length l : (length (strip_slashes l) ≤ length l)%nat.
Proof.
  induction l as [|c l IH]; simpl; [lia|]. destruct (is_slash c); simpl; lia.
Qed.

(** [posixpath.dirname] either returns a path of slashes unchanged or
    shortens its argument. *)
Lemma dirname_cases p :
  (dirname p = p ∧ forallb is_slash (list_ascii_of_string p) = true)
  ∨ (String.length (dirname p) < String.length p)%nat.
Proof.
  unfold dirname. set (r := rev (list_ascii_of_string p)).
  assert (Hr : length r = String.length p).
  { unfold r. by rewrite length_rev, length_list_ascii_of_string. }
  pose proof (from_slash_length r) as Hle.
  destruct (forallb is_slash (from_slash r)) eqn:Hall.
  - destruct (decide (length (from_slash r) = length r)) as [Heq|Hne].
    + left. apply from_slash_whole in Heq. rewrite Heq in Hall |- *.
      unfold r in *. rewrite rev_involutive, string_of_list_ascii_of_string.
      split; [done|]. by rewrite forallb_rev in Hall.
    + right. rewrite length_string_of_list_ascii, length_rev. lia.
  - right. rewrite length_string_of_list_ascii, length_rev.
    destruct (from_slash_head r) as [Hnil|(c & l' & Hcons & Hc)].
    + by rewrite Hnil in Hall.
    + rewrite Hcons in Hle |- *. simpl in *. rewrite Hc.
      pose proof (strip_slashes_length l'). lia.
Qed.

#[export] Instance posix_path_laws : @PathLaws os_path MemFS file_system.
Proof.
  split.
  - intros p. simpl. destruct (dirname_cases p) as [[Hfix _]|Hlt]; auto.
  - intros fs p Hfix Hne. simpl in *. unfold exists_, is_root.
    destruct (dirname_cases p) as [[_ Hall]|Hlt].
    + by rewrite Hne, Hall.
    + rewrite Hfix in Hlt. lia.
Qed.
End PosixFacts.

Section PosixMakedirs.
Import Posix.

Lemma makedirs_rec_entries fuel (fs fs' : MemFS) p :
  makedirs_rec fuel fs p = inl fs' →
  (∀ q, q ∈ entries fs → q ∈ entries fs')
  ∧ exists_ fs' p = true.
Proof.
  revert fs fs' p. induction fuel as [|fuel IH]; intros fs fs' p; simpl; [done|].
  destruct (exists_ fs p) eqn:Hex.
  { intros [= <-]. auto. }
  destruct (truthy p); simpl; [|done].
  destruct (if truthy (dirname p) then makedirs_rec fuel fs (dirname p) else inl fs)
    as [fs1|e] eqn:Hparent; [|done].
  destruct (bool_decide (norm p ∈ denied fs1)); [done|].
  intros [= <-]. split.
  - intros q Hq. simpl. apply elem_of_app. left.
    destruct (truthy (dirname p)).
    + by apply (IH _ _ _ Hparent).
    + by injection Hparent as <-.
  - unfold exists_. simpl. apply orb_true_iff. right.
    apply bool_decide_eq_true. apply elem_of_app. right. by apply list_elem_of_singleton.
Qed.

#[export] Instance posix_makedirs_laws : @MakedirsLaws MemFS file_system.
Proof.
  split; simpl; unfold makedirs.
  - intros fs fs' p Hmk. by apply makedirs_rec_entries in Hmk as [_ ?].
  - intros fs fs' p q Hmk. apply makedirs_rec_entries in Hmk as [Hkeep _].
    unfold exists_. intros [Hroot|Hin]%orb_true_iff; apply orb_true_iff; [by left|].
    right. apply bool_decide_eq_true. apply Hkeep. by apply bool_decide_eq_true in Hin.
Qed.
End PosixMakedirs.

(** ** The drive-letter instance shortens paths *)

Section NtFacts.
Import Nt.

Lemma from_sep_length l : (length (from_sep l) ≤ length l)%nat.
Proof.
  induction l as [|c l IH]; simpl; [lia|]. destruct (is_sep c); simpl; lia.
Qed.

Lemma from_sep_whole l : length (from_sep l) = length l → from_sep l = l.
Proof.
  destruct l as [|c l]; simpl; [done|]. destruct (is_sep c); [done|].
  pose proof (from_sep_length l). lia.
Qed.

Lemma from_sep_head l :
  from_sep l = [] ∨ ∃ c l', from_sep l = c :: l' ∧ is_sep c = true.
Proof.
  induction l as [|c l IH]; simpl; [by left|].
  destruct (is_sep c) eqn:Hc; [right; eauto|done].
Qed.

Lemma strip_seps_length l : (length (strip_seps l) ≤ length l)%nat.
Proof.
  induction l as [|c l IH]; simpl; [lia|]. destruct (is_sep c); simpl; lia.
Qed.

Lemma head_of_cases rest :
  head_of rest = rest ∨ (String.length (head_of rest) < String.length rest)%nat.
Proof.
  unfold head_of. set (r := rev (list_ascii_of_string rest)).
  assert (Hr : length r = String.length rest).
  { unfold r. by rewrite length_rev, length_list_ascii_of_string. }
  pose proof (from_sep_length r) as Hle.
  destruct (forallb is_sep (from_sep r)) eqn:Hall.
  - destruct (decide (length (from_sep r) = length r)) as [Heq|Hne].
    + left. apply from_sep_whole in Heq. rewrite Heq.
      unfold r. by rewrite rev_involutive, string_of_list_ascii_of_string.
    + right. rewrite length_string_of_list_ascii, length_rev. lia.
  - right. rewrite length_string_of_list_ascii, length_rev.
    destruct (from_sep_head r) as [Hnil|(c & l' & Hcons & Hc)].
    + by rewrite Hnil in Hall.
    + rewrite Hcons in Hle |- *. simpl in *. rewrite Hc.
      pose proof (strip_seps_length l'). lia.
Qed.

Lemma length_append (a b : string) :
  String.length (a +:+ b) = (String.length a + String.length b)%nat.
Proof. induction a as [|c a IH]; simpl; [done|]. by rewrite IH. Qed.

Lemma splitdrive_parts p : (splitdrive p).1 +:+ (splitdrive p).2 = p.
Proof.
  destruct p as [|d [|c rest]]; simpl; [done..|].
  by destruct (Ascii.eqb c ":").
Qed.

(** [ntpath.dirname] returns its argument or a shorter path. *)
Lemma nt_dirname_shortens : @dirname_shortens Nt.os_path.
Proof.
  intros p. simpl. unfold dirname.
  destruct (head_of_cases (splitdrive p).2) as [Hsame|Hless].
  - left. rewrite Hsame. apply splitdrive_parts.
  - right. pose proof (f_equal String.length (splitdrive_parts p)) as Hlen.
    rewrite length_append in Hlen |- *. lia.
Qed.
End NtFacts.

(** ** Claims about the path helper *)

Section PathHelperClaims.
Context `{OsPath} {FS : Type} `{!FileSystem FS}.

(** C10.  For every path, [check_path_exists] returns, and the flag it
    returns is true exactly when the path itself exists: for a missing
    path the upward recursion only picks the failure message. *)
Theorem check_path_exists_flag_iff_exists `{!PathLaws} (fs : FS) path :
  ∃ msg, check_path_exists fs path = Some (os_path_exists fs path, msg)
         ∧ (os_path_exists fs path = true → msg = "").
Proof.
  destruct (check_path_exists_total fs path) as [msg Hr].
  exists msg. split; [done|]. intros Hex.
  unfold check_path_exists in Hr. simpl in Hr. rewrite Hex in Hr. congruence.
Qed.

(** C3, amended.  An existing path gives [(True, "")] at once.  A
    missing path whose drive is missing on a drive-letter platform gives
    the drive-not-found reason.  Otherwise a missing path whose parent is
    empty or exists is named in the reason, and a missing path whose
    parent is non-empty and missing gets the answer of its parent,
    whenever [dirname] returns its argument or a shorter path.  The flag
    of a missing path is never true, whether or not an ancestor exists,
    and with the roots in place it is false. *)
Theorem check_path_exists_cases (fs : FS) path :
  (os_path_exists fs path = true → check_path_exists fs path = Some (true, ""))
  ∧ (os_path_exists fs path = false →
     platform_is_windows = true →
     truthy (os_path_splitdrive path) = true →
     os_path_exists fs (os_path_splitdrive path) = false →
     check_path_exists fs path =
       Some (false, "Drive '" +:+ os_path_splitdrive path
                    +:+ "' does not exist or is not accessible."))
  ∧ (os_path_exists fs path = false →
     (platform_is_windows && truthy (os_path_splitdrive path)
      && negb (os_path_exists fs (os_path_splitdrive path))) = false →
     (truthy (os_path_dirname path)
      && negb (os_path_exists fs (os_path_dirname path))) = false →
     check_path_exists fs path
     = Some (false, "Path '" +:+ path +:+ "' is not accessible."))
  ∧ (dirname_shortens →
     os_path_exists fs path = false →
     (platform_is_windows && truthy (os_path_splitdrive path)
      && negb (os_path_exists fs (os_path_splitdrive path))) = false →
     (truthy (os_path_dirname path)
      && negb (os_path_exists fs (os_path_dirname path))) = true →
     check_path_exists fs path = check_path_exists fs (os_path_dirname path))
  ∧ (os_path_exists fs path = false →
     ∀ msg, check_path_exists fs path ≠ Some (true, msg))
  ∧ (PathLaws →
     os_path_exists fs path = false →
     ∃ msg, check_path_exists fs path = Some (false, msg)).
Proof.
  repeat split.
  - intros Hex. unfold check_path_exists. simpl. by rewrite Hex.
  - intros Hex Hwin Hdrive Hmiss. unfold check_path_exists. simpl.
    by rewrite Hex, Hwin, Hdrive, Hmiss.
  - intros Hex Hdrive Hstop. unfold check_path_exists. simpl.
    by rewrite Hex, Hdrive, Hstop.
  - intros Hshort Hex Hdrive Hup. apply andb_true_iff in Hup as [Hne Hmiss].
    apply negb_true_iff in Hmiss. by apply check_path_exists_step.
  - intros Hex msg Hr. apply check_path_exists_rec_flag in Hr. simpl in Hr.
    congruence.
  - intros Hlaws Hex. destruct (check_path_exists_total fs path) as [msg Hr].
    rewrite Hex in Hr. eauto.
Qed.

(** C4, amended.  When the parent of [path] is reachable and the system
    does not refuse to create [path], two calls in a row both succeed;
    the second call changes nothing, and neither does a call on a
    directory that is already there. *)
Theorem ensure_directory_exists_idempotent `{!MakedirsLaws} (fs : FS) path :
  check_path_exists fs (os_path_dirname path) = Some (true, "") →
  (os_path_exists fs path = true ∨ ∃ fs', os_makedirs fs path = inl fs') →
  ∃ fs1, ensure_directory_exists fs path = Some ((true, ""), fs1)
         ∧ ensure_directory_exists fs1 path = Some ((true, ""), fs1)
         ∧ (os_path_exists fs path = true → fs1 = fs).
Proof.
  intros Hparent Hcreate.
  assert (Hpex : os_path_exists fs (os_path_dirname path) = true).
  { apply check_path_exists_rec_flag in Hparent. simpl in Hparent. done. }
  assert (Hagain : ∀ fs1, os_path_exists fs1 (os_path_dirname path) = true →
                          os_path_exists fs1 path = true →
                          ensure_directory_exists fs1 path = Some ((true, ""), fs1)).
  { intros fs1 Hp Hd. unfold ensure_directory_exists, check_path_exists. simpl.
    by rewrite Hp, Hd. }
  destruct (os_path_exists fs path) eqn:Hex.
  - exists fs. split; [|split]; auto.
  - destruct Hcreate as [?|[fs' Hmk]]; [done|].
    exists fs'. split; [|split]; [| |done].
    + unfold ensure_directory_exists. rewrite Hparent. simpl.
      by rewrite Hex, Hmk.
    + apply Hagain; [by eapply makedirs_keeps|by eapply makedirs_creates].
Qed.
End PathHelperClaims.

Section PathHelperExamples.
Import Posix Scene.

Lemma check_path_exists_flag_iff_exists_witness :
  @PathLaws os_path MemFS file_system
  ∧ ∃ msg, check_path_exists home_disk "/home/x/y"
           = Some (os_path_exists home_disk "/home/x/y", msg)
           ∧ (os_path_exists home_disk "/home/x/y" = true → msg = "").
Proof.
  split; [exact posix_path_laws|].
  exact (check_path_exists_flag_iff_exists home_disk "/home/x/y").
Defined.

Lemma check_path_exists_cases_witness :
  @check_path_exists Nt.os_path MemFS Nt.file_system Nt.c_disk "Z:\data\out"
  = Some (false, "Drive 'Z:' does not exist or is not accessible.")
  ∧ @check_path_exists Nt.os_path MemFS Nt.file_system Nt.c_disk "C:\Users\a\b"
    = @check_path_exists Nt.os_path MemFS Nt.file_system Nt.c_disk "C:\Users\a"
  ∧ check_path_exists home_disk "/home/x"
    = Some (false, "Path '/home/x' is not accessible.")
  ∧ check_path_exists home_disk "/home/x/y" = check_path_exists home_disk "/home/x"
  ∧ (∀ msg, check_path_exists home_disk "/home/x/y" ≠ Some (true, msg))
  ∧ ∃ msg, check_path_exists home_disk "/home/x/y" = Some (false, msg).
Proof.
  destruct (@check_path_exists_cases Nt.os_path MemFS Nt.file_system
              Nt.c_disk "Z:\data\out") as (_ & Hdrive & _).
  destruct (@check_path_exists_cases Nt.os_path MemFS Nt.file_system
              Nt.c_disk "C:\Users\a\b") as (_ & _ & _ & Hwin & _).
  destruct (check_path_exists_cases home_disk "/home/x") as (_ & _ & Hstop & _).
  destruct (check_path_exists_cases home_disk "/home/x/y")
    as (_ & _ & _ & Hup & Hnever & Hno).
  split; [exact (Hdrive eq_refl eq_refl eq_refl eq_refl)|].
  split; [exact (Hwin nt_dirname_shortens eq_refl eq_refl eq_refl)|].
  split; [exact (Hstop eq_refl eq_refl eq_refl)|].
  split; [exact (Hup (@dirname_shorter _ _ _ posix_path_laws) eq_refl eq_refl eq_refl)|].
  split; [exact (Hnever eq_refl)|].
  exact (Hno posix_path_laws eq_refl).
Defined.

(** C3 as stated fails: [/home] exists and is the parent of the missing
    [/home/x], yet [/home/x] is not reported reachable. *)
Lemma check_path_exists_ignores_existing_ancestor :
  os_path_exists home_disk "/home/x" = false
  ∧ os_path_dirname "/home/x" = "/home"
  ∧ check_path_exists home_disk "/home" = Some (true, "")
  ∧ check_path_exists home_disk "/home/x"
    = Some (false, "Path '/home/x' is not accessible.")
  ∧ fst <$> check_path_exists home_disk "/home/x"
    ≠ fst <$> check_path_exists home_disk (os_path_dirname "/home/x").
Proof. repeat split; try reflexivity. vm_compute. discriminate. Qed.

Lemma ensure_directory_exists_idempotent_witness :
  @MakedirsLaws MemFS file_system
  ∧ check_path_exists home_disk (os_path_dirname "/home/x") = Some (true, "")
  ∧ (os_path_exists home_disk "/home/x" = true
     ∨ ∃ fs', os_makedirs home_disk "/home/x" = inl fs')
  ∧ ∃ fs1, ensure_directory_exists home_disk "/home/x" = Some ((true, ""), fs1)
           ∧ ensure_directory_exists fs1 "/home/x" = Some ((true, ""), fs1)
           ∧ (os_path_exists home_disk "/home/x" = true → fs1 = home_disk).
Proof.
  assert (Hmk : os_path_exists home_disk "/home/x" = true
                ∨ ∃ fs', os_makedirs home_disk "/home/x" = inl fs').
  { right. eexists. vm_compute. reflexivity. }
  split; [exact posix_makedirs_laws|].
  split; [reflexivity|]. split; [exact Hmk|].
  exact (ensure_directory_exists_idempotent home_disk "/home/x" eq_refl Hmk).
Defined.

(** C4 as stated fails: the parent [/srv] of [/srv/Props] is reachable,
    and the call does not succeed. *)
Lemma ensure_directory_exists_refused :
  check_path_exists guarded_disk (os_path_dirname "/srv/Props") = Some (true, "")
  ∧ ensure_directory_exists guarded_disk "/srv/Props"
    = Some ((false, "Permission denied: Cannot create directory '/srv/Props'"),
            guarded_disk).
Proof. split; reflexivity. Qed.
End PathHelperExamples.

(** ** Scene traversal *)

Section TopLevelCollections.

(** Induction over a layer-collection tree, children included. *)
Lemma LayerCollection_tree_ind (P : LayerCollection → Prop) :
  (∀ h c children, Forall P children → P (LayerColl h c children)) →
  ∀ lc, P lc.
Proof.
  intros Hnode. fix IH 1. intros [h c children]. apply Hnode.
  induction children as [|child children IHchildren]; constructor.
  - apply IH.
  - exact IHchildren.
Qed.

Lemma visit_layer_coll_keeps lc parent st x :
  recorded st x → recorded (visit_layer_coll lc parent st) x.
Proof.
  unfold recorded, visit_layer_coll. intros Hx.
  destruct (negb (lc_hide_viewport lc) && negb (coll_hide_viewport (lc_collection lc)));
    [|done].
  destruct parent as [p|]; simpl; [|done].
  apply lookup_insert_is_Some'. by right.
Qed.

Lemma visit_layer_coll_records lc p st :
  lc_visible lc = true →
  recorded (visit_layer_coll lc (Some p) st) (coll_name (lc_collection lc)).
Proof.
  unfold recorded, visit_layer_coll, lc_visible. intros ->. simpl.
  apply lookup_insert_is_Some'. by left.
Qed.

(** A loop whose steps keep a fact keeps it, and a loop with one step
    that establishes it ends with it. *)
Lemma fold_left_keeps {A B} (f : A → B → A) (Q : A → Prop) l a :
  (∀ s b, b ∈ l → Q s → Q (f s b)) → Q a → Q (fold_left f l a).
Proof.
  revert a. induction l as [|b l IH]; intros a Hstep Ha; simpl; [done|].
  apply IH.
  - intros s b' Hb'. apply Hstep. by apply list_elem_of_further.
  - apply Hstep; [apply list_elem_of_here|done].
Qed.

Lemma fold_left_establishes {A B} (f : A → B → A) (Q : A → Prop) l a b :
  b ∈ l →
  (∀ s b', b' ∈ l → Q s → Q (f s b')) →
  (∀ s, Q (f s b)) →
  Q (fold_left f l a).
Proof.
  revert a. induction l as [|b0 l IH]; intros a Hb Hstep Hest; simpl.
  { by apply elem_of_nil in Hb. }
  apply elem_of_cons in Hb as [->|Hb].
  - apply fold_left_keeps; [|apply Hest].
    intros s b' Hb'. apply Hstep. by apply list_elem_of_further.
  - apply IH; [done| |done].
    intros s b' Hb'. apply Hstep. by apply list_elem_of_further.
Qed.

Lemma recurse_layer_coll_keeps lc : ∀ parent st x,
  recorded st x → recorded (recurse_layer_coll lc parent st) x.
Proof.
  induction lc as [h c children IH] using LayerCollection_tree_ind.
  intros parent st x Hx. simpl.
  apply (fold_left_keeps _ (fun s => recorded s x)).
  - intros s child Hchild Hs. rewrite Forall_forall in IH. by apply IH.
  - by apply visit_layer_coll_keeps.
Qed.

(** Under a parent, every visible link of the subtree is recorded. *)
Lemma recurse_layer_coll_records lc : ∀ p st m,
  lc_in m lc → lc_visible m = true →
  recorded (recurse_layer_coll lc (Some p) st) (coll_name (lc_collection m)).
Proof.
  induction lc as [h c children IH] using LayerCollection_tree_ind.
  intros p st m Hin Hvis. rewrite Forall_forall in IH.
  inversion Hin as [|t child Hchild Hm]; subst; simpl.
  - apply (fold_left_keeps _ (fun s => recorded s _)).
    + intros s child _ Hs. by apply recurse_layer_coll_keeps.
    + by apply (visit_layer_coll_records (LayerColl h c children)).
  - simpl in Hchild.
    apply (fold_left_establishes _ (fun s => recorded s _) _ _ child); [done| |].
    + intros s child' _ Hs. by apply recurse_layer_coll_keeps.
    + intros s. by apply IH.
Qed.

(** Whatever the parent of the walk's entry point, a visible link lying
    strictly below some link of the tree is recorded. *)
Lemma recurse_layer_coll_records_below lc n : lc_in n lc →
  ∀ parent st child m,
  child ∈ lc_children n → lc_in m child → lc_visible m = true →
  recorded (recurse_layer_coll lc parent st) (coll_name (lc_collection m)).
Proof.
  induction 1 as [|t c Hc Hn IH]; intros parent st child m Hchild Hm Hvis.
  - destruct n as [h c children]. simpl in *.
    apply (fold_left_establishes _ (fun s => recorded s _) _ _ child); [done| |].
    + intros s child' _ Hs. by apply recurse_layer_coll_keeps.
    + intros s. by apply recurse_layer_coll_records.
  - destruct t as [h c0 children]. simpl in *.
    apply (fold_left_establishes _ (fun s => recorded s _) _ _ c); [done| |].
    + intros s child' _ Hs. by apply recurse_layer_coll_keeps.
    + intros s. by eapply IH.
Qed.

Lemma walk_records_below roots a b :
  linked_below roots a b → recorded (walk_layer_collections roots) b.
Proof.
  intros (root & n & child & m & Hroot & Hn & _ & Hchild & Hm & <- & Hvis).
  unfold walk_layer_collections.
  apply (fold_left_establishes _ (fun s => recorded s _) _ _ root); [done| |].
  - intros s lc _ Hs. by apply recurse_layer_coll_keeps.
  - intros s. by eapply recurse_layer_coll_records_below.
Qed.

Lemma gather_top_level_collections_unrecorded roots c :
  c ∈ gather_top_level_collections roots →
  child_to_parent (walk_layer_collections roots) !! coll_name c = None.
Proof.
  unfold gather_top_level_collections. intros Hc.
  by apply list_elem_of_filter in Hc as [Hnone _].
Qed.

(** The set [all_visible] holds every collection under its own name. *)
Lemma set_add_named c (s : gmap string Collection) :
  (∀ k c', s !! k = Some c' → coll_name c' = k) →
  ∀ k c', set_add c s !! k = Some c' → coll_name c' = k.
Proof.
  intros Hs k c'. unfold set_add.
  destruct (s !! coll_name c) eqn:Hc; [apply Hs|].
  rewrite lookup_insert. case_decide as Hk; [|apply Hs].
  intros [= <-]. done.
Qed.

Lemma recurse_layer_coll_named lc : ∀ parent st,
  (∀ k c, all_visible st !! k = Some c → coll_name c = k) →
  ∀ k c, all_visible (recurse_layer_coll lc parent st) !! k = Some c →
         coll_name c = k.
Proof.
  induction lc as [h c0 children IH] using LayerCollection_tree_ind.
  intros parent st Hst. simpl. rewrite Forall_forall in IH.
  apply (fold_left_keeps _ (fun s => ∀ k c, all_visible s !! k = Some c → coll_name c = k)).
  - intros s child Hchild Hs. by apply IH.
  - unfold visit_layer_coll.
    destruct (negb _ && negb _); [|done]. simpl. by apply set_add_named.
Qed.

Lemma gather_top_level_collections_NoDup roots :
  NoDup (coll_name <$> gather_top_level_collections roots).
Proof.
  unfold gather_top_level_collections.
  set (st := walk_layer_collections roots).
  assert (Hnamed : ∀ k c, all_visible st !! k = Some c → coll_name c = k).
  { unfold st, walk_layer_collections.
    apply (fold_left_keeps _ (fun s => ∀ k c, all_visible s !! k = Some c → coll_name c = k)).
    - intros s lc _ Hs. by apply recurse_layer_coll_named.
    - intros k c. simpl. by rewrite lookup_empty. }
  eapply sublist_NoDup; [|apply fmap_sublist, sublist_filter].
  assert (Hkeys : coll_name <$> (map_to_list (all_visible st)).*2
                  = (map_to_list (all_visible st)).*1).
  { rewrite <- list_fmap_compose. apply list_fmap_ext.
    intros i [k c] Hi. simpl. apply Hnamed.
    apply elem_of_map_to_list. eapply list_elem_of_lookup_2, Hi. }
  rewrite Hkeys. apply NoDup_fst_map_to_list.
Qed.

(** C1.  The list [gather_top_level_collections] returns has no
    repetition; no collection in it has a recorded parent; and none of
    them is visibly linked below a link to another of them (or to any
    collection at all). *)
Theorem gather_top_level_collections_roots roots a b :
  a ∈ gather_top_level_collections roots →
  b ∈ gather_top_level_collections roots →
  NoDup (coll_name <$> gather_top_level_collections roots)
  ∧ child_to_parent (walk_layer_collections roots) !! coll_name b = None
  ∧ ¬ linked_below roots (coll_name a) (coll_name b).
Proof.
  intros _ Hb. apply gather_top_level_collections_unrecorded in Hb.
  split; [apply gather_top_level_collections_NoDup|].
  split; [done|]. intros Hbelow. apply walk_records_below in Hbelow.
  unfold recorded in Hbelow. rewrite Hb in Hbelow. by destruct Hbelow.
Qed.
End TopLevelCollections.

(** ** The export operator *)

Section OperatorFacts.
Context `{OsPath} {FS : Type} `{!FileSystem FS} `{!Host FS}.

Lemma Collection_tree_ind (P : Collection → Prop) :
  (∀ n h objs children, Forall P children → P (Coll n h objs children)) →
  ∀ c, P c.
Proof.
  intros Hnode. fix IH 1. intros [n h objs children]. apply Hnode.
  induction children as [|child children IHchildren]; constructor.
  - apply IH.
  - exact IHchildren.
Qed.

Lemma records_of_app (xs ys : list FbxCall) :
  records_of (xs ++ ys) = records_of xs ++ records_of ys.
Proof. unfold records_of. by rewrite flat_map_app. Qed.

Lemma extends_log_frame (w w' : World FS) :
  fbx_calls w' = fbx_calls w →
  exported_files w' = exported_files w →
  summary_dialogs w' = summary_dialogs w →
  extends_log w w'.
Proof.
  intros Hc He Hd. exists []. simpl. by rewrite !app_nil_r.
Qed.

Lemma extends_log_refl (w : World FS) : extends_log w w.
Proof. by apply extends_log_frame. Qed.

Lemma extends_log_trans (w1 w2 w3 : World FS) :
  extends_log w1 w2 → extends_log w2 w3 → extends_log w1 w3.
Proof.
  intros (c1 & Hc1 & He1 & Hd1) (c2 & Hc2 & He2 & Hd2). exists (c1 ++ c2).
  rewrite Hc2, He2, Hd2, Hc1, He1, Hd1, records_of_app, !app_assoc. done.
Qed.

(** *** How [logs] composes *)

Lemma logs_ret {A} (a : A) : logs (FS:=FS) (ret a).
Proof. intros w. exists a, w. split; [done|apply extends_log_refl]. Qed.

Lemma logs_bind {A B} (m : M FS A) (k : A → M FS B) :
  logs m → (∀ a, logs (k a)) → logs (bind m k).
Proof.
  intros Hm Hk w. destruct (Hm w) as (a & w1 & Hma & H1).
  destruct (Hk a w1) as (b & w2 & Hkb & H2).
  exists b, w2. unfold bind. rewrite Hma. split; [done|].
  by eapply extends_log_trans.
Qed.

Lemma logs_for_sum {A} (f : A → M FS nat) l :
  Forall (fun x => logs (f x)) l → logs (for_sum f l).
Proof.
  induction 1 as [|x l Hx _ IH]; simpl; [apply logs_ret|].
  apply logs_bind; [done|]. intros n.
  apply logs_bind; [done|]. intros m. apply logs_ret.
Qed.

Lemma logs_for_each {A} (f : A → M FS unit) l :
  (∀ x, logs (f x)) → logs (for_each f l).
Proof.
  intros Hf. induction l as [|x l IH]; simpl; [apply logs_ret|].
  by apply logs_bind.
Qed.

(** A step that leaves the three logged fields alone. *)
Lemma logs_frame {A} (m : M FS A) :
  (∀ w, ∃ a w', m w = Some (a, w')
                ∧ fbx_calls w' = fbx_calls w
                ∧ exported_files w' = exported_files w
                ∧ summary_dialogs w' = summary_dialogs w) →
  logs m.
Proof.
  intros Hm w. destruct (Hm w) as (a & w' & Hr & Hc & He & Hd).
  exists a, w'. split; [done|]. by apply extends_log_frame.
Qed.

Lemma logs_report sev msg : logs (FS:=FS) (report sev msg).
Proof. apply logs_frame. intros w. by eexists _, _. Qed.

Lemma logs_ensure_object_mode : logs (FS:=FS) ensure_object_mode.
Proof. apply logs_frame. intros w. by eexists _, _. Qed.

Lemma logs_select_all_deselect : logs (FS:=FS) select_all_deselect.
Proof. apply logs_frame. intros w. by eexists _, _. Qed.

Lemma logs_select_set context o : logs (FS:=FS) (select_set context o).
Proof. apply logs_frame. intros w. by eexists _, _. Qed.

Lemma logs_set_active o : logs (FS:=FS) (set_active o).
Proof. apply logs_frame. intros w. by eexists _, _. Qed.

Lemma logs_call_exporter context filepath : logs (FS:=FS) (call_exporter context filepath).
Proof.
  intros w. unfold call_exporter.
  destruct (export_scene_fbx _ _ _) as [fs' [e|]];
    eexists _, _; (split; [reflexivity|]); eexists [_];
    (split; [reflexivity|]); simpl; rewrite ?app_nil_r; split; reflexivity.
Qed.

Context `{!PathLaws}.

Lemma ensure_directory_exists_total (fs : FS) path :
  ∃ r fs', ensure_directory_exists fs path = Some (r, fs').
Proof.
  unfold ensure_directory_exists.
  destruct (check_path_exists_total fs (os_path_dirname path)) as [msg ->].
  destruct (os_path_exists fs (os_path_dirname path)); simpl; [|eauto].
  destruct (os_path_exists fs path); simpl; [eauto|].
  destruct (os_makedirs fs path) as [fs'|[| |e]]; eauto.
Qed.

Lemma logs_check_path path : logs (FS:=FS) (check_path path).
Proof.
  apply logs_frame. intros w. unfold check_path.
  destruct (check_path_exists_total (w_fs w) path) as [msg ->]. by eexists _, _.
Qed.

Lemma logs_ensure_directory path : logs (FS:=FS) (ensure_directory path).
Proof.
  apply logs_frame. intros w. unfold ensure_directory.
  destruct (ensure_directory_exists_total (w_fs w) path) as (r & fs' & ->).
  by eexists _, _.
Qed.

Lemma logs_export_fbx context filepath objects :
  logs (FS:=FS) (export_fbx context filepath objects).
Proof.
  unfold export_fbx. destruct objects as [|o objects]; [apply logs_ret|].
  apply logs_bind; [apply logs_ensure_directory|]. intros r.
  destruct (negb r.1).
  { apply logs_bind; [apply logs_report|]. intros _. apply logs_ret. }
  apply logs_bind; [apply logs_ensure_object_mode|]. intros _.
  apply logs_bind; [apply logs_select_all_deselect|]. intros _.
  apply logs_bind; [apply logs_for_each, logs_select_set|]. intros _.
  apply logs_bind; [|intros _; apply logs_call_exporter].
  destruct (filter _ _); [apply logs_ret|apply logs_set_active].
Qed.

(** Goals of the form [logs m] follow the shape of [m]. *)
Ltac logs_shape :=
  repeat first
    [ apply logs_ret
    | apply logs_report
    | apply logs_export_fbx
    | apply logs_ensure_directory
    | apply logs_check_path
    | apply logs_bind; [|intros ?]
    | match goal with
      | |- logs (if ?b then _ else _) => destruct b
      | |- logs (match ?x with _ => _ end) => destruct x
      end ].

Lemma logs_export_collection_recursive context collection :
  ∀ parent_dir allowed_types create_subfolder,
  logs (FS:=FS) (export_collection_recursive context collection parent_dir
                                             allowed_types create_subfolder).
Proof.
  induction collection as [name h objs children IH] using Collection_tree_ind.
  intros parent_dir allowed_types create_subfolder.
  cbn [export_collection_recursive].
  logs_shape; apply logs_for_sum; (eapply Forall_impl; [exact IH|]);
    intros child Hchild; apply Hchild.
Qed.

Lemma logs_export_selected_as_collections context coll_map parent_coll :
  ∀ parent_dir visited,
  logs (FS:=FS) (export_selected_as_collections context coll_map parent_coll
                                                parent_dir visited).
Proof.
  induction parent_coll as [name h objs children IH] using Collection_tree_ind.
  intros parent_dir visited. cbn [export_selected_as_collections].
  destruct (bool_decide (name ∈ visited)); [apply logs_ret|].
  apply logs_bind; [apply logs_ensure_directory|]. intros r.
  destruct (negb r.1); [logs_shape|].
  apply logs_bind; [logs_shape|]. intros n.
  generalize ({[name]} ∪ visited). revert n.
  induction IH as [|child children Hchild _ IHloop]; intros n v; [apply logs_ret|].
  destruct (coll_map_get coll_map child).
  - apply logs_bind; [apply Hchild|]. intros r'. apply IHloop.
  - apply IHloop.
Qed.

Lemma logs_export_selected_each_object context selected_objs directory :
  logs (FS:=FS) (export_selected_each_object context selected_objs directory).
Proof.
  unfold export_selected_each_object. apply logs_for_sum, Forall_forall.
  intros obj _. logs_shape.
Qed.

Lemma logs_export_top_level_groups context coll_map top_level directory :
  ∀ visited,
  logs (FS:=FS) (export_top_level_groups context coll_map top_level
                                         directory visited).
Proof.
  induction top_level as [|top_coll rest IH]; intros visited; simpl;
    [apply logs_ret|].
  apply logs_bind; [apply logs_export_selected_as_collections|]. intros r.
  apply logs_bind; [apply IH|]. intros m. apply logs_ret.
Qed.

(** *** Restoring the selection *)

Lemma filter_agree {A} (P Q : A → bool) (l : list A) :
  (∀ x, x ∈ l → P x = Q x) → filter P l = filter Q l.
Proof.
  induction l as [|x l IH]; intros Hagree; [done|].
  rewrite !filter_cons, (Hagree x) by apply list_elem_of_here.
  rewrite IH; [done|]. intros y Hy. apply Hagree. by apply list_elem_of_further.
Qed.

Lemma for_each_select_set context l (w : World FS) :
  ∃ w', for_each (select_set context) l w = Some (tt, w')
        ∧ (∀ o, o ∈ w_selected w' ↔
                o ∈ w_selected w ∨ (o ∈ l ∧ selectable context o = true))
        ∧ w_fs w' = w_fs w ∧ w_mode w' = w_mode w ∧ w_active w' = w_active w
        ∧ exported_files w' = exported_files w ∧ reports w' = reports w
        ∧ fbx_calls w' = fbx_calls w ∧ summary_dialogs w' = summary_dialogs w.
Proof.
  revert w. induction l as [|x l IH]; intros w; simpl.
  { exists w. split; [done|]. split; [|done]. intros o. rewrite elem_of_nil. tauto. }
  unfold bind. simpl.
  destruct (IH {| w_fs := w_fs w; w_mode := w_mode w;
                  w_selected := if negb (selectable context x)
                                   || bool_decide (x ∈ w_selected w)
                                then w_selected w else w_selected w ++ [x];
                  w_active := w_active w; exported_files := exported_files w;
                  reports := reports w; fbx_calls := fbx_calls w;
                  summary_dialogs := summary_dialogs w |})
    as (w' & Hrun & Hsel & Hrest).
  exists w'. split; [exact Hrun|]. split; [|exact Hrest].
  intros o. rewrite Hsel, elem_of_cons. simpl.
  destruct (selectable context x) eqn:Hx; simpl.
  - destruct (bool_decide_reflect (x ∈ w_selected w)) as [Hin|Hout].
    + split; [tauto|]. intros [?|[[Heq|?] ?]]; [tauto| |tauto]. subst. tauto.
    + rewrite elem_of_app, list_elem_of_singleton. split.
      * intros [[?|Heq]|?]; [tauto| |tauto]. subst. tauto.
      * intros [?|[[Heq|?] ?]]; [tauto| |tauto]. subst. tauto.
  - split; [tauto|]. intros [?|[[Heq|?] ?]]; [tauto| |tauto]. subst. congruence.
Qed.

(** After the restoring lines the selection is [orig_sel], the active
    object is [orig_active] when there was one, and the dialog has been
    opened exactly when [exported_files] is not empty. *)
Lemma restore_and_present_spec context orig_sel orig_active (w : World FS) :
  ∃ w', restore_and_present context orig_sel orig_active w = Some (FINISHED, w')
        ∧ (∀ o, o ∈ w_selected w' ↔ o ∈ orig_sel ∧ selectable context o = true)
        ∧ w_active w' = match orig_active with
                        | Some o => Some o
                        | None => w_active w
                        end
        ∧ exported_files w' = exported_files w
        ∧ fbx_calls w' = fbx_calls w
        ∧ summary_dialogs w' =
            summary_dialogs w + match exported_files w with [] => 0 | _ => 1 end.
Proof.
  unfold restore_and_present, bind at 1. simpl.
  unfold bind at 1.
  destruct (for_each_select_set context orig_sel
              {| w_fs := w_fs w; w_mode := w_mode w; w_selected := [];
                 w_active := w_active w; exported_files := exported_files w;
                 reports := reports w; fbx_calls := fbx_calls w;
                 summary_dialogs := summary_dialogs w |})
    as (w1 & -> & Hsel & _ & _ & Hact & Hfiles & _ & Hcalls & Hdlg).
  simpl in *.
  assert (Hsel' : ∀ o, o ∈ w_selected w1 ↔ o ∈ orig_sel ∧ selectable context o = true).
  { intros o. rewrite Hsel, elem_of_nil. tauto. }
  destruct orig_active as [a|]; unfold bind, set_active, ret, get_world; simpl;
    rewrite Hfiles; destruct (exported_files w) eqn:Hw; simpl;
    eexists; (split; [reflexivity|]); simpl; rewrite ?Hfiles, ?Hcalls, ?Hdlg, ?Hact;
    (split; [exact Hsel'|]); repeat split; auto; lia.
Qed.

(** *** A whole run *)

Lemma logs_bind_run {A B} (m : M FS A) (k : A → M FS B) w :
  logs m →
  ∃ a w1, extends_log w w1 ∧ bind m k w = k a w1.
Proof.
  intros Hm. destruct (Hm w) as (a & w1 & Hrun & Hext).
  exists a, w1. split; [done|]. unfold bind. by rewrite Hrun.
Qed.

(** A run that stops before any export. *)
Lemma cancelled_run_effect context (w w' : World FS) :
  exported_files w' = [] → fbx_calls w' = fbx_calls w →
  summary_dialogs w' = summary_dialogs w →
  w_selected w' = w_selected w → w_active w' = w_active w →
  run_effect context w w'.
Proof.
  intros Hfiles Hcalls Hdlg Hsel Hact. split; [|split].
  - exists []. rewrite Hfiles, Hcalls, Hdlg, app_nil_r. simpl. split; [done|].
    split; [done|lia].
  - unfold selected_objects. by rewrite Hsel.
  - intros o. by rewrite Hact.
Qed.

(** The selection is what it was once the objects that were selected
    have been selected again. *)
Lemma selection_restored context (w w' : World FS) :
  (∀ o, o ∈ w_selected w' ↔
        o ∈ selected_objects context w ∧ selectable context o = true) →
  selected_objects context w' = selected_objects context w.
Proof.
  intros Hsel. unfold selected_objects. apply filter_agree. intros o Ho.
  destruct (selectable context o) eqn:Hable; [|by rewrite !andb_false_r].
  rewrite !andb_true_r. apply bool_decide_ext. rewrite Hsel.
  unfold selected_objects. rewrite list_elem_of_filter, Hable, andb_true_r.
  split; [intros [[Hin _] _]; by apply bool_decide_unpack in Hin|].
  intros Hin. split; [|done]. split; [by apply bool_decide_pack|done].
Qed.

(** A run that reaches the restoring lines. *)
Lemma finished_run_effect context (w w1 wm : World FS) :
  exported_files w1 = [] → fbx_calls w1 = fbx_calls w →
  summary_dialogs w1 = summary_dialogs w →
  w_selected w1 = w_selected w → w_active w1 = w_active w →
  extends_log w1 wm →
  ∃ w', restore_and_present context (selected_objects context w1) (w_active w1) wm
        = Some (FINISHED, w')
        ∧ run_effect context w w'.
Proof.
  intros Hfiles Hcalls Hdlg Hsel Hact (calls & Hc & Hf & Hd).
  destruct (restore_and_present_spec context (selected_objects context w1)
              (w_active w1) wm)
    as (w' & Hrun & Hsel' & Hact' & Hfiles' & Hcalls' & Hdlg').
  exists w'. split; [exact Hrun|]. split; [|split].
  - exists calls. rewrite Hcalls', Hc, Hcalls. split; [done|].
    rewrite Hdlg', Hfiles', Hf, Hfiles, Hd, Hdlg. done.
  - apply selection_restored. intros o. rewrite Hsel'.
    unfold selected_objects. by rewrite Hsel.
  - intros o Ho. rewrite Hact', Hact, Ho. done.
Qed.

Lemma bind_some {A B} (m : M FS A) (k : A → M FS B) w a w1 :
  m w = Some (a, w1) → bind m k w = k a w1.
Proof. intros Hm. unfold bind. by rewrite Hm. Qed.

(** Every run returns, and leaves [run_effect] behind. *)
Lemma execute_run context directory (w : World FS) :
  ∃ status w', execute context directory w = Some (status, w')
               ∧ run_effect context w w'.
Proof.
  unfold execute. set (dir := bpy_path_abspath directory).
  set (w0 := {| w_fs := w_fs w; w_mode := w_mode w; w_selected := w_selected w;
                w_active := w_active w; exported_files := [];
                reports := reports w; fbx_calls := fbx_calls w;
                summary_dialogs := summary_dialogs w |}).
  rewrite (bind_some _ _ w tt w0) by reflexivity.
  destruct (check_path_exists_total (w_fs w0) (os_path_dirname dir)) as [msg Hck].
  erewrite bind_some; [|unfold check_path; rewrite Hck; reflexivity].
  cbn [negb fst snd].
  destruct (os_path_exists (w_fs w0) (os_path_dirname dir)); cbn [negb].
  2:{ eexists _, _. split; [reflexivity|]. by apply cancelled_run_effect. }
  destruct (ensure_directory_exists_total (w_fs w0) dir) as ([ok msg2] & fs' & Hens).
  erewrite bind_some; [|unfold ensure_directory; rewrite Hens; reflexivity].
  cbn [negb fst snd]. destruct ok; cbn [negb].
  2:{ eexists _, _. split; [reflexivity|]. by apply cancelled_run_effect. }
  set (w1 := with_fs fs' w0).
  rewrite (bind_some _ _ w1 w1 w1) by reflexivity.
  destruct (export_mode (props context)).
  - match goal with
    | |- ∃ _ _, bind ?m ?k w1 = _ ∧ _ =>
      destruct (logs_bind_run m k w1) as (n & wa & Hext1 & ->)
    end.
    { apply logs_for_sum, Forall_forall. intros c _.
      apply logs_export_collection_recursive. }
    match goal with
    | |- ∃ _ _, bind ?m ?k wa = _ ∧ _ =>
      destruct (logs_bind_run m k wa) as ([] & wb & Hext2 & ->)
    end; [apply logs_report|].
    edestruct (finished_run_effect context w w1 wb) as (w' & Hrun & Heff);
      try reflexivity; [by eapply extends_log_trans|].
    by exists FINISHED, w'.
  - destruct (filter _ (selected_objects context w1)) as [|o sel_objects].
    { eexists _, _. split; [reflexivity|]. by apply cancelled_run_effect. }
    match goal with
    | |- ∃ _ _, bind ?m ?k w1 = _ ∧ _ =>
      destruct (logs_bind_run m k w1) as ([] & wa & Hext1 & ->)
    end.
    { destruct (as_single_mesh (props context) && make_separate_folders (props context)).
      - apply logs_bind; [apply logs_export_top_level_groups|].
        intros n. apply logs_report.
      - destruct (as_single_mesh (props context)).
        + logs_shape.
        + apply logs_bind; [apply logs_export_selected_each_object|].
          intros n. apply logs_report. }
    edestruct (finished_run_effect context w w1 wa) as (w' & Hrun & Heff);
      try reflexivity; [done|].
    by exists FINISHED, w'.
Qed.
End OperatorFacts.

(** ** Claims about the export operator *)

Section OperatorClaims.
Context `{OsPath} {FS : Type} `{!FileSystem FS} `{!Host FS}.

(** A failed [ensure_directory_exists] has created nothing. *)
Lemma ensure_directory_exists_failure (fs fs' : FS) path msg :
  ensure_directory_exists fs path = Some ((false, msg), fs') → fs' = fs.
Proof.
  unfold ensure_directory_exists.
  destruct (check_path_exists fs (os_path_dirname path)) as [[[] m]|]; simpl;
    [|congruence|done].
  destruct (os_path_exists fs path); simpl; [congruence|].
  destruct (os_makedirs fs path) as [fs1|[| |e]]; congruence.
Qed.

Lemma ensure_directory_failure (w : World FS) path msg fs' :
  ensure_directory_exists (w_fs w) path = Some ((false, msg), fs') →
  ensure_directory path w = Some ((false, msg), w).
Proof.
  intros Hens. unfold ensure_directory. rewrite Hens.
  apply ensure_directory_exists_failure in Hens as ->. by destruct w.
Qed.

(** What one [export_fbx] call adds to the log. *)
Lemma export_fbx_effect context filepath objects (w w' : World FS) ok :
  export_fbx context filepath objects w = Some (ok, w') →
  ∃ calls, fbx_calls w' = fbx_calls w ++ calls
           ∧ exported_files w' = exported_files w ++ records_of calls
           ∧ records_of calls = (if ok then [record_of filepath] else [])
           ∧ ∀ c, c ∈ calls → call_params c = fbx_params (props context) filepath.
Proof.
  unfold export_fbx. destruct objects as [|o objects].
  { intros [= <- <-]. exists []. rewrite !app_nil_r. repeat split; auto.
    intros c Hc. by apply elem_of_nil in Hc. }
  unfold bind at 1, ensure_directory at 1.
  destruct (ensure_directory_exists _ _) as [[[b msg] fs1]|]; [|done].
  cbn [negb fst snd]. destruct b; cbn [negb].
  2:{ intros [= <- <-]. exists []. simpl. rewrite !app_nil_r. repeat split; auto.
      intros c Hc. by apply elem_of_nil in Hc. }
  erewrite bind_some by reflexivity. erewrite bind_some by reflexivity.
  match goal with
  | |- bind (for_each (select_set ?ctx) ?l) _ ?w0 = _ → _ =>
    destruct (for_each_select_set ctx l w0)
      as (w2 & Hsel & _ & _ & _ & _ & Hfiles & _ & Hcalls & _)
  end.
  erewrite bind_some by exact Hsel. simpl in Hfiles, Hcalls.
  assert (Hact : ∃ w3, (match filter (fun o0 => bool_decide (o0 ∈ view_layer_objects context))
                                     (o :: objects) with
                        | o1 :: _ => set_active o1
                        | [] => ret tt
                        end) w2 = Some (tt, w3)
                       ∧ exported_files w3 = exported_files w2
                       ∧ fbx_calls w3 = fbx_calls w2).
  { destruct (filter _ _); eexists; (split; [reflexivity|]); done. }
  destruct Hact as (w3 & Hact & Hfiles3 & Hcalls3).
  erewrite bind_some by exact Hact.
  unfold call_exporter.
  destruct (export_scene_fbx _ _ _) as [fs4 [e|]]; intros [= <- <-]; simpl;
    rewrite Hfiles3, Hfiles, Hcalls3, Hcalls; eexists [_];
    (split; [reflexivity|]); simpl; rewrite ?app_nil_r;
    (repeat split; [reflexivity..|]);
    intros c ->%list_elem_of_singleton; reflexivity.
Qed.

(** C5.  With an empty object list [export_fbx] returns false and leaves
    the whole run state as it was: no directory is created and no
    [exported_files] item is added. *)
Theorem export_fbx_no_objects context filepath (w : World FS) :
  ∃ w', export_fbx context filepath [] w = Some (false, w')
        ∧ w' = w
        ∧ w_fs w' = w_fs w
        ∧ exported_files w' = exported_files w
        ∧ fbx_calls w' = fbx_calls w.
Proof.
  exists w. unfold export_fbx, ret. repeat split.
Qed.

Lemma armature_in_ex_object_types props :
  bool_decide ("ARMATURE" ∈ ex_object_types props)
  = export_armature props || export_animations props.
Proof.
  destruct props as [? ? ? ? ? ? ? ? ? ? ? ? em ca la ar me ot ? an ?].
  unfold ex_object_types. simpl.
  destruct em, ca, la, ar, me, ot, an; vm_compute; reflexivity.
Qed.

(** C6, amended.  Every exporter call [export_fbx] makes passes
    [bake_anim], [bake_anim_use_all_bones] and
    [bake_anim_use_all_actions] equal to the one flag
    [export_animations]; [use_armature_deform_only] is always true,
    whatever the flag; and [ARMATURE] is among [object_types] exactly
    when [export_armature] or [export_animations] is set. *)
Theorem export_fbx_animation_flags context filepath objects (w w' : World FS) ok :
  export_fbx context filepath objects w = Some (ok, w') →
  ∃ calls, fbx_calls w' = fbx_calls w ++ calls
    ∧ ∀ c, c ∈ calls →
        Fbx.bake_anim (call_params c) = export_animations (props context)
        ∧ Fbx.bake_anim_use_all_bones (call_params c)
          = export_animations (props context)
        ∧ Fbx.bake_anim_use_all_actions (call_params c)
          = export_animations (props context)
        ∧ Fbx.use_armature_deform_only (call_params c) = true
        ∧ bool_decide ("ARMATURE" ∈ Fbx.object_types (call_params c))
          = export_armature (props context) || export_animations (props context).
Proof.
  intros Hrun. apply export_fbx_effect in Hrun as (calls & Hcalls & _ & _ & Hparams).
  exists calls. split; [done|]. intros c Hc. rewrite (Hparams c Hc). simpl.
  repeat split. apply armature_in_ex_object_types.
Qed.

Lemma for_sum_app {A} (f : A → M FS nat) l1 l2 w :
  for_sum f (l1 ++ l2) w =
  match for_sum f l1 w with
  | Some (n, w1) => bind (for_sum f l2) (fun m => ret (n + m)) w1
  | None => None
  end.
Proof.
  revert w. induction l1 as [|x l1 IH]; intros w; simpl.
  { unfold bind, ret. by destruct (for_sum f l2 w) as [[m w2]|]. }
  unfold bind at 1 3. destruct (f x w) as [[n w1]|]; [|reflexivity].
  unfold bind. rewrite IH. unfold bind, ret.
  destruct (for_sum f l1 w1) as [[n1 w2]|]; [|reflexivity].
  destruct (for_sum f l2 w2) as [[m w3]|]; [|reflexivity]. by rewrite Nat.add_assoc.
Qed.

(** C7.  A directory that cannot be prepared costs only the job it was
    for.  [export_fbx] then reports the reason and returns false without
    calling the exporter; [export_collection_recursive] reports it and
    returns 0.  In both cases nothing else changes, and the enclosing
    loops go on: after a collection whose folder failed the remaining
    collections are exported from the state with the one report added,
    and after a failed [export_fbx] the child collections are. *)
Theorem directory_failure_is_local context :
  (∀ filepath o objects (w : World FS) msg fs',
     ensure_directory_exists (w_fs w) (os_path_dirname filepath)
     = Some ((false, msg), fs') →
     export_fbx context filepath (o :: objects) w
     = Some (false, add_report ERROR msg w))
  ∧ (∀ c parent_dir allowed_types (w : World FS) msg fs',
     ensure_directory_exists (w_fs w) (os_path_join parent_dir (coll_name c))
     = Some ((false, msg), fs') →
     export_collection_recursive context c parent_dir allowed_types true w
     = Some (0, add_report ERROR msg w))
  ∧ (∀ parent_dir allowed_types pre c post (w w1 : World FS) n msg fs',
     for_sum (fun coll => export_collection_recursive context coll parent_dir
                                                      allowed_types true) pre w
     = Some (n, w1) →
     ensure_directory_exists (w_fs w1) (os_path_join parent_dir (coll_name c))
     = Some ((false, msg), fs') →
     for_sum (fun coll => export_collection_recursive context coll parent_dir
                                                      allowed_types true)
             (pre ++ c :: post) w
     = bind (for_sum (fun coll => export_collection_recursive context coll
                                    parent_dir allowed_types true) post)
            (fun m => ret (n + m)) (add_report ERROR msg w1))
  ∧ (∀ name h objs children parent_dir allowed_types o direct_objs
       (w : World FS) msg fs',
     combine_nested_collections (props context) = false →
     filter (visible_allowed allowed_types) objs = o :: direct_objs →
     ensure_directory_exists
       (w_fs w) (os_path_dirname (os_path_join parent_dir (name +:+ ".fbx")))
     = Some ((false, msg), fs') →
     export_collection_recursive context (Coll name h objs children) parent_dir
                                 allowed_types false w
     = for_sum (fun child => export_collection_recursive context child parent_dir
                               allowed_types
                               (separate_child_collections (props context)))
               children (add_report ERROR msg w)).
Proof.
  assert (Hfbx : ∀ filepath o objects (w : World FS) msg fs',
     ensure_directory_exists (w_fs w) (os_path_dirname filepath)
     = Some ((false, msg), fs') →
     export_fbx context filepath (o :: objects) w
     = Some (false, add_report ERROR msg w)).
  { intros filepath o objects w msg fs' Hens. unfold export_fbx.
    by erewrite bind_some by (eapply ensure_directory_failure, Hens). }
  assert (Hcoll : ∀ c parent_dir allowed_types (w : World FS) msg fs',
     ensure_directory_exists (w_fs w) (os_path_join parent_dir (coll_name c))
     = Some ((false, msg), fs') →
     export_collection_recursive context c parent_dir allowed_types true w
     = Some (0, add_report ERROR msg w)).
  { intros [name h objs children] parent_dir allowed_types w msg fs' Hens.
    cbn [export_collection_recursive]. simpl in Hens.
    by erewrite bind_some by (eapply ensure_directory_failure, Hens). }
  split; [exact Hfbx|]. split; [exact Hcoll|]. split.
  - intros parent_dir allowed_types pre c post w w1 n msg fs' Hpre Hens.
    rewrite for_sum_app, Hpre. cbn [for_sum]. unfold bind at 1 2.
    rewrite (Hcoll _ _ _ _ _ _ Hens). unfold bind, ret.
    by destruct (for_sum _ post _) as [[m w2]|].
  - intros name h objs children parent_dir allowed_types o direct_objs w msg fs'
           Hcombine Hdirect Hens.
    cbn [export_collection_recursive]. rewrite Hcombine, Hdirect. cbn [andb].
    unfold bind at 1 2. rewrite (Hfbx _ _ _ _ _ _ Hens). unfold ret at 1.
    cbn [count_of]. unfold bind, ret.
    destruct (separate_child_collections (props context));
      by destruct (for_sum _ children _) as [[m w2]|].
Qed.

Context `{!PathLaws}.

End OperatorClaims.

(** ** The claims on the Props/Nested scene *)

Section SceneExamples.
Import Posix Scene.

Lemma gather_top_level_collections_roots_witness :
  Props ∈ gather_top_level_collections layers
  ∧ NoDup (coll_name <$> gather_top_level_collections layers)
  ∧ child_to_parent (walk_layer_collections layers) !! coll_name Props = None
  ∧ ¬ linked_below layers (coll_name Props) (coll_name Props).
Proof.
  assert (Hin : Props ∈ gather_top_level_collections layers).
  { vm_compute. apply list_elem_of_here. }
  split; [exact Hin|].
  exact (gather_top_level_collections_roots layers Props Props Hin Hin).
Defined.

(** C2.  Collection mode on the scene with [Props] holding [Cube] and its
    child [Nested] holding [Sphere], folders for child collections on and
    combining off, target root [/out]: the run finishes with exactly two
    exporter calls, [/out/Props/Props.fbx] with [Cube] selected and
    [/out/Props/Nested/Nested.fbx] with [Sphere] selected, both
    successful and both recorded. *)
Theorem props_nested_separate_folders :
  ∃ w', execute (context true false) "/out" (start out_disk) = Some (FINISHED, w')
        ∧ jobs w' = [("/out/Props/Props.fbx", [Cube]);
                     ("/out/Props/Nested/Nested.fbx", [Sphere])]
        ∧ map call_error (fbx_calls w') = [None; None]
        ∧ map file_path (exported_files w')
          = ["/out/Props/Props.fbx"; "/out/Props/Nested/Nested.fbx"].
Proof.
  eexists. split; [vm_compute; reflexivity|]. vm_compute. repeat split.
Qed.

Lemma export_fbx_animation_flags_witness :
  ∃ w', export_fbx (context true false) "/out/Props.fbx" [Cube] (start out_disk)
        = Some (true, w')
    ∧ ∃ calls, fbx_calls w' = fbx_calls (start out_disk) ++ calls
      ∧ ∀ c, c ∈ calls →
          Fbx.bake_anim (call_params c)
          = export_animations (props (context true false))
          ∧ Fbx.bake_anim_use_all_bones (call_params c)
            = export_animations (props (context true false))
          ∧ Fbx.bake_anim_use_all_actions (call_params c)
            = export_animations (props (context true false))
          ∧ Fbx.use_armature_deform_only (call_params c) = true
          ∧ bool_decide ("ARMATURE" ∈ Fbx.object_types (call_params c))
            = export_armature (props (context true false))
              || export_animations (props (context true false)).
Proof.
  eexists. split; [vm_compute; reflexivity|].
  eapply (export_fbx_animation_flags (context true false) "/out/Props.fbx"
                                     [Cube] (start out_disk) _ true).
  vm_compute. reflexivity.
Defined.

(** C6 as stated fails: with [export_animations] off the exporter is
    still called with [use_armature_deform_only] on. *)
Lemma deform_only_ignores_animation_flag :
  export_animations (props (context true false)) = false
  ∧ ∃ w', export_fbx (context true false) "/out/Props.fbx" [Cube] (start out_disk)
          = Some (true, w')
          ∧ map (fun c => Fbx.use_armature_deform_only (call_params c))
                (fbx_calls w') = [true].
Proof.
  split; [reflexivity|]. eexists. split; [vm_compute; reflexivity|].
  vm_compute. reflexivity.
Qed.

Lemma directory_failure_is_local_witness :
  ensure_directory_exists guarded_disk (os_path_join "/srv" (coll_name Props))
  = Some ((false, "Permission denied: Cannot create directory '/srv/Props'"),
          guarded_disk)
  ∧ export_collection_recursive (context true false) Props "/srv"
                                (get_object_types (settings true false)) true
                                (start guarded_disk)
    = Some (0, add_report ERROR
                 "Permission denied: Cannot create directory '/srv/Props'"
                 (start guarded_disk))
  ∧ for_sum (fun coll => export_collection_recursive (context true false) coll
                           "/srv" (get_object_types (settings true false)) true)
            ([] ++ Props :: [Nested]) (start guarded_disk)
    = bind (for_sum (fun coll => export_collection_recursive
                                   (context true false) coll "/srv"
                                   (get_object_types (settings true false)) true)
                    [Nested])
           (fun m => ret (0 + m))
           (add_report ERROR
              "Permission denied: Cannot create directory '/srv/Props'"
              (start guarded_disk)).
Proof.
  destruct (directory_failure_is_local (FS:=MemFS) (context true false))
    as (_ & Hcoll & Hloop & _).
  split; [reflexivity|]. split.
  - exact (Hcoll Props "/srv" _ (start guarded_disk) _ guarded_disk eq_refl).
  - exact (Hloop "/srv" _ [] Props [Nested] (start guarded_disk)
                 (start guarded_disk) 0 _ guarded_disk eq_refl eq_refl).
Defined.

(** C8 as stated fails: the run starts without an active object and
    ends with [Sphere] active. *)
Lemma execute_leaves_new_active_object :
  ∃ w', execute (context true false) "/out" (start out_disk) = Some (FINISHED, w')
        ∧ w_active (start out_disk) = None
        ∧ w_active w' = Some Sphere.
Proof.
  eexists. split; [vm_compute; reflexivity|]. split; reflexivity.
Qed.


End SceneExamples.

(** * Further properties of the add-on *)

(** ** Path helper *)

Section PathHelperMore.
Context `{OsPath} {FS : Type} `{!FileSystem FS}.

Lemma check_path_exists_rec_names (fuel : nat) (fs : FS) path :
  platform_is_windows = false →
  PathLaws →
  (String.length path < fuel)%nat →
  os_path_exists fs path = false →
  ∃ k, check_path_exists_rec fuel fs path
       = Some (false, "Path '" +:+ Nat.iter k os_path_dirname path
                      +:+ "' is not accessible.")
       ∧ (∀ j, (j ≤ k)%nat →
               os_path_exists fs (Nat.iter j os_path_dirname path) = false)
       ∧ (truthy (os_path_dirname (Nat.iter k os_path_dirname path)) = false
          ∨ os_path_exists fs (os_path_dirname (Nat.iter k os_path_dirname path))
            = true).
Proof.
  intros Hposix Hlaws. revert path.
  induction fuel as [|fuel IH]; intros path Hlen Hex; [lia|]. simpl.
  rewrite Hex, Hposix. simpl.
  destruct (truthy (os_path_dirname path)) eqn:Hne; simpl.
  2:{ exists 0%nat. simpl. split; [done|]. split; [|by left].
      intros j Hj. by replace j with 0%nat by lia. }
  destruct (os_path_exists fs (os_path_dirname path)) eqn:Hparent; simpl.
  { exists 0%nat. simpl. split; [done|]. split; [|by right].
    intros j Hj. by replace j with 0%nat by lia. }
  destruct (dirname_shorter path) as [Hfix|Hlt].
  { rewrite Hfix in Hne, Hparent. rewrite (root_exists fs path Hfix Hne) in Hparent.
    discriminate. }
  destruct (IH (os_path_dirname path)) as (k & Hrun & Hmiss & Hstop); [lia|done|].
  exists (S k). rewrite Nat.iter_succ_r. split; [done|]. split; [|done].
  intros [|j] Hj; [done|]. rewrite Nat.iter_succ_r. apply Hmiss. lia.
Qed.

(** X1.  Without drive letters, the reason [check_path_exists] gives for a
    missing path names the first of the paths [path], [dirname path],
    [dirname (dirname path)], ... whose parent is empty or exists; that
    path and all the ones before it are missing. *)
Theorem check_path_exists_names_topmost_missing `{!PathLaws} (fs : FS) path :
  platform_is_windows = false →
  os_path_exists fs path = false →
  ∃ k, check_path_exists fs path
       = Some (false, "Path '" +:+ Nat.iter k os_path_dirname path
                      +:+ "' is not accessible.")
       ∧ (∀ j, (j ≤ k)%nat →
               os_path_exists fs (Nat.iter j os_path_dirname path) = false)
       ∧ (truthy (os_path_dirname (Nat.iter k os_path_dirname path)) = false
          ∨ os_path_exists fs (os_path_dirname (Nat.iter k os_path_dirname path))
            = true).
Proof.
  intros Hposix Hex. apply check_path_exists_rec_names; auto.
Qed.

Lemma check_path_exists_rec_reason (fuel : nat) (fs : FS) path b msg :
  check_path_exists_rec fuel fs path = Some (b, msg) →
  (b = true ↔ msg = "").
Proof.
  revert path. induction fuel as [|fuel IH]; intros path; simpl; [done|].
  destruct (os_path_exists fs path).
  { intros [= <- <-]. done. }
  destruct (platform_is_windows && truthy (os_path_splitdrive path)
            && negb (os_path_exists fs (os_path_splitdrive path))).
  { intros [= <- <-]. split; discriminate. }
  destruct (truthy (os_path_dirname path)
            && negb (os_path_exists fs (os_path_dirname path))).
  - apply IH.
  - intros [= <- <-]. split; discriminate.
Qed.

(** X2.  Both path helpers give an empty reason exactly when they report
    success: [check_path_exists] and [ensure_directory_exists] never fail
    without a reason and never attach one to a success. *)
Theorem path_helper_reason_iff_failure (fs fs' : FS) path b msg :
  (check_path_exists fs path = Some (b, msg) → (b = true ↔ msg = ""))
  ∧ (ensure_directory_exists fs path = Some ((b, msg), fs') →
     (b = true ↔ msg = "")).
Proof.
  split; [apply check_path_exists_rec_reason|].
  unfold ensure_directory_exists.
  destruct (check_path_exists fs (os_path_dirname path)) as [[b0 m0]|] eqn:Hck;
    [|done].
  apply check_path_exists_rec_reason in Hck.
  destruct b0; simpl.
  - destruct (os_path_exists fs path); simpl; [by intros [= <- <- _]|].
    destruct (os_makedirs fs path) as [fs1|[| |e]]; intros [= <- <- _];
      split; done.
  - intros [= <- <- _]. done.
Qed.

(** X3.  [ensure_directory_exists] succeeds only under a parent that is
    already there, so it never creates intermediate directories; after a
    success the directory exists and nothing that existed is gone. *)
Theorem ensure_directory_exists_success `{!MakedirsLaws} (fs fs' : FS) path msg :
  ensure_directory_exists fs path = Some ((true, msg), fs') →
  os_path_exists fs (os_path_dirname path) = true
  ∧ os_path_exists fs' path = true
  ∧ (∀ q, os_path_exists fs q = true → os_path_exists fs' q = true)
  ∧ (os_path_exists fs path = true → fs' = fs).
Proof.
  unfold ensure_directory_exists.
  destruct (check_path_exists fs (os_path_dirname path)) as [[b0 m0]|] eqn:Hck;
    [|done].
  apply check_path_exists_rec_flag in Hck. simpl in Hck.
  destruct b0; simpl; [|done].
  destruct (os_path_exists fs path) eqn:Hex; simpl.
  { intros [= _ <-]. auto. }
  destruct (os_makedirs fs path) as [fs1|[| |e]] eqn:Hmk; intros [= _ <-].
  repeat split; [done|by eapply makedirs_creates| |done].
  intros q. by eapply makedirs_keeps.
Qed.

(** X4.  A failed [ensure_directory_exists] leaves the file system as it
    was, and when the parent directory is missing it fails with the very
    answer [check_path_exists] gives for the parent. *)
Theorem ensure_directory_exists_failure_untouched (fs fs' : FS) path msg :
  ensure_directory_exists fs path = Some ((false, msg), fs') →
  fs' = fs
  ∧ (os_path_exists fs (os_path_dirname path) = false →
     check_path_exists fs (os_path_dirname path) = Some (false, msg)).
Proof.
  unfold ensure_directory_exists.
  destruct (check_path_exists fs (os_path_dirname path)) as [[b0 m0]|] eqn:Hck;
    [|done].
  pose proof (check_path_exists_rec_flag _ _ _ _ Hck) as Hflag. simpl in Hflag.
  destruct b0; simpl.
  - destruct (os_path_exists fs path); simpl; [done|].
    destruct (os_makedirs fs path) as [fs1|[| |e]]; intros [= <- <-];
      (split; [done|]); intros Hmiss; congruence.
  - intros [= <- <-]. done.
Qed.
End PathHelperMore.

(** ** Scene traversal *)

Section TraversalMore.

Lemma all_have_2nd_uv_layer_from_spec uv_layers mesh_found objects :
  all_have_2nd_uv_layer_from uv_layers mesh_found objects = true ↔
  (mesh_found = true ∨ ∃ o, o ∈ objects ∧ ob_type o = "MESH")
  ∧ (∀ o, o ∈ objects → ob_type o = "MESH" → (2 ≤ uv_layers o)%nat).
Proof.
  revert mesh_found. induction objects as [|obj rest IH]; intros mesh_found; simpl.
  { split.
    - intros ->. split; [by left|]. intros o Ho. by apply elem_of_nil in Ho.
    - intros [[->|(o & Ho & _)] _]; [done|]. by apply elem_of_nil in Ho. }
  destruct (String.eqb_spec (ob_type obj) "MESH") as [Hmesh|Hother].
  - destruct (Nat.ltb_spec (uv_layers obj) 2) as [Hfew|Henough].
    + split; [done|]. intros [_ Hall].
      specialize (Hall obj (list_elem_of_here _ _) Hmesh). lia.
    + rewrite IH. split.
      * intros [_ Hall]. split; [right; exists obj; split; [apply list_elem_of_here|done]|].
        intros o [->|Ho]%elem_of_cons; auto.
      * intros [_ Hall]. split; [by left|].
        intros o Ho. apply Hall. by apply list_elem_of_further.
  - rewrite IH. split.
    + intros [Hfound Hall]. split.
      * destruct Hfound as [->|(o & Ho & Hm)]; [by left|].
        right. exists o. split; [by apply list_elem_of_further|done].
      * intros o [->|Ho]%elem_of_cons; [done|auto].
    + intros [Hfound Hall]. split.
      * destruct Hfound as [->|(o & [->|Ho]%elem_of_cons & Hm)]; [by left|done|].
        right. by exists o.
      * intros o Ho. apply Hall. by apply list_elem_of_further.
Qed.

(** X5.  [all_have_2nd_uv_layer] answers yes exactly when the list holds
    at least one mesh and every mesh in it has two or more UV layers; a
    list without meshes, the empty list included, gives no. *)
Theorem all_have_2nd_uv_layer_spec uv_layers objects :
  all_have_2nd_uv_layer uv_layers objects = true ↔
  (∃ o, o ∈ objects ∧ ob_type o = "MESH")
  ∧ (∀ o, o ∈ objects → ob_type o = "MESH" → (2 ≤ uv_layers o)%nat).
Proof.
  unfold all_have_2nd_uv_layer. rewrite all_have_2nd_uv_layer_from_spec.
  split; intros [Hfound Hall]; (split; [|done]).
  - by destruct Hfound.
  - by right.
Qed.

Lemma filter_concat_map {A B} (P : A → bool) (f : B → list A) (l : list B) :
  filter P (concat (map f l)) = concat (map (fun x => filter P (f x)) l).
Proof.
  induction l as [|x l IH]; simpl; [done|]. by rewrite filter_app, IH.
Qed.

Lemma gather_all_objects_recursive_filter collection allowed_types :
  gather_all_objects_recursive collection allowed_types
  = filter (visible_allowed allowed_types) (all_objects collection).
Proof.
  induction collection as [name h objs children IH] using Collection_tree_ind.
  simpl. rewrite filter_app, filter_concat_map. f_equal. f_equal.
  induction IH as [|child children Hchild _ IHchildren]; simpl; [done|].
  by rewrite Hchild, IHchildren.
Qed.

(** X6.  [gather_all_objects_recursive] returns exactly the objects of the
    collection's subtree that have an allowed type and are not hidden; it
    is empty exactly when the filter [execute] applies to
    [collection.all_objects] (lines 538-539) finds nothing. *)
Theorem gather_all_objects_recursive_spec collection allowed_types :
  (∀ o, o ∈ gather_all_objects_recursive collection allowed_types ↔
        o ∈ all_objects collection
        ∧ ob_type o ∈ allowed_types ∧ ob_hide_viewport o = false)
  ∧ (gather_all_objects_recursive collection allowed_types = [] ↔
     filter (visible_allowed allowed_types) (all_objects collection) = []).
Proof.
  rewrite gather_all_objects_recursive_filter. split; [|done].
  intros o. rewrite list_elem_of_filter. unfold visible_allowed.
  rewrite andb_True, bool_decide_spec, negb_True, Is_true_false.
  destruct (ob_hide_viewport o); intuition congruence.
Qed.

Lemma elem_of_add_if b x (t : gset string) s :
  s ∈ add_if b x t ↔ (s = x ∧ b = true) ∨ s ∈ t.
Proof.
  unfold add_if. destruct b.
  - rewrite elem_of_union, elem_of_singleton. tauto.
  - split; [by right|]. intros [[_ ?]|?]; done.
Qed.

(** X7.  The traversal filter ([get_object_types], and the panel's
    [get_allowed_types]) holds a kind exactly when its checkbox is set;
    the exporter's filter [ex_object_types] holds the same kinds plus
    [ARMATURE] whenever [export_animations] is set.  So with animations on
    and armatures off the exporter is told to write armatures that the
    traversal never hands to it. *)
Theorem object_type_filters props t :
  (t ∈ get_object_types props ↔
     (t = "EMPTY" ∧ export_empty props = true)
     ∨ (t = "CAMERA" ∧ export_camera props = true)
     ∨ (t = "LIGHT" ∧ export_lamp props = true)
     ∨ (t = "ARMATURE" ∧ export_armature props = true)
     ∨ (t = "MESH" ∧ export_mesh props = true)
     ∨ (t = "OTHER" ∧ export_other props = true))
  ∧ (t ∈ ex_object_types props ↔
     t ∈ get_object_types props
     ∨ (t = "ARMATURE" ∧ export_animations props = true))
  ∧ get_allowed_types props = get_object_types props.
Proof.
  unfold get_allowed_types, get_object_types, ex_object_types.
  rewrite !elem_of_add_if, elem_of_empty, orb_true_iff.
  split; [tauto|]. split; [tauto|reflexivity].
Qed.
End TraversalMore.

Section TopLevelMore.

Lemma lc_in_trans a b c : lc_in a b → lc_in b c → lc_in a c.
Proof.
  intros Hab Hbc. induction Hbc as [|t child Hchild _ IH]; [done|].
  by eapply lc_in_child.
Qed.

(** A visible link to [x] somewhere in the tree of [lc]. *)
Lemma visible_in_tree lc x :
  (∃ m, lc_in m lc ∧ lc_visible m = true ∧ coll_name (lc_collection m) = x) ↔
  (lc_visible lc = true ∧ coll_name (lc_collection lc) = x)
  ∨ (∃ child m, child ∈ lc_children lc ∧ lc_in m child
                ∧ lc_visible m = true ∧ coll_name (lc_collection m) = x).
Proof.
  split.
  - intros (m & Hin & Hvis & Hname). inversion Hin as [|t child Hchild Hm]; subst.
    + by left.
    + right. by exists child, m.
  - intros [[Hvis Hname]|(child & m & Hchild & Hm & Hvis & Hname)].
    + exists lc. split; [apply lc_in_here|done].
    + exists m. split; [by eapply lc_in_child|done].
Qed.

Lemma fold_left_iff {A B} (f : A → B → A) (Q : A → Prop) (C : B → Prop) l a :
  (∀ s b, b ∈ l → (Q (f s b) ↔ Q s ∨ C b)) →
  (Q (fold_left f l a) ↔ Q a ∨ ∃ b, b ∈ l ∧ C b).
Proof.
  revert a. induction l as [|b0 l IH]; intros a Hstep; simpl.
  { split; [by left|]. intros [?|(b & Hb & _)]; [done|]. by apply elem_of_nil in Hb. }
  rewrite IH by (intros s b Hb; apply Hstep; by apply list_elem_of_further).
  rewrite Hstep by apply list_elem_of_here.
  split.
  - intros [[?|?]|(b & Hb & Hc)]; [by left| |].
    + right. exists b0. split; [apply list_elem_of_here|done].
    + right. exists b. split; [by apply list_elem_of_further|done].
  - intros [?|(b & [->|Hb]%elem_of_cons & Hc)]; [by left; left|by left; right|].
    right. by exists b.
Qed.

Lemma fold_left_rel {A A' B} (f : A → B → A) (g : A' → B → A')
    (R : A → A' → Prop) l a a' :
  (∀ s s' b, b ∈ l → R s s' → R (f s b) (g s' b)) →
  R a a' → R (fold_left f l a) (fold_left g l a').
Proof.
  revert a a'. induction l as [|b l IH]; intros a a' Hstep Ha; simpl; [done|].
  apply IH.
  - intros s s' b' Hb'. apply Hstep. by apply list_elem_of_further.
  - apply Hstep; [apply list_elem_of_here|done].
Qed.

Lemma set_add_is_Some c (s : gmap string Collection) x :
  is_Some (set_add c s !! x) ↔ is_Some (s !! x) ∨ coll_name c = x.
Proof.
  unfold set_add. destruct (s !! coll_name c) eqn:Hc.
  - split; [by left|]. intros [?|<-]; [done|]. by rewrite Hc.
  - rewrite lookup_insert_is_Some'. tauto.
Qed.

(** What one subtree adds to [child_to_parent]. *)
Lemma recurse_layer_coll_recorded_iff lc : ∀ parent st x,
  recorded (recurse_layer_coll lc parent st) x ↔
  recorded st x
  ∨ (is_Some parent ∧ lc_visible lc = true ∧ coll_name (lc_collection lc) = x)
  ∨ (∃ child m, child ∈ lc_children lc ∧ lc_in m child
                ∧ lc_visible m = true ∧ coll_name (lc_collection m) = x).
Proof.
  induction lc as [h c children IH] using LayerCollection_tree_ind.
  intros parent st x. rewrite Forall_forall in IH. cbn [recurse_layer_coll].
  rewrite (fold_left_iff _ (fun s => recorded s x)
             (fun child => ∃ m, lc_in m child ∧ lc_visible m = true
                                ∧ coll_name (lc_collection m) = x)).
  - assert (Hvisit : recorded (visit_layer_coll (LayerColl h c children) parent st) x
                     ↔ recorded st x
                       ∨ (is_Some parent ∧ lc_visible (LayerColl h c children) = true
                          ∧ coll_name c = x)).
    { unfold recorded, visit_layer_coll, lc_visible. simpl.
      destruct (negb h && negb (coll_hide_viewport c)); simpl.
      - destruct parent as [p|]; simpl.
        + rewrite lookup_insert_is_Some'. split; [intros [?|?]|intros [?|(_ & _ & ?)]]; auto.
        + split; [by left|]. intros [?|([? ?] & _)]; done.
      - split; [by left|]. intros [?|(_ & ? & _)]; done. }
    rewrite Hvisit. simpl. split.
    + intros [[?|?]|(child & Hchild & m & Hm)]; [by left|by right; left|].
      right. right. by exists child, m.
    + intros [?|[?|(child & m & Hchild & Hm)]]; [by left; left|by left; right|].
      right. exists child. split; [done|]. by exists m.
  - intros s child Hchild. rewrite (IH child Hchild), visible_in_tree.
    split; [intros [?|[(_ & ?)|?]]|intros [?|[?|?]]]; auto.
Qed.

(** What one subtree adds to [all_visible]. *)
Lemma recurse_layer_coll_visible_iff lc : ∀ parent st x,
  is_Some (all_visible (recurse_layer_coll lc parent st) !! x) ↔
  is_Some (all_visible st !! x)
  ∨ (∃ m, lc_in m lc ∧ lc_visible m = true ∧ coll_name (lc_collection m) = x).
Proof.
  induction lc as [h c children IH] using LayerCollection_tree_ind.
  intros parent st x. rewrite Forall_forall in IH. cbn [recurse_layer_coll].
  rewrite (fold_left_iff _ (fun s => is_Some (all_visible s !! x))
             (fun child => ∃ m, lc_in m child ∧ lc_visible m = true
                                ∧ coll_name (lc_collection m) = x)).
  - rewrite visible_in_tree.
    assert (Hvisit : is_Some (all_visible
                       (visit_layer_coll (LayerColl h c children) parent st) !! x)
                     ↔ is_Some (all_visible st !! x)
                       ∨ (lc_visible (LayerColl h c children) = true
                          ∧ coll_name c = x)).
    { unfold visit_layer_coll, lc_visible. simpl.
      destruct (negb h && negb (coll_hide_viewport c)); simpl.
      - rewrite set_add_is_Some. tauto.
      - split; [by left|]. intros [?|[? _]]; done. }
    rewrite Hvisit. simpl. split.
    + intros [[?|?]|(child & Hchild & m & Hm)]; [by left|by right; left|].
      right. right. by exists child, m.
    + intros [?|[?|(child & m & Hchild & Hm)]]; [by left; left|by left; right|].
      right. exists child. split; [done|]. by exists m.
  - intros s child Hchild. apply (IH child Hchild).
Qed.

Lemma walk_recorded_iff roots x :
  recorded (walk_layer_collections roots) x ↔ ∃ a, linked_below roots a x.
Proof.
  unfold walk_layer_collections.
  rewrite (fold_left_iff _ (fun s => recorded s x)
             (fun root => ∃ child m, child ∈ lc_children root ∧ lc_in m child
                                     ∧ lc_visible m = true
                                     ∧ coll_name (lc_collection m) = x)).
  - split.
    + intros [Hempty|(root & Hroot & child & m & Hchild & Hm & Hvis & Hname)].
      { unfold recorded in Hempty. simpl in Hempty. rewrite lookup_empty in Hempty.
        by destruct Hempty. }
      exists (coll_name (lc_collection root)), root, root, child, m.
      repeat split; auto. apply lc_in_here.
    + intros (a & root & n & child & m & Hroot & Hn & _ & Hchild & Hm & Hvis & Hname).
      right. exists root. split; [done|].
      inversion Hn as [|t c' Hc' Hn']; subst.
      * by exists child, m.
      * exists c', m. repeat split; auto.
        eapply lc_in_trans; [|exact Hn']. by eapply lc_in_child.
  - intros s root _. rewrite recurse_layer_coll_recorded_iff.
    split; [intros [?|[([? ?] & _)|?]]|intros [?|?]]; auto; done.
Qed.

Lemma walk_visible_iff roots x :
  is_Some (all_visible (walk_layer_collections roots) !! x) ↔ visible_link roots x.
Proof.
  unfold walk_layer_collections, visible_link.
  rewrite (fold_left_iff _ (fun s => is_Some (all_visible s !! x))
             (fun root => ∃ m, lc_in m root ∧ lc_visible m = true
                               ∧ coll_name (lc_collection m) = x)).
  - simpl. rewrite lookup_empty. split.
    + intros [[? ?]|(root & Hroot & m & Hm)]; [done|]. by exists root, m.
    + intros (root & m & Hroot & Hm). right. exists root. split; [done|]. by exists m.
  - intros s root _. apply recurse_layer_coll_visible_iff.
Qed.

Lemma walk_named roots k c :
  all_visible (walk_layer_collections roots) !! k = Some c → coll_name c = k.
Proof.
  revert k c. unfold walk_layer_collections.
  apply (fold_left_keeps _ (fun s => ∀ k c, all_visible s !! k = Some c → coll_name c = k)).
  - intros s lc _ Hs. by apply recurse_layer_coll_named.
  - intros k c. simpl. by rewrite lookup_empty.
Qed.

(** X8.  A collection is returned by [gather_top_level_collections]
    exactly when some visible link leads to it and no visible link to it
    has a parent link.  A visible collection that is only linked below
    other links, hidden parents included, is therefore never returned. *)
Theorem gather_top_level_collections_iff roots k :
  k ∈ coll_name <$> gather_top_level_collections roots ↔
  visible_link roots k ∧ ¬ ∃ a, linked_below roots a k.
Proof.
  rewrite <- walk_visible_iff, <- walk_recorded_iff.
  unfold gather_top_level_collections, recorded.
  set (st := walk_layer_collections roots).
  rewrite list_elem_of_fmap. split.
  - intros (c & -> & Hc). apply list_elem_of_filter in Hc as [Hnone Hc].
    apply list_elem_of_fmap in Hc as ([k c'] & -> & Hkc). simpl in *.
    apply elem_of_map_to_list in Hkc.
    pose proof (walk_named _ _ _ Hkc) as Hname. rewrite Hname in Hnone |- *.
    rewrite Hkc, Hnone. split; [by eexists|].
    by intros [? ?].
  - intros [[c Hc] Hnone]. exists c.
    pose proof (walk_named _ _ _ Hc) as Hname. split; [done|].
    apply list_elem_of_filter. split.
    + rewrite Hname. by apply eq_None_not_Some.
    + apply list_elem_of_fmap. exists (k, c). split; [done|].
      by apply elem_of_map_to_list.
Qed.

Lemma gather_layer_coll_walk lc : ∀ parent st,
  all_visible (recurse_layer_coll lc parent st)
  = gather_layer_coll lc (all_visible st).
Proof.
  induction lc as [h c children IH] using LayerCollection_tree_ind.
  intros parent st. rewrite Forall_forall in IH.
  cbn [recurse_layer_coll gather_layer_coll].
  apply (fold_left_rel _ _ (fun s o => all_visible s = o)).
  - intros s o child Hchild <-. by apply IH.
  - unfold visit_layer_coll. simpl. by destruct (negb h && negb (coll_hide_viewport c)).
Qed.

Lemma build_map_walk lc : ∀ parent st,
  child_to_parent (recurse_layer_coll lc parent st)
  = build_map lc parent (child_to_parent st).
Proof.
  induction lc as [h c children IH] using LayerCollection_tree_ind.
  intros parent st. rewrite Forall_forall in IH.
  cbn [recurse_layer_coll build_map].
  apply (fold_left_rel _ _ (fun s m => child_to_parent s = m)).
  - intros s m child Hchild <-. by apply IH.
  - unfold visit_layer_coll. simpl.
    by destruct (negb h && negb (coll_hide_viewport c)), parent.
Qed.

(** The two walks of the panel compute the two fields of the one walk of
    [gather_top_level_collections]. *)
Lemma draw_top_level_walks roots :
  draw_top_level roots = gather_top_level_collections roots.
Proof.
  unfold draw_top_level, gather_top_level_collections, walk_layer_collections.
  set (start := {| all_visible := ∅; child_to_parent := ∅ |}).
  assert (Hvis : all_visible (fold_left (fun s lc => recurse_layer_coll lc None s)
                                        roots start)
                 = fold_left (fun o lc => gather_layer_coll lc o) roots ∅).
  { apply (fold_left_rel _ _ (fun s o => all_visible s = o)); [|done].
    intros s o lc _ <-. apply gather_layer_coll_walk. }
  assert (Hmap : child_to_parent (fold_left (fun s lc => recurse_layer_coll lc None s)
                                            roots start)
                 = fold_left (fun m lc => build_map lc None m) roots ∅).
  { apply (fold_left_rel _ _ (fun s m => child_to_parent s = m)); [|done].
    intros s m lc _ <-. apply build_map_walk. }
  by rewrite Hvis, Hmap.
Qed.

(** X9.  The panel computes its top-level collections with two separate
    walks of the layer hierarchy; the result is the list the export
    operator gets from [gather_top_level_collections]. *)
Theorem draw_top_level_agrees roots :
  draw_top_level roots = gather_top_level_collections roots.
Proof. apply draw_top_level_walks. Qed.
End TopLevelMore.

(** ** The exporter calls of the operator *)

Section ExporterCalls.
Context `{OsPath} {FS : Type} `{!FileSystem FS} `{!Host FS}.

(** *** How [emits] composes *)

Lemma emits_ret {A} (a : A) (Q : A → list FbxCall → Prop) :
  Q a [] → emits (FS:=FS) (ret a) Q.
Proof.
  intros HQ w a' w' [= <- <-]. exists []. by rewrite app_nil_r.
Qed.

Lemma emits_bind {A B} (m : M FS A) (k : A → M FS B)
    (Q1 : A → list FbxCall → Prop) (Q2 : A → B → list FbxCall → Prop)
    (Q : B → list FbxCall → Prop) :
  emits m Q1 → (∀ a, emits (k a) (Q2 a)) →
  (∀ a c1 b c2, Q1 a c1 → Q2 a b c2 → Q b (c1 ++ c2)) →
  emits (bind m k) Q.
Proof.
  intros Hm Hk Hcomp w b w'. unfold bind.
  destruct (m w) as [[a w1]|] eqn:Hrun; [|done]. intros Hk'.
  destruct (Hm _ _ _ Hrun) as (c1 & Hc1 & HQ1).
  destruct (Hk _ _ _ _ Hk') as (c2 & Hc2 & HQ2).
  exists (c1 ++ c2). rewrite Hc2, Hc1, app_assoc. split; [done|]. by eapply Hcomp.
Qed.

Lemma emits_weaken {A} (m : M FS A) (Q Q' : A → list FbxCall → Prop) :
  emits m Q → (∀ a c, Q a c → Q' a c) → emits m Q'.
Proof.
  intros Hm Himp w a w' Hrun. destruct (Hm _ _ _ Hrun) as (c & Hc & HQ).
  exists c. split; [done|]. by apply Himp.
Qed.

(** A step that calls no exporter. *)
Lemma emits_quiet {A} (m : M FS A) (Q : A → list FbxCall → Prop) :
  (∀ w a w', m w = Some (a, w') → fbx_calls w' = fbx_calls w) →
  (∀ a, Q a []) → emits m Q.
Proof.
  intros Hm HQ w a w' Hrun. exists []. rewrite app_nil_r. split; [|done].
  by eapply Hm.
Qed.

Lemma quiet_report sev msg (w w' : World FS) a :
  report sev msg w = Some (a, w') → fbx_calls w' = fbx_calls w.
Proof. by intros [= _ <-]. Qed.

Lemma quiet_ensure_directory path (w w' : World FS) r :
  ensure_directory path w = Some (r, w') → fbx_calls w' = fbx_calls w.
Proof.
  unfold ensure_directory.
  destruct (ensure_directory_exists (w_fs w) path) as [[r' fs']|]; [|done].
  by intros [= _ <-].
Qed.

(** Additive facts about calls pass through [for_sum]. *)
Lemma emits_for_sum {A} (f : A → M FS nat) (l : list A)
    (Q : nat → list FbxCall → Prop) :
  Forall (fun x => emits (f x) Q) l →
  Q 0%nat [] →
  (∀ n c m c', Q n c → Q m c' → Q (n + m)%nat (c ++ c')) →
  emits (for_sum f l) Q.
Proof.
  intros Hf Hzero Hadd. induction Hf as [|x l Hx _ IH]; simpl.
  { by apply emits_ret. }
  intros w r w'. unfold bind, ret.
  destruct (f x w) as [[n w1]|] eqn:Hrun1; [|done].
  destruct (for_sum f l w1) as [[m w2]|] eqn:Hrun2; [|done].
  intros [= <- <-].
  destruct (Hx _ _ _ Hrun1) as (c1 & Hc1 & HQ1).
  destruct (IH _ _ _ Hrun2) as (c2 & Hc2 & HQ2).
  exists (c1 ++ c2). rewrite Hc2, Hc1, app_assoc. split; [done|]. by apply Hadd.
Qed.

(** *** One [export_fbx] call *)

(** Once the output directory is there, [export_fbx] on a non-empty list
    calls the exporter exactly once. *)
Lemma export_fbx_exporter_call context filepath o objects (w : World FS) msg fs1 :
  ensure_directory_exists (w_fs w) (os_path_dirname filepath)
  = Some ((true, msg), fs1) →
  ∃ ok w' c,
    export_fbx context filepath (o :: objects) w = Some (ok, w')
    ∧ fbx_calls w' = fbx_calls w ++ [c]
    ∧ call_params c = fbx_params (props context) filepath
    ∧ call_objects c = exported_of context (o :: objects)
    ∧ ok = match call_error c with None => true | Some _ => false end
    ∧ exported_files w'
      = exported_files w ++ (if ok then [record_of filepath] else [])
    ∧ selected_objects context w' = exported_of context (o :: objects)
    ∧ w_active w'
      = match filter (fun x => bool_decide (x ∈ view_layer_objects context))
                     (o :: objects) with
        | first :: _ => Some first
        | [] => w_active w
        end
    ∧ call_active c = w_active w'.
Proof.
  intros Hens. unfold export_fbx.
  erewrite bind_some; [|unfold ensure_directory; rewrite Hens; reflexivity].
  cbn [negb fst snd].
  erewrite bind_some by reflexivity. erewrite bind_some by reflexivity.
  match goal with
  | |- context [bind (for_each (select_set ?ctx) ?l) _ ?w0] =>
    destruct (for_each_select_set ctx l w0)
      as (w2 & Hsel & Hmem & _ & _ & Hact & Hfiles & _ & Hcalls & _)
  end.
  erewrite bind_some by exact Hsel. simpl in Hmem, Hact, Hfiles, Hcalls.
  set (valid := filter (fun x => bool_decide (x ∈ view_layer_objects context))
                       (o :: objects)) in *.
  assert (Hexp : selected_objects context w2 = exported_of context (o :: objects)).
  { unfold selected_objects, exported_of. apply filter_agree. intros x Hx.
    destruct (selectable context x) eqn:Hable; [|by rewrite !andb_false_r].
    rewrite !andb_true_r. apply bool_decide_ext. rewrite Hmem. unfold valid.
    rewrite list_elem_of_filter, elem_of_nil, bool_decide_spec. tauto. }
  assert (Hstep : ∃ w3, (match valid with
                         | o1 :: _ => set_active o1
                         | [] => ret tt
                         end) w2 = Some (tt, w3)
                        ∧ exported_files w3 = exported_files w2
                        ∧ fbx_calls w3 = fbx_calls w2
                        ∧ w_selected w3 = w_selected w2
                        ∧ w_active w3 = match valid with
                                        | first :: _ => Some first
                                        | [] => w_active w2
                                        end).
  { destruct valid; eexists; (split; [reflexivity|]); done. }
  destruct Hstep as (w3 & Hstep & Hfiles3 & Hcalls3 & Hsel3 & Hact3).
  erewrite bind_some by exact Hstep.
  assert (Hexp3 : selected_objects context w3 = exported_of context (o :: objects)).
  { rewrite <- Hexp. unfold selected_objects. by rewrite Hsel3. }
  unfold call_exporter. rewrite Hexp3.
  destruct (export_scene_fbx _ _ _) as [fs4 [e|]];
    eexists _, _, _; (split; [reflexivity|]); simpl;
    rewrite Hfiles3, Hfiles, Hcalls3, Hcalls, Hact3, Hact, ?app_nil_r;
    repeat split; try reflexivity;
    unfold selected_objects; simpl; rewrite Hsel3; exact Hexp.
Qed.

(** X10.  When its output directory can be prepared, [export_fbx] on a
    non-empty object list calls the exporter exactly once, also when none
    of the objects ends up selected.  The call exports those of the given
    objects that are in the view layer and that the host can select
    there, in view-layer order; the result is true exactly when the
    exporter raised nothing; the exported objects stay selected, and the
    first given object that is in the view layer, if any, is the active
    one at the call and afterwards. *)
Theorem export_fbx_calls_exporter_once context filepath o objects
    (w : World FS) msg fs1 :
  ensure_directory_exists (w_fs w) (os_path_dirname filepath)
  = Some ((true, msg), fs1) →
  ∃ ok w' c,
    export_fbx context filepath (o :: objects) w = Some (ok, w')
    ∧ fbx_calls w' = fbx_calls w ++ [c]
    ∧ call_objects c
      = filter (fun x => bool_decide (x ∈ o :: objects) && selectable context x)
               (view_layer_objects context)
    ∧ (ok = true ↔ call_error c = None)
    ∧ selected_objects context w' = call_objects c
    ∧ w_active w'
      = match filter (fun x => bool_decide (x ∈ view_layer_objects context))
                     (o :: objects) with
        | first :: _ => Some first
        | [] => w_active w
        end
    ∧ call_active c = w_active w'.
Proof.
  intros Hens.
  destruct (export_fbx_exporter_call context filepath o objects w msg fs1 Hens)
    as (ok & w' & c & Hrun & Hcalls & _ & Hobjs & Hok & _ & Hsel & Hact & Hcall).
  exists ok, w', c. rewrite Hobjs. unfold exported_of in *. repeat split; auto.
  - intros ->. by destruct (call_error c).
  - intros Hnone. by rewrite Hok, Hnone.
Qed.

(** What [export_fbx] emits, whatever becomes of its directory. *)
Lemma emits_export_fbx context filepath objects :
  emits (FS:=FS) (export_fbx context filepath objects)
    (fun ok calls =>
       (length calls ≤ 1)%nat
       ∧ length (records_of calls) = count_of ok
       ∧ Forall (fun c => call_params c = fbx_params (props context) filepath
                          ∧ call_objects c = exported_of context objects) calls).
Proof.
  intros w ok w' Hrun. destruct objects as [|o objects].
  { injection Hrun as <- <-. exists []. rewrite app_nil_r. simpl. auto. }
  destruct (ensure_directory_exists (w_fs w) (os_path_dirname filepath))
    as [[[[] msg] fs1]|] eqn:Hens.
  - destruct (export_fbx_exporter_call context filepath o objects w msg fs1 Hens)
      as (ok' & w1 & c & Hrun' & Hcalls & Hparams & Hobjs & Hok & _).
    rewrite Hrun in Hrun'. injection Hrun' as <- <-.
    exists [c]. split; [done|]. simpl. split; [lia|]. split.
    + rewrite Hok. by destruct (call_error c).
    + by repeat constructor.
  - unfold export_fbx in Hrun.
    erewrite bind_some in Hrun by (eapply ensure_directory_failure, Hens).
    injection Hrun as <- <-. exists []. rewrite app_nil_r. simpl.
    split; [done|]. split; [lia|]. split; [done|constructor].
  - unfold export_fbx, bind, ensure_directory in Hrun. by rewrite Hens in Hrun.
Qed.

(** *** Collection mode *)

Lemma emits_bind_quiet {A B} (m : M FS A) (k : A → M FS B)
    (Q : B → list FbxCall → Prop) :
  (∀ w a w', m w = Some (a, w') → fbx_calls w' = fbx_calls w) →
  (∀ a, emits (k a) Q) → emits (bind m k) Q.
Proof.
  intros Hm Hk. eapply (emits_bind _ _ (fun _ c => c = []) (fun _ => Q)).
  - intros w a w' Hrun. exists []. rewrite app_nil_r. split; [|done]. by eapply Hm.
  - exact Hk.
  - by intros a c1 b c2 ->.
Qed.

Lemma emits_bind_ret {A B} (m : M FS A) (g : A → B)
    (Q1 : A → list FbxCall → Prop) (Q : B → list FbxCall → Prop) :
  emits m Q1 → (∀ a c, Q1 a c → Q (g a) c) →
  emits (bind m (fun a => ret (g a))) Q.
Proof.
  intros Hm Himp. eapply (emits_bind _ _ Q1 (fun a b c => b = g a ∧ c = [])).
  - exact Hm.
  - intros a. by apply emits_ret.
  - intros a c1 b c2 HQ1 [-> ->]. rewrite app_nil_r. by apply Himp.
Qed.

Lemma emits_sum2 (m1 m2 : M FS nat) (Q1 Q2 Q : nat → list FbxCall → Prop) :
  emits m1 Q1 → emits m2 Q2 →
  (∀ n c m c', Q1 n c → Q2 m c' → Q (n + m)%nat (c ++ c')) →
  emits (bind m1 (fun n => bind m2 (fun m => ret (n + m)%nat))) Q.
Proof.
  intros H1 H2 Hadd.
  eapply (emits_bind _ _ Q1 (fun n b c => ∃ m, b = (n + m)%nat ∧ Q2 m c)).
  - exact H1.
  - intros n. eapply emits_bind_ret; [exact H2|]. intros m c HQ2. by exists m.
  - intros n c1 b c2 HQ1 (m & -> & HQ2). by apply Hadd.
Qed.

Lemma all_objects_child n h objs children child o :
  child ∈ children → o ∈ all_objects child →
  o ∈ all_objects (Coll n h objs children).
Proof.
  intros Hchild Ho. simpl. apply elem_of_app. right.
  apply list_elem_of_In, in_concat. exists (all_objects child).
  split; [|by apply list_elem_of_In].
  apply in_map. by apply list_elem_of_In.
Qed.

Lemma collection_call_child context allowed_types n h objs children child call :
  child ∈ children →
  collection_call context allowed_types child call →
  collection_call context allowed_types (Coll n h objs children) call.
Proof.
  intros Hchild [(c & folder & Hc & Hpath) Hobjs]. split.
  - exists c, folder. split; [by eapply coll_in_child|done].
  - intros o Ho. destruct (Hobjs o Ho) as (Hall & Hrest).
    split; [by eapply all_objects_child|done].
Qed.

Lemma exported_of_elem context objects o :
  o ∈ exported_of context objects ↔
  o ∈ objects ∧ o ∈ view_layer_objects context ∧ selectable context o = true.
Proof.
  unfold exported_of.
  rewrite list_elem_of_filter, Is_true_true, andb_true_iff, bool_decide_eq_true.
  tauto.
Qed.

(** The call [export_fbx] makes for the collection's own file. *)
Lemma emits_collection_job context allowed_types collection folder objects :
  (∀ o, o ∈ objects → o ∈ all_objects collection
                      ∧ ob_type o ∈ allowed_types ∧ ob_hide_viewport o = false) →
  emits (FS:=FS)
    (bind (export_fbx context (os_path_join folder (coll_name collection +:+ ".fbx"))
                      objects)
          (fun ok => ret (count_of ok)))
    (fun n calls => n = length (records_of calls)
                    ∧ (length calls ≤ 1)%nat
                    ∧ Forall (collection_call context allowed_types collection) calls).
Proof.
  intros Hobjects. eapply emits_bind_ret; [apply emits_export_fbx|].
  intros ok calls (Hlen & Hrec & Hcalls). split; [done|]. split; [done|].
  eapply Forall_impl; [exact Hcalls|]. intros call [Hparams Hobjs]. split.
  - exists collection, folder. split; [apply coll_in_here|]. by rewrite Hparams.
  - intros o. rewrite Hobjs, exported_of_elem. intros (Ho & Hview & _).
    destruct (Hobjects o Ho) as (? & ? & ?). done.
Qed.

Lemma visible_allowed_spec allowed_types o :
  visible_allowed allowed_types o = true ↔
  ob_type o ∈ allowed_types ∧ ob_hide_viewport o = false.
Proof.
  unfold visible_allowed.
  rewrite andb_true_iff, bool_decide_eq_true, negb_true_iff. done.
Qed.

(** What [export_collection_recursive] emits. *)
Lemma emits_export_collection_recursive context collection :
  ∀ parent_dir allowed_types create_subfolder,
  emits (FS:=FS)
    (export_collection_recursive context collection parent_dir allowed_types
                                 create_subfolder)
    (fun n calls => n = length (records_of calls)
                    ∧ Forall (collection_call context allowed_types collection) calls).
Proof.
  induction collection as [name h objs children IH] using Collection_tree_ind.
  intros parent_dir allowed_types create_subfolder.
  set (self := Coll name h objs children).
  set (Q := fun (n : nat) calls =>
              n = length (records_of calls)
              ∧ Forall (collection_call context allowed_types self) calls).
  assert (Hzero : Q 0%nat []) by (split; [done|constructor]).
  assert (Hadd : ∀ n c m c', Q n c → Q m c' → Q (n + m)%nat (c ++ c')).
  { intros n c m c' [-> Hc] [-> Hc']. split.
    - by rewrite records_of_app, length_app.
    - by apply Forall_app. }
  assert (Hjob : ∀ folder objects,
             (∀ o, o ∈ objects → o ∈ all_objects self ∧ ob_type o ∈ allowed_types
                                 ∧ ob_hide_viewport o = false) →
             emits (FS:=FS)
               (bind (export_fbx context (os_path_join folder (name +:+ ".fbx")) objects)
                     (fun ok => ret (count_of ok))) Q).
  { intros folder objects Hobjects.
    eapply emits_weaken; [by apply (emits_collection_job _ allowed_types self)|].
    intros n c (? & _ & ?). by split. }
  assert (Hchildren : ∀ folder flag,
             emits (FS:=FS)
               (for_sum (fun child => export_collection_recursive context child folder
                                        allowed_types flag) children) Q).
  { intros folder flag. apply emits_for_sum; [|done|done].
    rewrite Forall_forall in IH. apply Forall_forall. intros child Hchild.
    eapply emits_weaken; [apply (IH child Hchild)|].
    intros n c [-> Hc]. split; [done|].
    eapply Forall_impl; [exact Hc|]. intros call. by apply collection_call_child. }
  assert (Hbody : ∀ folder,
             emits (FS:=FS)
               (if combine_nested_collections (props context)
                   && negb (bool_decide (children = []))
                then
                  match gather_all_objects_recursive self allowed_types with
                  | [] => ret 0%nat
                  | _ :: _ =>
                    bind (export_fbx context (os_path_join folder (name +:+ ".fbx"))
                                     (gather_all_objects_recursive self allowed_types))
                         (fun ok => ret (count_of ok))
                  end
                else
                  bind (match filter (visible_allowed allowed_types) objs with
                        | [] => ret 0%nat
                        | _ :: _ =>
                          bind (export_fbx context
                                  (os_path_join folder (name +:+ ".fbx"))
                                  (filter (visible_allowed allowed_types) objs))
                               (fun ok => ret (count_of ok))
                        end)
                       (fun n =>
                          bind (if separate_child_collections (props context)
                                then for_sum (fun child =>
                                       export_collection_recursive context child folder
                                         allowed_types true) children
                                else for_sum (fun child =>
                                       export_collection_recursive context child folder
                                         allowed_types false) children)
                               (fun m => ret (n + m)%nat))) Q).
  { intros folder.
    destruct (combine_nested_collections (props context)
              && negb (bool_decide (children = []))).
    - destruct (gather_all_objects_recursive self allowed_types) eqn:Hgather;
        [by apply emits_ret|].
      rewrite <- Hgather. apply Hjob. intros x.
      rewrite gather_all_objects_recursive_filter, list_elem_of_filter.
      intros [Hok Hx]. apply Is_true_true, visible_allowed_spec in Hok. tauto.
    - eapply (emits_sum2 _ _ Q Q Q); [| |exact Hadd].
      + destruct (filter (visible_allowed allowed_types) objs) eqn:Hdirect;
          [by apply emits_ret|].
        rewrite <- Hdirect. apply Hjob. intros x. rewrite list_elem_of_filter.
        intros [Hok Hx]. apply Is_true_true, visible_allowed_spec in Hok.
        split; [|tauto]. simpl. apply elem_of_app. by left.
      + destruct (separate_child_collections (props context)); apply Hchildren. }
  cbn [export_collection_recursive]. destruct create_subfolder; [|apply Hbody].
  apply emits_bind_quiet; [intros ? ? ?; apply quiet_ensure_directory|]. intros r.
  destruct (negb r.1); [|apply Hbody].
  apply emits_bind_quiet; [intros ? ? ?; apply quiet_report|]. intros _.
  by apply emits_ret.
Qed.

Lemma emits_if_nonempty {A B} (l : list B) (m1 m2 : M FS A)
    (Q : A → list FbxCall → Prop) :
  emits m1 Q → emits m2 Q →
  emits (match l with [] => m1 | _ :: _ => m2 end) Q.
Proof. by destruct l. Qed.

(** With [combine_nested_collections] set, a collection gives at most one
    exporter call, and a collection with children exports its whole
    gathered subtree in it. *)
Lemma emits_export_collection_combined context collection parent_dir
    allowed_types create_subfolder :
  combine_nested_collections (props context) = true →
  emits (FS:=FS)
    (export_collection_recursive context collection parent_dir allowed_types
                                 create_subfolder)
    (fun n calls =>
       (length calls ≤ 1)%nat
       ∧ (coll_children collection ≠ [] →
          Forall (fun c => call_objects c
                           = exported_of context
                               (gather_all_objects_recursive collection allowed_types))
                 calls)).
Proof.
  intros Hcombine. destruct collection as [name h objs children].
  set (self := Coll name h objs children).
  set (Q := fun (n : nat) calls =>
              (length calls ≤ 1)%nat
              ∧ (coll_children self ≠ [] →
                 Forall (fun c => call_objects c
                                  = exported_of context
                                      (gather_all_objects_recursive self allowed_types))
                        calls)).
  assert (Hzero : ∀ n, Q n []).
  { intros n. split; [simpl; lia|]. intros _. constructor. }
  assert (Hbody : ∀ folder,
             emits (FS:=FS)
               (if true && negb (bool_decide (children = []))
                then
                  match gather_all_objects_recursive self allowed_types with
                  | [] => ret 0%nat
                  | _ :: _ =>
                    bind (export_fbx context (os_path_join folder (name +:+ ".fbx"))
                                     (gather_all_objects_recursive self allowed_types))
                         (fun ok => ret (count_of ok))
                  end
                else
                  bind (match filter (visible_allowed allowed_types) objs with
                        | [] => ret 0%nat
                        | _ :: _ =>
                          bind (export_fbx context
                                  (os_path_join folder (name +:+ ".fbx"))
                                  (filter (visible_allowed allowed_types) objs))
                               (fun ok => ret (count_of ok))
                        end)
                       (fun n =>
                          bind (if separate_child_collections (props context)
                                then for_sum (fun child =>
                                       export_collection_recursive context child folder
                                         allowed_types true) children
                                else for_sum (fun child =>
                                       export_collection_recursive context child folder
                                         allowed_types false) children)
                               (fun m => ret (n + m)%nat))) Q).
  { intros folder. destruct (bool_decide_reflect (children = [])) as [->|Hne]; simpl.
    - eapply (emits_sum2 _ _ (fun _ c => (length c ≤ 1)%nat) (fun _ c => c = [])).
      + destruct (filter (visible_allowed allowed_types) objs) eqn:Hdirect;
          [apply emits_ret; simpl; lia|].
        eapply emits_bind_ret; [apply emits_export_fbx|]. by intros ok c (? & _).
      + destruct (separate_child_collections (props context)); by apply emits_ret.
      + intros n c m c' Hc ->. rewrite app_nil_r. split; [done|]. by intros [].
    - apply emits_if_nonempty; [by apply emits_ret|].
      eapply emits_bind_ret; [apply emits_export_fbx|].
      intros ok c (Hlen & _ & Hcalls). split; [done|]. intros _.
      eapply Forall_impl; [exact Hcalls|]. by intros call [_ ?]. }
  unfold self at 1. cbn [export_collection_recursive]. rewrite Hcombine.
  destruct create_subfolder; [|apply Hbody].
  apply emits_bind_quiet; [intros ? ? ?; apply quiet_ensure_directory|]. intros r.
  destruct (negb r.1); [|apply Hbody].
  apply emits_bind_quiet; [intros ? ? ?; apply quiet_report|]. intros _.
  by apply emits_ret.
Qed.

(** A loop that makes at most one call per element. *)
Lemma emits_for_sum_each {A} (f : A → M FS nat) (l : list A)
    (P : A → FbxCall → Prop) :
  (∀ x, x ∈ l →
        emits (f x) (fun n calls => n = length (records_of calls)
                                    ∧ (length calls ≤ 1)%nat ∧ Forall (P x) calls)) →
  emits (for_sum f l)
    (fun n calls => n = length (records_of calls)
                    ∧ (length calls ≤ length l)%nat
                    ∧ Forall (fun c => ∃ x, x ∈ l ∧ P x c) calls).
Proof.
  induction l as [|x l IH]; intros Hf; simpl.
  { apply emits_ret. split; [done|]. split; [simpl; lia|constructor]. }
  eapply emits_sum2; [apply Hf, list_elem_of_here| |].
  - apply IH. intros y Hy. apply Hf. by apply list_elem_of_further.
  - intros n c m c' (-> & Hlen & HP) (-> & Hlen' & HP').
    rewrite records_of_app, !length_app. split; [done|]. split; [lia|].
    apply Forall_app. split.
    + eapply Forall_impl; [exact HP|]. intros call Hcall. exists x.
      split; [apply list_elem_of_here|done].
    + eapply Forall_impl; [exact HP'|]. intros call (y & Hy & Hcall). exists y.
      split; [by apply list_elem_of_further|done].
Qed.

Context `{!PathLaws}.

(** A computation that returns and logs, with what it emits. *)
Lemma logs_emits {A} (m : M FS A) (Q : A → list FbxCall → Prop) :
  logs m → emits m Q →
  ∀ w, ∃ a w' calls,
    m w = Some (a, w')
    ∧ fbx_calls w' = fbx_calls w ++ calls
    ∧ exported_files w' = exported_files w ++ records_of calls
    ∧ summary_dialogs w' = summary_dialogs w
    ∧ Q a calls.
Proof.
  intros Hlogs Hemits w.
  destruct (Hlogs w) as (a & w' & Hrun & calls & Hcalls & Hfiles & Hdlg).
  destruct (Hemits _ _ _ Hrun) as (calls' & Hcalls' & HQ).
  rewrite Hcalls in Hcalls'. apply app_inv_head in Hcalls' as <-.
  by exists a, w', calls.
Qed.

(** X11.  The count [export_collection_recursive] returns is the number of
    items it has added to [exported_files], one for each exporter call
    that raised nothing. *)
Theorem export_collection_recursive_count context collection parent_dir
    allowed_types create_subfolder (w : World FS) :
  ∃ n w' calls,
    export_collection_recursive context collection parent_dir allowed_types
                                create_subfolder w = Some (n, w')
    ∧ fbx_calls w' = fbx_calls w ++ calls
    ∧ exported_files w' = exported_files w ++ records_of calls
    ∧ n = length (records_of calls)
    ∧ length (exported_files w') = (length (exported_files w) + n)%nat.
Proof.
  destruct (logs_emits _ _
              (logs_export_collection_recursive context collection parent_dir
                 allowed_types create_subfolder)
              (emits_export_collection_recursive context collection parent_dir
                 allowed_types create_subfolder) w)
    as (n & w' & calls & Hrun & Hcalls & Hfiles & _ & -> & _).
  exists (length (records_of calls)), w', calls.
  rewrite Hfiles, length_app. auto.
Qed.

(** X12.  Every exporter call [export_collection_recursive] makes writes a
    file named after a collection of the tree it was given, and exports
    only objects of that tree that are in the view layer, have an allowed
    type and are not hidden. *)
Theorem export_collection_recursive_exports_allowed context collection parent_dir
    allowed_types create_subfolder (w : World FS) :
  ∃ n w' calls,
    export_collection_recursive context collection parent_dir allowed_types
                                create_subfolder w = Some (n, w')
    ∧ fbx_calls w' = fbx_calls w ++ calls
    ∧ Forall (collection_call context allowed_types collection) calls.
Proof.
  destruct (logs_emits _ _
              (logs_export_collection_recursive context collection parent_dir
                 allowed_types create_subfolder)
              (emits_export_collection_recursive context collection parent_dir
                 allowed_types create_subfolder) w)
    as (n & w' & calls & Hrun & Hcalls & _ & _ & _ & Hall).
  by exists n, w', calls.
Qed.

(** X13.  With [combine_nested_collections] set, [export_collection_recursive]
    calls the exporter at most once for a collection and never descends
    into its children; for a collection that has children the one call
    exports the allowed, unhidden objects of the whole subtree that are in
    the view layer and that the host can select there. *)
Theorem export_collection_recursive_combined context collection parent_dir
    allowed_types create_subfolder (w : World FS) :
  combine_nested_collections (props context) = true →
  ∃ n w' calls,
    export_collection_recursive context collection parent_dir allowed_types
                                create_subfolder w = Some (n, w')
    ∧ fbx_calls w' = fbx_calls w ++ calls
    ∧ (length calls ≤ 1)%nat
    ∧ (coll_children collection ≠ [] →
       Forall (fun c =>
                 call_objects c
                 = filter (fun o =>
                             bool_decide
                               (o ∈ gather_all_objects_recursive collection
                                      allowed_types)
                             && selectable context o)
                          (view_layer_objects context))
              calls).
Proof.
  intros Hcombine.
  destruct (logs_emits _ _
              (logs_export_collection_recursive context collection parent_dir
                 allowed_types create_subfolder)
              (emits_export_collection_combined context collection parent_dir
                 allowed_types create_subfolder Hcombine) w)
    as (n & w' & calls & Hrun & Hcalls & _ & _ & Hlen & Hall).
  by exists n, w', calls.
Qed.
End ExporterCalls.

(** ** Grouping the selection by collection *)

Section SelectionGroups.

Lemma coll_map_get_setdefault_append c o coll_map c' :
  coll_map_get (setdefault_append c o coll_map) c'
  = if String.eqb (coll_name c) (coll_name c')
    then Some (default [] (coll_map_get coll_map c') ++ [o])
    else coll_map_get coll_map c'.
Proof.
  induction coll_map as [|[k objs] rest IH]; simpl.
  { by destruct (String.eqb (coll_name c) (coll_name c')). }
  destruct (String.eqb_spec (coll_name k) (coll_name c)) as [Hkc|Hkc]; simpl.
  - destruct (String.eqb_spec (coll_name k) (coll_name c')) as [Hkc'|Hkc'].
    + rewrite <- Hkc, Hkc', String.eqb_refl. done.
    + destruct (String.eqb_spec (coll_name c) (coll_name c')); [congruence|done].
  - destruct (String.eqb_spec (coll_name k) (coll_name c')) as [Hkc'|Hkc'].
    + destruct (String.eqb_spec (coll_name c) (coll_name c')); [congruence|done].
    + apply IH.
Qed.

Lemma setdefault_append_names c o coll_map :
  coll_name <$> (setdefault_append c o coll_map).*1
  = (coll_name <$> coll_map.*1)
    ++ (if bool_decide (coll_name c ∈ coll_name <$> coll_map.*1) then []
        else [coll_name c]).
Proof.
  induction coll_map as [|[k objs] rest IH]; [done|].
  cbn [setdefault_append].
  destruct (String.eqb_spec (coll_name k) (coll_name c)) as [Hkc|Hkc];
    rewrite !fmap_cons; cbn [fst].
  - rewrite bool_decide_eq_true_2, app_nil_r; [done|].
    rewrite Hkc. apply list_elem_of_here.
  - rewrite IH. cbn [app]. f_equal. f_equal.
    rewrite (bool_decide_ext (coll_name c ∈ coll_name k :: (coll_name <$> rest.*1))
                             (coll_name c ∈ coll_name <$> rest.*1)); [done|].
    rewrite elem_of_cons. split; [|by right]. intros [?|?]; [congruence|done].
Qed.

Lemma setdefault_append_NoDup c o coll_map :
  NoDup (coll_name <$> coll_map.*1) →
  NoDup (coll_name <$> (setdefault_append c o coll_map).*1).
Proof.
  intros Hnd. rewrite setdefault_append_names.
  destruct (bool_decide_reflect (coll_name c ∈ coll_name <$> coll_map.*1)).
  - by rewrite app_nil_r.
  - apply NoDup_app. split; [done|]. split; [|apply NoDup_singleton].
    intros x Hx ->%list_elem_of_singleton. done.
Qed.

(** The two nested loops of [gather_selected_by_collection] run through
    the (collection, object) pairs of the selection in order. *)
Lemma gather_selected_by_collection_pairs context selected_objs coll_map :
  fold_left (fun coll_map obj =>
               fold_left (fun coll_map coll => setdefault_append coll obj coll_map)
                         (users_collection context obj) coll_map)
            selected_objs coll_map
  = fold_left (fun coll_map ev => setdefault_append ev.1 ev.2 coll_map)
              (flat_map (fun obj => map (fun coll => (coll, obj))
                                        (users_collection context obj))
                        selected_objs)
              coll_map.
Proof.
  revert coll_map. induction selected_objs as [|obj rest IH]; intros coll_map; simpl;
    [done|].
  rewrite fold_left_app, IH. f_equal.
  generalize (users_collection context obj). intros colls. revert coll_map.
  induction colls as [|c colls IHc]; intros coll_map; simpl; [done|]. apply IHc.
Qed.

Lemma coll_map_get_pairs (events : list (Collection * Object)) : ∀ coll_map c,
  coll_map_get (fold_left (fun coll_map ev => setdefault_append ev.1 ev.2 coll_map)
                          events coll_map) c
  = match coll_map_get coll_map c,
          (filter (fun ev => bool_decide (coll_name ev.1 = coll_name c)) events).*2
    with
    | None, [] => None
    | None, (_ :: _) as added => Some added
    | Some objs, added => Some (objs ++ added)
    end.
Proof.
  induction events as [|[k o] events IH]; intros coll_map c; simpl.
  { destruct (coll_map_get coll_map c); [by rewrite app_nil_r|done]. }
  rewrite IH, coll_map_get_setdefault_append, filter_cons. simpl.
  destruct (String.eqb_spec (coll_name k) (coll_name c)) as [Hk|Hk].
  - rewrite bool_decide_eq_true_2 by done. simpl.
    destruct (coll_map_get coll_map c) as [objs|]; simpl; [|done].
    by rewrite <- app_assoc.
  - rewrite bool_decide_eq_false_2 by done. done.
Qed.

(** X14.  [gather_selected_by_collection] has one entry per collection
    name in use; the group of a collection holds exactly the selected
    objects that belong to a collection of that name and is never empty;
    a collection without an entry is used by no selected object. *)
Theorem gather_selected_by_collection_spec context selected_objs :
  NoDup (coll_name <$> (gather_selected_by_collection context selected_objs).*1)
  ∧ ∀ c,
      match coll_map_get (gather_selected_by_collection context selected_objs) c with
      | Some objs =>
        objs ≠ []
        ∧ ∀ o, o ∈ objs ↔
               o ∈ selected_objs
               ∧ ∃ c', c' ∈ users_collection context o ∧ coll_name c' = coll_name c
      | None =>
        ∀ o c', o ∈ selected_objs → c' ∈ users_collection context o →
                coll_name c' ≠ coll_name c
      end.
Proof.
  unfold gather_selected_by_collection. split.
  { apply (fold_left_keeps _ (fun m => NoDup (coll_name <$> m.*1)));
      [|constructor].
    intros m obj _ Hm.
    apply (fold_left_keeps _ (fun m => NoDup (coll_name <$> m.*1))); [|done].
    intros m' coll _. apply setdefault_append_NoDup. }
  intros c. rewrite gather_selected_by_collection_pairs, coll_map_get_pairs. simpl.
  set (events := flat_map (fun obj => map (fun coll => (coll, obj))
                                          (users_collection context obj))
                          selected_objs).
  assert (Hmem : ∀ o, o ∈ (filter (fun ev => bool_decide (coll_name ev.1 = coll_name c))
                                  events).*2 ↔
                      o ∈ selected_objs
                      ∧ ∃ c', c' ∈ users_collection context o
                              ∧ coll_name c' = coll_name c).
  { intros o. rewrite list_elem_of_fmap. split.
    - intros ([c' o'] & -> & Hev). apply list_elem_of_filter in Hev as [Hname Hev].
      apply bool_decide_unpack in Hname. simpl in *.
      apply list_elem_of_In, in_flat_map in Hev as (obj & Hobj & Hpair).
      apply in_map_iff in Hpair as (c'' & [= <- <-] & Hc'').
      split; [by apply list_elem_of_In|]. exists c''.
      split; [by apply list_elem_of_In|done].
    - intros (Ho & c' & Hc' & Hname). exists (c', o). split; [done|].
      apply list_elem_of_filter. split; [by apply bool_decide_pack|].
      apply list_elem_of_In, in_flat_map. exists o.
      split; [by apply list_elem_of_In|].
      apply in_map_iff. exists c'. split; [done|]. by apply list_elem_of_In. }
  destruct ((filter _ events).*2) as [|o0 added] eqn:Hadded.
  - intros o c' Ho Hc' Hname.
    assert (Hin : o ∈ @nil Object) by (apply Hmem; eauto).
    by apply elem_of_nil in Hin.
  - split; [done|]. exact Hmem.
Qed.
End SelectionGroups.

(** ** Exporter calls in selection mode *)

Section SelectionCalls.
Context `{OsPath} {FS : Type} `{!FileSystem FS} `{!Host FS}.

Lemma size_add_le (x : string) (X : gset string) :
  (size ({[x]} ∪ X) ≤ S (size X))%nat.
Proof.
  destruct (decide (x ∈ X)) as [Hin|Hout].
  - rewrite (subseteq_union_1_L {[x]} X); [lia|]. by apply singleton_subseteq_l.
  - rewrite size_union, size_singleton; [lia|]. by apply disjoint_singleton_l.
Qed.

Lemma size_key_names_le (coll_map : list (Collection * list Object)) :
  (size (key_names coll_map) ≤ length coll_map)%nat.
Proof.
  unfold key_names. rewrite <- (length_fmap fst coll_map), <- (length_fmap coll_name).
  generalize (coll_name <$> coll_map.*1). intros l.
  induction l as [|a l IH]; [done|]. rewrite list_to_set_cons.
  etrans; [apply size_add_le|]. simpl. lia.
Qed.

Lemma coll_map_get_key coll_map c :
  is_Some (coll_map_get coll_map c) → coll_name c ∈ key_names coll_map.
Proof.
  unfold key_names. rewrite elem_of_list_to_set.
  induction coll_map as [|[k objs] rest IH]; simpl; [by intros [? ?]|].
  destruct (String.eqb_spec (coll_name k) (coll_name c)) as [<-|Hk].
  - intros _. apply list_elem_of_here.
  - intros Hrest. apply list_elem_of_further. by apply IH.
Qed.

(** What [export_selected_as_collections] emits. *)
Lemma emits_export_selected_as_collections context coll_map parent_coll :
  ∀ parent_dir visited,
  emits (FS:=FS)
    (export_selected_as_collections context coll_map parent_coll parent_dir visited)
    (visit_result context coll_map (coll_name parent_coll) visited).
Proof.
  induction parent_coll as [name h objs children IH] using Collection_tree_ind.
  intros parent_dir visited. cbn [export_selected_as_collections coll_name].
  destruct (bool_decide_reflect (name ∈ visited)) as [Hin|Hout].
  { apply emits_ret. unfold visit_result. simpl.
    split; [done|]. split; [done|]. split; [lia|]. split; [|constructor].
    intros x Hx. apply elem_of_union. left. apply elem_of_union. by left. }
  assert (Hsize : size ({[name]} ∪ visited) = S (size visited)).
  { rewrite size_union, size_singleton; [done|]. by apply disjoint_singleton_l. }
  assert (Hstop : visit_result context coll_map name visited
                               (0%nat, {[name]} ∪ visited) []).
  { unfold visit_result. simpl. split; [done|].
    split; [apply union_subseteq_r|]. split; [lia|]. split; [|constructor].
    intros x [Hx|Hx]%elem_of_union; apply elem_of_union; left; apply elem_of_union;
      [by right|by left]. }
  apply emits_bind_quiet; [intros ? ? ?; apply quiet_ensure_directory|]. intros r.
  destruct (negb r.1).
  { apply emits_bind_quiet; [intros ? ? ?; apply quiet_report|]. intros _.
    by apply emits_ret. }
  pose (Qloop := fun (count : nat) (v : gset string) (r : nat * gset string)
                     (calls : list FbxCall) =>
                   r.1 = (count + length (records_of calls))%nat
                   ∧ v ⊆ r.2
                   ∧ (length calls + size v ≤ size r.2)%nat
                   ∧ r.2 ⊆ v ∪ key_names coll_map
                   ∧ Forall (group_call context coll_map) calls).
  eapply (emits_bind _ _
            (fun n calls => n = length (records_of calls)
                            ∧ (length calls ≤ 1)%nat
                            ∧ Forall (group_call context coll_map) calls)
            (fun n => Qloop n ({[name]} ∪ visited))).
  - destruct (coll_map_get coll_map (Coll name h objs children)) as [group|] eqn:Hget;
      [|apply emits_ret; split; [done|]; split; [simpl; lia|constructor]].
    apply emits_if_nonempty.
    + apply emits_ret. split; [done|]. split; [simpl; lia|constructor].
    + eapply emits_bind_ret; [apply emits_export_fbx|].
      intros ok calls (Hlen & Hrec & Hcalls). split; [done|]. split; [done|].
      eapply Forall_impl; [exact Hcalls|]. intros call [Hparams Hobjs].
      exists (Coll name h objs children), group, (os_path_join parent_dir name).
      split; [done|]. split; [|done]. by rewrite Hparams.
  - intros n. generalize ({[name]} ∪ visited). revert n. clear Hsize Hstop Hout.
    induction IH as [|child children Hchild _ IHloop]; intros n v.
    + apply emits_ret. unfold Qloop. simpl. split; [lia|]. split; [done|].
      split; [lia|]. split; [apply union_subseteq_l|constructor].
    + destruct (coll_map_get coll_map child) as [group|] eqn:Hget; [|apply IHloop].
      eapply (emits_bind _ _ (visit_result context coll_map (coll_name child) v)
                (fun res => Qloop (n + res.1)%nat res.2)); [apply Hchild| |].
      * intros res. apply IHloop.
      * intros res c1 res' c2 (Hn1 & Hsub1 & Hsz1 & Hkeys1 & Hall1)
               (Hn2 & Hsub2 & Hsz2 & Hkeys2 & Hall2).
        unfold Qloop. rewrite records_of_app, !length_app.
        split; [lia|]. split; [by etrans|]. split; [lia|].
        split; [|by apply Forall_app].
        assert (Hkey : coll_name child ∈ key_names coll_map).
        { apply coll_map_get_key. by rewrite Hget. }
        intros x Hx. apply Hkeys2 in Hx. apply elem_of_union in Hx as [Hx|Hx];
          [|apply elem_of_union; by right].
        apply Hkeys1 in Hx. apply elem_of_union in Hx as [Hx|Hx];
          [|apply elem_of_union; by right].
        apply elem_of_union in Hx as [Hx|Hx]; apply elem_of_union; [by left|].
        apply elem_of_singleton in Hx as ->. by right.
  - intros n c1 res c2 (Hn1 & Hlen1 & Hall1) (Hn2 & Hsub2 & Hsz2 & Hkeys2 & Hall2).
    unfold visit_result. rewrite records_of_app, !length_app.
    split; [lia|]. split; [etrans; [apply union_subseteq_r|exact Hsub2]|].
    split; [lia|]. split; [|by apply Forall_app].
    intros x Hx. apply Hkeys2 in Hx. apply elem_of_union in Hx as [Hx|Hx];
      [|apply elem_of_union; by right].
    apply elem_of_union. left. apply elem_of_union in Hx as [Hx|Hx];
      apply elem_of_union; [by right|by left].
Qed.

(** The loop of [execute] over the top-level groups, when these are keys
    of [coll_map]. *)
Lemma emits_export_top_level_groups context coll_map top_level directory :
  (∀ c, c ∈ top_level → coll_name c ∈ key_names coll_map) →
  ∀ visited,
  emits (FS:=FS)
    (export_top_level_groups context coll_map top_level directory visited)
    (fun n calls =>
       n = length (records_of calls)
       ∧ (∃ visited', visited ⊆ visited'
                      ∧ (length calls + size visited ≤ size visited')%nat
                      ∧ visited' ⊆ visited ∪ key_names coll_map)
       ∧ Forall (group_call context coll_map) calls).
Proof.
  induction top_level as [|top rest IH]; intros Htop visited; simpl.
  { apply emits_ret. split; [done|]. split; [|constructor].
    exists visited. split; [done|]. split; [simpl; lia|apply union_subseteq_l]. }
  eapply (emits_bind _ _ (visit_result context coll_map (coll_name top) visited)
            (fun r b calls =>
               ∃ m, b = (r.1 + m)%nat ∧ m = length (records_of calls)
                    ∧ (∃ visited', r.2 ⊆ visited'
                                   ∧ (length calls + size r.2 ≤ size visited')%nat
                                   ∧ visited' ⊆ r.2 ∪ key_names coll_map)
                    ∧ Forall (group_call context coll_map) calls)).
  - apply emits_export_selected_as_collections.
  - intros r. eapply emits_bind_ret.
    + apply IH. intros c Hc. apply Htop. by apply list_elem_of_further.
    + intros m calls (Hm & Hv & Hall). by exists m.
  - intros r c1 b c2 (Hn1 & Hsub1 & Hsz1 & Hkeys1 & Hall1)
           (m & -> & -> & (v' & Hsub2 & Hsz2 & Hkeys2) & Hall2).
    rewrite records_of_app, !length_app. split; [lia|].
    split; [|by apply Forall_app].
    exists v'. split; [by etrans|]. split; [lia|].
    assert (Hkey : coll_name top ∈ key_names coll_map).
    { apply Htop, list_elem_of_here. }
    intros x Hx. apply Hkeys2 in Hx. apply elem_of_union in Hx as [Hx|Hx];
      [|apply elem_of_union; by right].
    apply Hkeys1 in Hx. apply elem_of_union in Hx as [Hx|Hx];
      [|apply elem_of_union; by right].
    apply elem_of_union in Hx as [Hx|Hx]; apply elem_of_union; [by left|].
    apply elem_of_singleton in Hx as ->. by right.
Qed.

(** The job of [export_selected_each_object] for one object. *)
Lemma emits_each_object_job context directory obj :
  emits (FS:=FS)
    (if make_separate_folders (props context) then
       bind (ensure_directory (os_path_join directory (ob_name obj)))
            (fun r =>
               if negb r.1 then bind (report ERROR r.2) (fun _ => ret 0%nat)
               else bind (export_fbx context
                            (os_path_join (os_path_join directory (ob_name obj))
                                          (ob_name obj +:+ ".fbx")) [obj])
                         (fun ok => ret (count_of ok)))
     else bind (export_fbx context (os_path_join directory (ob_name obj +:+ ".fbx"))
                           [obj])
               (fun ok => ret (count_of ok)))
    (fun n calls =>
       n = length (records_of calls) ∧ (length calls ≤ 1)%nat
       ∧ Forall (fun c => call_objects c = exported_of context [obj]
                          ∧ ∃ folder, Fbx.filepath (call_params c)
                                      = os_path_join folder (ob_name obj +:+ ".fbx"))
                calls).
Proof.
  assert (Hjob : ∀ folder,
             emits (FS:=FS)
               (bind (export_fbx context (os_path_join folder (ob_name obj +:+ ".fbx"))
                                 [obj])
                     (fun ok => ret (count_of ok)))
               (fun n calls =>
                  n = length (records_of calls) ∧ (length calls ≤ 1)%nat
                  ∧ Forall (fun c => call_objects c = exported_of context [obj]
                                     ∧ ∃ folder, Fbx.filepath (call_params c)
                                                 = os_path_join folder
                                                     (ob_name obj +:+ ".fbx"))
                           calls)).
  { intros folder. eapply emits_bind_ret; [apply emits_export_fbx|].
    intros ok calls (Hlen & Hrec & Hcalls). split; [done|]. split; [done|].
    eapply Forall_impl; [exact Hcalls|]. intros call [Hparams Hobjs].
    split; [done|]. exists folder. by rewrite Hparams. }
  destruct (make_separate_folders (props context)); [|apply Hjob].
  apply emits_bind_quiet; [intros ? ? ?; apply quiet_ensure_directory|]. intros r.
  destruct (negb r.1); [|apply Hjob].
  apply emits_bind_quiet; [intros ? ? ?; apply quiet_report|]. intros _.
  apply emits_ret. split; [done|]. split; [simpl; lia|constructor].
Qed.

(** What [export_selected_each_object] emits: at most one call per
    object, for that object alone. *)
Lemma emits_export_selected_each_object context selected_objs directory :
  emits (FS:=FS)
    (export_selected_each_object context selected_objs directory)
    (fun n calls =>
       n = length (records_of calls)
       ∧ (length calls ≤ length selected_objs)%nat
       ∧ Forall (fun c => ∃ obj, obj ∈ selected_objs
                                 ∧ call_objects c = exported_of context [obj]
                                 ∧ ∃ folder, Fbx.filepath (call_params c)
                                             = os_path_join folder
                                                 (ob_name obj +:+ ".fbx"))
                calls).
Proof.
  unfold export_selected_each_object.
  apply (emits_for_sum_each _ _
           (fun obj c => call_objects c = exported_of context [obj]
                         ∧ ∃ folder, Fbx.filepath (call_params c)
                                     = os_path_join folder (ob_name obj +:+ ".fbx"))).
  intros obj _. apply emits_each_object_job.
Qed.

(** A loop that makes at most one call per element makes its calls for a
    sublist of its list, in order. *)
Lemma emits_for_sum_sublist {A} (f : A → M FS nat) (l : list A)
    (P : FbxCall → A → Prop) :
  (∀ x, x ∈ l →
        emits (f x) (fun n calls => n = length (records_of calls)
                                    ∧ (length calls ≤ 1)%nat
                                    ∧ Forall (fun c => P c x) calls)) →
  emits (for_sum f l)
    (fun n calls => n = length (records_of calls)
                    ∧ ∃ l', sublist l' l ∧ Forall2 P calls l').
Proof.
  induction l as [|x l IH]; intros Hf; simpl.
  { apply emits_ret. split; [done|]. exists []. split; constructor. }
  eapply emits_sum2; [apply Hf, list_elem_of_here| |].
  - apply IH. intros y Hy. apply Hf. by apply list_elem_of_further.
  - intros n c m c' (-> & Hlen & HP) (-> & l' & Hsub & Hall).
    rewrite records_of_app, length_app. split; [done|].
    destruct c as [|call [|call' c]]; [| |simpl in Hlen; lia].
    + exists l'. split; [by apply sublist_cons|done].
    + exists (x :: l'). split; [by apply sublist_skip|]. simpl.
      constructor; [by apply Forall_inv in HP|done].
Qed.

(** The calls of [export_selected_each_object] follow the list. *)
Lemma emits_export_selected_each_object_order context selected_objs directory :
  emits (FS:=FS)
    (export_selected_each_object context selected_objs directory)
    (fun n calls =>
       n = length (records_of calls)
       ∧ ∃ objs, sublist objs selected_objs
                 ∧ Forall2 (fun c obj =>
                              call_objects c = exported_of context [obj]
                              ∧ ∃ folder, Fbx.filepath (call_params c)
                                          = os_path_join folder
                                              (ob_name obj +:+ ".fbx"))
                           calls objs).
Proof.
  unfold export_selected_each_object.
  apply (emits_for_sum_sublist _ _
           (fun c obj => call_objects c = exported_of context [obj]
                         ∧ ∃ folder, Fbx.filepath (call_params c)
                                     = os_path_join folder (ob_name obj +:+ ".fbx"))).
  intros obj _. apply emits_each_object_job.
Qed.

(** *** No collection twice *)

Lemma visit_names_refl context coll_map (v : gset string) :
  visit_names context coll_map v v [].
Proof.
  split; [done|]. exists []. split; [constructor|]. split; [constructor|].
  intros x Hx. by apply elem_of_nil in Hx.
Qed.

Lemma visit_names_grow context coll_map (v v' : gset string) :
  v ⊆ v' → visit_names context coll_map v v' [].
Proof.
  intros Hsub. split; [done|]. exists []. split; [constructor|].
  split; [constructor|]. intros x Hx. by apply elem_of_nil in Hx.
Qed.

Lemma visit_names_trans context coll_map (v1 v2 v3 : gset string) c1 c2 :
  visit_names context coll_map v1 v2 c1 →
  visit_names context coll_map v2 v3 c2 →
  visit_names context coll_map v1 v3 (c1 ++ c2).
Proof.
  intros (Hsub1 & n1 & Hc1 & Hnd1 & Hin1) (Hsub2 & n2 & Hc2 & Hnd2 & Hin2).
  split; [by etrans|]. exists (n1 ++ n2). split; [by apply Forall2_app|]. split.
  - apply NoDup_app. split; [done|]. split; [|done].
    intros x Hx1 Hx2. destruct (Hin2 x Hx2) as [Hout _]. apply Hout.
    by apply Hin1.
  - intros x [Hx|Hx]%elem_of_app.
    + destruct (Hin1 x Hx) as [Hout Hin]. split; [done|]. by apply Hsub2.
    + destruct (Hin2 x Hx) as [Hout Hin]. split; [|done].
      intros Hv. apply Hout. by apply Hsub1.
Qed.

(** The calls of [export_selected_as_collections] are for collections it
    had not visited, each at most once. *)
Lemma emits_export_selected_as_collections_names context coll_map parent_coll :
  ∀ parent_dir visited,
  emits (FS:=FS)
    (export_selected_as_collections context coll_map parent_coll parent_dir visited)
    (fun r calls => visit_names context coll_map visited r.2 calls).
Proof.
  induction parent_coll as [name h objs children IH] using Collection_tree_ind.
  intros parent_dir visited. cbn [export_selected_as_collections].
  destruct (bool_decide_reflect (name ∈ visited)) as [Hin|Hout].
  { apply emits_ret. apply visit_names_refl. }
  assert (Hstop : visit_names context coll_map visited ({[name]} ∪ visited) []).
  { apply visit_names_grow, union_subseteq_r. }
  apply emits_bind_quiet; [intros ? ? ?; apply quiet_ensure_directory|]. intros r.
  destruct (negb r.1).
  { apply emits_bind_quiet; [intros ? ? ?; apply quiet_report|]. intros _.
    by apply emits_ret. }
  eapply (emits_bind _ _
            (fun _ calls => visit_names context coll_map visited
                                        ({[name]} ∪ visited) calls)
            (fun _ res calls => visit_names context coll_map
                                            ({[name]} ∪ visited) res.2 calls)).
  - destruct (coll_map_get coll_map (Coll name h objs children))
      as [[|o group]|] eqn:Hget.
    + by apply emits_ret.
    + eapply emits_bind_ret; [apply emits_export_fbx|].
      intros ok calls (Hlen & _ & Hcalls).
      destruct calls as [|c [|c' calls]]; [done| |simpl in Hlen; lia].
      split; [apply union_subseteq_r|]. exists [name]. split.
      * constructor; [|constructor]. apply Forall_inv in Hcalls as [Hparams Hobjs].
        exists (Coll name h objs children), (o :: group),
               (os_path_join parent_dir name).
        split; [done|]. split; [done|]. split; [by rewrite Hparams|done].
      * split; [apply NoDup_singleton|]. intros x ->%list_elem_of_singleton.
        split; [done|]. apply elem_of_union. left. by apply elem_of_singleton.
    + by apply emits_ret.
  - intros n. generalize ({[name]} ∪ visited). revert n. clear Hstop Hout.
    induction IH as [|child children Hchild _ IHloop]; intros n v.
    + apply emits_ret. apply visit_names_refl.
    + destruct (coll_map_get coll_map child); [|apply IHloop].
      eapply (emits_bind _ _
                (fun res calls => visit_names context coll_map v res.2 calls)
                (fun res res' calls =>
                   visit_names context coll_map res.2 res'.2 calls));
        [apply Hchild|intros res; apply IHloop|].
      intros res c1 res' c2. apply visit_names_trans.
  - intros n c1 res c2. apply visit_names_trans.
Qed.
End SelectionCalls.

(** ** A whole run, call by call *)

Section RunDetail.
Context `{OsPath} {FS : Type} `{!FileSystem FS} `{!Host FS}.

Lemma bind_inv {A B} (m : M FS A) (k : A → M FS B) w b w' :
  bind m k w = Some (b, w') →
  ∃ a w1, m w = Some (a, w1) ∧ k a w1 = Some (b, w').
Proof.
  unfold bind. destruct (m w) as [[a w1]|]; [|done]. intros Hk. by exists a, w1.
Qed.

Lemma emits_and {A} (m : M FS A) (Q1 Q2 : A → list FbxCall → Prop) :
  emits m Q1 → emits m Q2 → emits m (fun a c => Q1 a c ∧ Q2 a c).
Proof.
  intros H1 H2 w a w' Hrun.
  destruct (H1 _ _ _ Hrun) as (c1 & Hc1 & HQ1).
  destruct (H2 _ _ _ Hrun) as (c2 & Hc2 & HQ2).
  rewrite Hc1 in Hc2. apply app_inv_head in Hc2 as <-. by exists c1.
Qed.

(** A loop whose calls are tagged with the element they were made for. *)
Lemma emits_for_sum_tagged {A} (f : A → M FS nat) (l : list A)
    (P : A → FbxCall → Prop) :
  (∀ x, x ∈ l →
        emits (f x) (fun n calls => n = length (records_of calls)
                                    ∧ Forall (P x) calls)) →
  emits (for_sum f l)
    (fun n calls => n = length (records_of calls)
                    ∧ Forall (fun c => ∃ x, x ∈ l ∧ P x c) calls).
Proof.
  induction l as [|x l IH]; intros Hf; simpl.
  { apply emits_ret. split; [done|constructor]. }
  eapply emits_sum2; [apply Hf, list_elem_of_here| |].
  - apply IH. intros y Hy. apply Hf. by apply list_elem_of_further.
  - intros n c m c' (-> & HP) (-> & HP').
    rewrite records_of_app, !length_app. split; [done|].
    apply Forall_app. split.
    + eapply Forall_impl; [exact HP|]. intros call Hcall. exists x.
      split; [apply list_elem_of_here|done].
    + eapply Forall_impl; [exact HP'|]. intros call (y & Hy & Hcall). exists y.
      split; [by apply list_elem_of_further|done].
Qed.

(** The restoring lines call no exporter and report nothing. *)
Lemma restore_and_present_quiet context orig_sel orig_active (w w' : World FS)
    status :
  restore_and_present context orig_sel orig_active w = Some (status, w') →
  status = FINISHED
  ∧ fbx_calls w' = fbx_calls w ∧ reports w' = reports w
  ∧ w_mode w' = w_mode w ∧ w_fs w' = w_fs w.
Proof.
  unfold restore_and_present. erewrite bind_some by reflexivity.
  match goal with
  | |- context [bind (for_each (select_set ?ctx) ?l) _ ?w0] =>
    destruct (for_each_select_set ctx l w0)
      as (w1 & Hsel & _ & Hfs & Hmode & _ & _ & Hreports & Hcalls & _)
  end.
  erewrite bind_some by exact Hsel. simpl in *.
  destruct orig_active as [a|]; unfold bind, set_active, ret, get_world; simpl;
    destruct (exported_files w1); simpl; intros [= <- <-]; simpl; auto.
Qed.

(** A pass that ends with its INFO report, followed by the restoring
    lines. *)
Lemma pass_then_restore {A} (m : M FS A) (msg : A → string)
    (Q : A → list FbxCall → Prop) context orig_sel orig_active
    (w1 w' : World FS) status :
  emits m Q →
  bind (bind m (fun a => report INFO (msg a)))
       (fun _ => restore_and_present context orig_sel orig_active) w1
  = Some (status, w') →
  status = FINISHED
  ∧ ∃ a calls earlier,
      fbx_calls w' = fbx_calls w1 ++ calls ∧ Q a calls
      ∧ reports w' = earlier ++ [(INFO, msg a)].
Proof.
  intros Hm Hrun.
  apply bind_inv in Hrun as ([] & wb & Hpass & Hrestore).
  apply bind_inv in Hpass as (a & wa & Hma & Hreport).
  injection Hreport as <-.
  apply restore_and_present_quiet in Hrestore as (-> & Hcalls & Hreports & _).
  destruct (Hm _ _ _ Hma) as (calls & Hc & HQ).
  split; [done|]. exists a, calls, (reports wa).
  rewrite Hcalls, Hreports. simpl. auto.
Qed.

Lemma gather_group_selected context selected_objs c objs o :
  coll_map_get (gather_selected_by_collection context selected_objs) c = Some objs →
  o ∈ objs → o ∈ selected_objs.
Proof.
  unfold gather_selected_by_collection.
  rewrite gather_selected_by_collection_pairs, coll_map_get_pairs. simpl.
  assert (Hsel : ∀ l, o ∈ (filter (fun ev : Collection * Object =>
                                     bool_decide (coll_name ev.1 = coll_name c))
                                  (flat_map (fun obj => map (fun coll => (coll, obj))
                                               (users_collection context obj)) l)).*2 →
                      o ∈ l).
  { intros l. rewrite list_elem_of_fmap. intros ([c' o'] & -> & Hev).
    apply list_elem_of_filter in Hev as [_ Hev].
    apply list_elem_of_In, in_flat_map in Hev as (obj & Hobj & Hpair).
    apply in_map_iff in Hpair as (c'' & [= <- <-] & _). by apply list_elem_of_In. }
  destruct ((filter _ _).*2) eqn:Hadded; [done|].
  intros [= <-]. rewrite <- Hadded. apply Hsel.
Qed.

Lemma coll_map_get_values (coll_map : list (Collection * list Object)) c objs :
  coll_map_get coll_map c = Some objs → objs ∈ coll_map.*2.
Proof.
  induction coll_map as [|[k group] rest IH]; simpl; [done|].
  destruct (String.eqb (coll_name k) (coll_name c)).
  - intros [= ->]. apply list_elem_of_here.
  - intros Hrest. apply list_elem_of_further. by apply IH.
Qed.

End RunDetail.

(** ** The active object through a run *)

Section Respects.
Context `{OsPath} {FS : Type} `{!FileSystem FS} `{!Host FS}.
Variable R : World FS → World FS → Prop.
Hypothesis R_refl : ∀ w, R w w.
Hypothesis R_trans : ∀ w1 w2 w3, R w1 w2 → R w2 w3 → R w1 w3.

Lemma respects_ret {A} (a : A) : respects (FS:=FS) R (ret a).
Proof. by intros w b w' [= <- <-]. Qed.

Lemma respects_bind {A B} (m : M FS A) (k : A → M FS B) :
  respects R m → (∀ a, respects R (k a)) → respects R (bind m k).
Proof.
  intros Hm Hk w b w' Hrun. apply bind_inv in Hrun as (a & w1 & Hma & Hkb).
  eapply R_trans; [by eapply Hm|by eapply Hk].
Qed.

Lemma respects_for_sum {A} (f : A → M FS nat) l :
  Forall (fun x => respects R (f x)) l → respects R (for_sum f l).
Proof.
  induction 1 as [|x l Hx _ IH]; simpl; [apply respects_ret|].
  apply respects_bind; [done|]. intros n.
  apply respects_bind; [done|]. intros m. apply respects_ret.
Qed.

Variable context : Context.
Hypothesis R_report : ∀ sev msg, respects (FS:=FS) R (report sev msg).
Hypothesis R_ensure_directory : ∀ path, respects (FS:=FS) R (ensure_directory path).
Hypothesis R_export_fbx :
  ∀ filepath objects, respects (FS:=FS) R (export_fbx context filepath objects).

(** Goals of the form [respects R m] follow the shape of [m]. *)
Ltac respects_shape :=
  repeat first
    [ apply respects_ret
    | apply R_report
    | apply R_export_fbx
    | apply R_ensure_directory
    | apply respects_bind; [|intros ?]
    | match goal with
      | |- respects _ (if ?b then _ else _) => destruct b
      | |- respects _ (match ?x with _ => _ end) => destruct x
      end ].

Lemma respects_export_collection_recursive collection :
  ∀ parent_dir allowed_types create_subfolder,
  respects (FS:=FS) R (export_collection_recursive context collection parent_dir
                                                   allowed_types create_subfolder).
Proof.
  induction collection as [name h objs children IH] using Collection_tree_ind.
  intros parent_dir allowed_types create_subfolder.
  cbn [export_collection_recursive].
  respects_shape; apply respects_for_sum; (eapply Forall_impl; [exact IH|]);
    intros child Hchild; apply Hchild.
Qed.

Lemma respects_export_selected_as_collections coll_map parent_coll :
  ∀ parent_dir visited,
  respects (FS:=FS) R (export_selected_as_collections context coll_map parent_coll
                                                      parent_dir visited).
Proof.
  induction parent_coll as [name h objs children IH] using Collection_tree_ind.
  intros parent_dir visited. cbn [export_selected_as_collections].
  destruct (bool_decide (name ∈ visited)); [apply respects_ret|].
  apply respects_bind; [apply R_ensure_directory|]. intros r.
  destruct (negb r.1); [respects_shape|].
  apply respects_bind; [respects_shape|]. intros n.
  generalize ({[name]} ∪ visited). revert n.
  induction IH as [|child children Hchild _ IHloop]; intros n v;
    [apply respects_ret|].
  destruct (coll_map_get coll_map child).
  - apply respects_bind; [apply Hchild|]. intros r'. apply IHloop.
  - apply IHloop.
Qed.

Lemma respects_export_selected_each_object selected_objs directory :
  respects (FS:=FS) R (export_selected_each_object context selected_objs directory).
Proof.
  unfold export_selected_each_object. apply respects_for_sum, Forall_forall.
  intros obj _. respects_shape.
Qed.

Lemma respects_export_top_level_groups coll_map top_level directory :
  ∀ visited,
  respects (FS:=FS) R (export_top_level_groups context coll_map top_level
                                               directory visited).
Proof.
  induction top_level as [|top_coll rest IH]; intros visited; simpl;
    [apply respects_ret|].
  apply respects_bind; [apply respects_export_selected_as_collections|]. intros r.
  apply respects_bind; [apply IH|]. intros m. apply respects_ret.
Qed.
End Respects.

Section ActiveObject.
Context `{OsPath} {FS : Type} `{!FileSystem FS} `{!Host FS}.

Lemma active_after_app start (c1 c2 : list FbxCall) :
  active_after (active_after start c1) c2 = active_after start (c1 ++ c2).
Proof.
  unfold active_after. rewrite last_app. by destruct (last c2).
Qed.

Lemma tracks_active_refl (w : World FS) : tracks_active w w.
Proof. exists []. by rewrite app_nil_r. Qed.

Lemma tracks_active_trans (w1 w2 w3 : World FS) :
  tracks_active w1 w2 → tracks_active w2 w3 → tracks_active w1 w3.
Proof.
  intros (c1 & Hc1 & Ha1) (c2 & Hc2 & Ha2). exists (c1 ++ c2).
  by rewrite Hc2, Hc1, Ha2, Ha1, active_after_app, app_assoc.
Qed.

Lemma tracks_active_report sev msg :
  respects (FS:=FS) tracks_active (report sev msg).
Proof. intros w [] w' [= <-]. exists []. simpl. by rewrite app_nil_r. Qed.

Lemma tracks_active_ensure_directory path :
  respects (FS:=FS) tracks_active (ensure_directory path).
Proof.
  intros w r w'. unfold ensure_directory.
  destruct (ensure_directory_exists (w_fs w) path) as [[r' fs']|]; [|done].
  intros [= <- <-]. exists []. simpl. by rewrite app_nil_r.
Qed.

(** [export_fbx] sets the active object only when it goes on to call the
    exporter. *)
Lemma tracks_active_export_fbx context filepath objects :
  respects (FS:=FS) tracks_active (export_fbx context filepath objects).
Proof.
  intros w ok w' Hrun. destruct objects as [|o objects].
  { injection Hrun as <- <-. apply tracks_active_refl. }
  destruct (ensure_directory_exists (w_fs w) (os_path_dirname filepath))
    as [[[[] msg] fs1]|] eqn:Hens.
  - destruct (export_fbx_exporter_call context filepath o objects w msg fs1 Hens)
      as (ok' & w1 & c & Hrun' & Hcalls & _ & _ & _ & _ & _ & _ & Hactive).
    rewrite Hrun in Hrun'. injection Hrun' as <- <-.
    exists [c]. split; [done|]. unfold active_after. simpl. by rewrite Hactive.
  - unfold export_fbx in Hrun.
    erewrite bind_some in Hrun by (eapply ensure_directory_failure, Hens).
    injection Hrun as <- <-. exists []. simpl. by rewrite app_nil_r.
  - unfold export_fbx, bind, ensure_directory in Hrun. by rewrite Hens in Hrun.
Qed.

Lemma bind_assoc {A B C} (m : M FS A) (f : A → M FS B) (g : B → M FS C) w :
  bind (bind m f) g w = bind m (fun a => bind (f a) g) w.
Proof. unfold bind. by destruct (m w) as [[a w1]|]. Qed.

(** A pass followed by the restoring lines: the active object is the
    original one when there was one, and else the one the pass left. *)
Lemma pass_restores_active {A} (pass : M FS A) context orig_sel orig_active
    (w1 w' : World FS) status :
  respects tracks_active pass →
  bind pass (fun _ => restore_and_present context orig_sel orig_active) w1
  = Some (status, w') →
  ∃ calls, fbx_calls w' = fbx_calls w1 ++ calls
           ∧ w_active w' = match orig_active with
                           | Some o => Some o
                           | None => active_after (w_active w1) calls
                           end.
Proof.
  intros Hpass Hrun. apply bind_inv in Hrun as (a & wa & Hma & Hrestore).
  destruct (Hpass _ _ _ Hma) as (calls & Hcalls & Hactive).
  destruct (restore_and_present_spec context orig_sel orig_active wa)
    as (w2 & Hrun2 & _ & Hact2 & _ & Hcalls2 & _).
  rewrite Hrestore in Hrun2. injection Hrun2 as -> <-.
  exists calls. rewrite Hcalls2, Hact2, Hcalls, Hactive. done.
Qed.

Context `{!PathLaws}.

(** Through a whole run: an object that was active is active again at
    the end; without one, the active object is the one of the last
    exporter call, and none when no call was made. *)
Lemma execute_tracks_active context directory (w w' : World FS) status :
  execute context directory w = Some (status, w') →
  ∃ calls, fbx_calls w' = fbx_calls w ++ calls
           ∧ w_active w' = match w_active w with
                           | Some o => Some o
                           | None => active_after None calls
                           end.
Proof.
  assert (Hsame : ∀ w2 : World FS,
             fbx_calls w2 = fbx_calls w → w_active w2 = w_active w →
             ∃ calls, fbx_calls w2 = fbx_calls w ++ calls
                      ∧ w_active w2 = match w_active w with
                                      | Some o => Some o
                                      | None => active_after None calls
                                      end).
  { intros w2 Hc Ha. exists []. rewrite app_nil_r, Ha. split; [done|].
    by destruct (w_active w). }
  unfold execute. set (dir := bpy_path_abspath directory).
  set (w0 := {| w_fs := w_fs w; w_mode := w_mode w; w_selected := w_selected w;
                w_active := w_active w; exported_files := [];
                reports := reports w; fbx_calls := fbx_calls w;
                summary_dialogs := summary_dialogs w |}).
  rewrite (bind_some _ _ w tt w0) by reflexivity.
  destruct (check_path_exists_total (w_fs w0) (os_path_dirname dir)) as [msg Hck].
  erewrite bind_some; [|unfold check_path; rewrite Hck; reflexivity].
  cbn [negb fst snd].
  destruct (os_path_exists (w_fs w0) (os_path_dirname dir)); cbn [negb].
  2:{ intros [= <- <-]. by apply Hsame. }
  destruct (ensure_directory_exists_total (w_fs w0) dir) as ([ok msg2] & fs' & Hens).
  erewrite bind_some; [|unfold ensure_directory; rewrite Hens; reflexivity].
  cbn [negb fst snd]. destruct ok; cbn [negb].
  2:{ intros [= <- <-]. by apply Hsame. }
  set (w1 := with_fs fs' w0).
  rewrite (bind_some _ _ w1 w1 w1) by reflexivity.
  change (w_active w1) with (w_active w).
  assert (Hpass : ∀ {A} (pass : M FS A),
             respects tracks_active pass →
             bind pass (fun _ => restore_and_present context
                                   (selected_objects context w1) (w_active w)) w1
             = Some (status, w') →
             ∃ calls, fbx_calls w' = fbx_calls w ++ calls
                      ∧ w_active w' = match w_active w with
                                      | Some o => Some o
                                      | None => active_after None calls
                                      end).
  { intros A pass Hresp Hrun.
    destruct (pass_restores_active _ _ _ _ _ _ _ Hresp Hrun)
      as (calls & Hcalls & Hactive).
    exists calls. split; [exact Hcalls|]. rewrite Hactive.
    change (w_active w1) with (w_active w). by destruct (w_active w). }
  pose proof tracks_active_refl as Hrefl.
  pose proof tracks_active_trans as Htrans.
  pose proof tracks_active_report as Hreport.
  pose proof tracks_active_ensure_directory as Hdir.
  pose proof (tracks_active_export_fbx context) as Hfbx.
  destruct (export_mode (props context)).
  - intros Hrun. rewrite <- bind_assoc in Hrun. apply Hpass in Hrun; [done|].
    apply respects_bind; [done| |intros n; apply Hreport].
    apply respects_for_sum; [done..|]. apply Forall_forall. intros c _.
    by apply respects_export_collection_recursive.
  - destruct (filter _ (selected_objects context w1)) as [|o sel_objects].
    { intros [= <- <-]. by apply Hsame. }
    apply Hpass.
    destruct (as_single_mesh (props context) && make_separate_folders (props context)).
    + apply respects_bind; [done| |intros n; apply Hreport].
      by apply respects_export_top_level_groups.
    + destruct (as_single_mesh (props context)).
      * apply respects_bind; [done|apply Hfbx|intros n; apply Hreport].
      * apply respects_bind; [done| |intros n; apply Hreport].
        by apply respects_export_selected_each_object.
Qed.

(** C8, amended.  Every run returns, and when it does the selected
    objects are those selected at its start, and an object that was active
    at its start is active again.  A run that started without an active
    object ends with the object active that was active at its last
    exporter call, and with none when it called no exporter. *)
Theorem execute_restores_selection context directory (w : World FS) :
  ∃ status w' calls,
    execute context directory w = Some (status, w')
    ∧ fbx_calls w' = fbx_calls w ++ calls
    ∧ selected_objects context w' = selected_objects context w
    ∧ (∀ o, w_active w = Some o → w_active w' = Some o)
    ∧ (w_active w = None →
       w_active w' = match last calls with
                     | Some c => call_active c
                     | None => None
                     end).
Proof.
  destruct (execute_run context directory w) as (status & w' & Hrun & _ & Hsel & Hact).
  destruct (execute_tracks_active _ _ _ _ _ Hrun) as (calls & Hcalls & Hactive).
  exists status, w', calls. split; [done|]. split; [done|]. split; [done|].
  split; [done|]. intros Hnone. by rewrite Hactive, Hnone.
Qed.
End ActiveObject.

(** ** What a run of [execute] does *)

Section RunProperties.
Context `{OsPath} {FS : Type} `{!FileSystem FS} `{!Host FS} `{!PathLaws}.

(** A counting pass followed by its INFO report and the restoring lines. *)
Lemma count_then_restore {A} (m : M FS A) (msg : A → string)
    (Q : A → list FbxCall → Prop) context orig_sel orig_active
    (w1 w' : World FS) status :
  emits m Q →
  bind m (fun a => bind (report INFO (msg a))
                        (fun _ => restore_and_present context orig_sel orig_active)) w1
  = Some (status, w') →
  status = FINISHED
  ∧ ∃ a calls earlier,
      fbx_calls w' = fbx_calls w1 ++ calls ∧ Q a calls
      ∧ reports w' = earlier ++ [(INFO, msg a)].
Proof.
  intros Hm Hrun.
  apply bind_inv in Hrun as (a & wa & Hma & Hrest).
  apply bind_inv in Hrest as ([] & wb & Hreport & Hrestore).
  injection Hreport as <-.
  apply restore_and_present_quiet in Hrestore as (-> & Hcalls & Hreports & _).
  destruct (Hm _ _ _ Hma) as (calls & Hc & HQ).
  split; [done|]. exists a, calls, (reports wa).
  rewrite Hcalls, Hreports. simpl. auto.
Qed.

Lemma selection_top_level_keys (coll_map : list (Collection * list Object)) c :
  c ∈ selection_top_level coll_map.*1 → coll_name c ∈ key_names coll_map.
Proof.
  unfold selection_top_level, key_names. intros [_ Hc]%list_elem_of_filter.
  apply elem_of_list_to_set, list_elem_of_fmap. by exists c.
Qed.

(** The calls of the loop over the valid top-level collections. *)
Lemma emits_collections_pass context directory (valid_colls : list Collection) :
  emits (FS:=FS)
    (for_sum (fun coll => export_collection_recursive context coll directory
                            (get_object_types (props context)) true) valid_colls)
    (fun n calls =>
       n = length (records_of calls)
       ∧ Forall (fun c => ∃ coll, coll ∈ valid_colls
                                  ∧ collection_call context
                                      (get_object_types (props context)) coll c) calls
       ∧ (combine_nested_collections (props context) = true →
          (length calls ≤ length valid_colls)%nat)).
Proof.
  destruct (combine_nested_collections (props context)) eqn:Hcombine.
  - eapply emits_weaken.
    + apply (emits_for_sum_each _ _
               (collection_call context (get_object_types (props context)))).
      intros coll _. eapply emits_weaken.
      * apply emits_and; [apply emits_export_collection_recursive|].
        by apply emits_export_collection_combined.
      * intros n c [[-> Hall] [Hlen _]]. done.
    + intros n c (-> & Hlen & Hall). done.
  - eapply emits_weaken.
    + apply (emits_for_sum_tagged _ _
               (collection_call context (get_object_types (props context)))).
      intros coll _. apply emits_export_collection_recursive.
    + intros n c (-> & Hall). done.
Qed.

(** A run, read off its result: what it called the exporter for, what is
    shown to the user, and what a cancelled run leaves alone. *)
Lemma execute_detail context directory (w w' : World FS) status :
  execute context directory w = Some (status, w') →
  ∃ calls,
    fbx_calls w' = fbx_calls w ++ calls
    ∧ match status with
      | CANCELLED =>
        calls = [] ∧ exported_files w' = []
        ∧ w_selected w' = w_selected w ∧ w_active w' = w_active w
        ∧ w_mode w' = w_mode w
        ∧ ((∃ msg, reports w' = reports w ++ [(ERROR, msg)] ∧ w_fs w' = w_fs w)
           ∨ (export_mode (props context) = SELECTED
              ∧ filter (fun o => bool_decide
                                   (ob_type o ∈ get_object_types (props context)))
                       (selected_objects context w) = []
              ∧ reports w'
                = reports w ++ [(WARNING, "No valid selected objects to export")]
              ∧ ∃ msg fs',
                  ensure_directory_exists (w_fs w) (bpy_path_abspath directory)
                  = Some ((true, msg), fs')
                  ∧ w_fs w' = fs'))
      | FINISHED =>
        let allowed_types := get_object_types (props context) in
        let n := length (records_of calls) in
        match export_mode (props context) with
        | COLLECTIONS =>
          let valid_colls :=
            filter (fun c =>
                      negb (bool_decide
                              (filter (visible_allowed allowed_types) (all_objects c)
                               = [])))
                   (gather_top_level_collections (layer_collection_children context)) in
          Forall (fun c => ∃ coll, coll ∈ valid_colls
                                   ∧ collection_call context allowed_types coll c) calls
          ∧ (combine_nested_collections (props context) = true →
             (length calls ≤ length valid_colls)%nat)
          ∧ ∃ earlier,
              reports w'
              = earlier ++ [(INFO, "Exported " +:+ str_of_nat n
                                   +:+ " FBX files (Collections mode).")]
        | SELECTED =>
          let sel_objects :=
            filter (fun o => bool_decide (ob_type o ∈ allowed_types))
                   (selected_objects context w) in
          sel_objects ≠ []
          ∧ Forall (fun c => ∀ o, o ∈ call_objects c →
                                  o ∈ sel_objects ∧ o ∈ view_layer_objects context
                                  ∧ o ∈ (draw_counts context w).2) calls
          ∧ (length calls ≤ (draw_counts context w).1)%nat
          ∧ ∃ earlier,
              reports w'
              = earlier
                ++ [(INFO,
                     if as_single_mesh (props context)
                        && make_separate_folders (props context)
                     then "Exported " +:+ str_of_nat n
                          +:+ " FBX files (Single Mesh + Separate Folders)."
                     else if as_single_mesh (props context)
                     then "Exported single FBX with all selected objects: "
                          +:+ match w_active w with
                              | Some a =>
                                match users_collection context a with
                                | c :: _ => coll_name c
                                | [] => "combined_export"
                                end
                              | None => "combined_export"
                              end +:+ ".fbx"
                     else "Exported " +:+ str_of_nat n +:+ " objects separately.")]
        end
      end.
Proof.
  unfold execute. set (dir := bpy_path_abspath directory).
  set (w0 := {| w_fs := w_fs w; w_mode := w_mode w; w_selected := w_selected w;
                w_active := w_active w; exported_files := [];
                reports := reports w; fbx_calls := fbx_calls w;
                summary_dialogs := summary_dialogs w |}).
  rewrite (bind_some _ _ w tt w0) by reflexivity.
  destruct (check_path_exists_total (w_fs w0) (os_path_dirname dir)) as [msg Hck].
  erewrite bind_some; [|unfold check_path; rewrite Hck; reflexivity].
  cbn [negb fst snd].
  destruct (os_path_exists (w_fs w0) (os_path_dirname dir)); cbn [negb].
  2:{ intros [= <- <-]. exists []. rewrite app_nil_r. simpl.
      repeat split; try done. left. by exists msg. }
  destruct (ensure_directory_exists_total (w_fs w0) dir) as ([ok msg2] & fs' & Hens).
  destruct ok.
  2:{ erewrite bind_some by (eapply ensure_directory_failure, Hens).
      cbn [negb fst snd]. intros [= <- <-]. exists []. rewrite app_nil_r. simpl.
      repeat split; try done. left. by exists msg2. }
  erewrite bind_some; [|unfold ensure_directory; rewrite Hens; reflexivity].
  cbn [negb fst snd].
  set (w1 := with_fs fs' w0).
  rewrite (bind_some _ _ w1 w1 w1) by reflexivity.
  change (selected_objects context w1) with (selected_objects context w).
  change (w_active w1) with (w_active w).
  change (fbx_calls w) with (fbx_calls w1).
  destruct (export_mode (props context)) eqn:Hmode.
  - intros Hrun.
    destruct (count_then_restore _ _ _ _ _ _ _ _ _
                (emits_collections_pass context dir _) Hrun)
      as (-> & n & calls & earlier & Hcalls & (-> & Hall & Hlen) & Hreports).
    exists calls. split; [done|]. split; [done|]. split; [done|]. by exists earlier.
  - destruct (filter _ (selected_objects context w)) as [|o sel_objects] eqn:Hsel.
    { intros [= <- <-]. exists []. rewrite app_nil_r. simpl.
      do 6 (split; [done|]). right. do 3 (split; [done|]). by exists msg2, fs'. }
    rewrite <- Hsel.
    assert (Hne : filter (fun o => bool_decide
                            (ob_type o ∈ get_object_types (props context)))
                         (selected_objects context w) ≠ []) by by rewrite Hsel.
    set (sel := filter _ (selected_objects context w)) in *.
    unfold draw_counts. rewrite Hmode.
    change (get_allowed_types (props context))
      with (get_object_types (props context)).
    fold sel.
    destruct (as_single_mesh (props context)) eqn:Hsingle;
      [destruct (make_separate_folders (props context)) eqn:Hsep|]; cbn [andb].
    + intros Hrun.
      destruct (pass_then_restore _
                  (fun n => "Exported " +:+ str_of_nat n
                            +:+ " FBX files (Single Mesh + Separate Folders).")
                  _ _ _ _ _ _ _
                  (emits_export_top_level_groups context _ _ dir
                     (selection_top_level_keys _) ∅) Hrun)
        as (-> & n & calls & earlier & Hcalls
            & (-> & (visited' & _ & Hsize & Hkeys) & Hall) & Hreports).
      exists calls. split; [done|]. split; [done|]. split; [|split].
      * eapply Forall_impl; [exact Hall|].
        intros call (c & objs & folder & Hget & _ & Hobjs) x.
        rewrite Hobjs, exported_of_elem. intros (Hx & Hview & _).
        split; [by eapply gather_group_selected|]. split; [done|].
        cbn [snd]. fold (gather_selected_by_collection context sel).
        apply list_elem_of_In, in_concat. exists objs.
        split; [|by apply list_elem_of_In].
        apply list_elem_of_In. by eapply coll_map_get_values.
      * cbn [fst]. fold (gather_selected_by_collection context sel).
        rewrite (left_id_L ∅ (∪)) in Hkeys. apply subseteq_size in Hkeys.
        pose proof (size_key_names_le (gather_selected_by_collection context sel)).
        rewrite size_empty in Hsize. lia.
      * by exists earlier.
    + intros Hrun.
      destruct (pass_then_restore _ (fun _ => _) _ _ _ _ _ _ _
                  (emits_export_fbx context _ sel) Hrun)
        as (-> & ok & calls & earlier & Hcalls & (Hlen & _ & Hall) & Hreports).
      exists calls. split; [done|]. split; [done|]. split; [|split].
      * eapply Forall_impl; [exact Hall|]. intros call [_ Hobjs] x.
        rewrite Hobjs, exported_of_elem. cbn [snd]. tauto.
      * cbn [fst]. by destruct sel.
      * by exists earlier.
    + intros Hrun.
      destruct (pass_then_restore _
                  (fun n => "Exported " +:+ str_of_nat n +:+ " objects separately.")
                  _ _ _ _ _ _ _
                  (emits_export_selected_each_object context sel dir) Hrun)
        as (-> & n & calls & earlier & Hcalls & (-> & Hlen & Hall) & Hreports).
      exists calls. split; [done|]. split; [done|]. split; [|split].
      * eapply Forall_impl; [exact Hall|].
        intros call (obj & Hobj & Hobjs & _) x.
        rewrite Hobjs, exported_of_elem, list_elem_of_singleton. cbn [snd].
        by intros (-> & ? & _).
      * done.
      * by exists earlier.
Qed.
End RunProperties.

(** ** Selection mode and whole runs *)

Section RunTheorems.
Context `{OsPath} {FS : Type} `{!FileSystem FS} `{!Host FS} `{!PathLaws}.

(** X15.  [export_selected_as_collections] returns, and the count it
    returns is the number of files it recorded.  Its exporter calls are
    made for collections with a group in [coll_map], one call per
    collection: the collections of the calls are pairwise different, none
    of them had been visited before, and all of them are visited
    afterwards.  Each call writes a file named after its collection and
    exports the group's objects.  The visited set only grows. *)
Theorem export_selected_as_collections_once context coll_map parent_coll parent_dir
    visited (w : World FS) :
  ∃ n visited' w' calls names,
    export_selected_as_collections context coll_map parent_coll parent_dir visited w
    = Some ((n, visited'), w')
    ∧ fbx_calls w' = fbx_calls w ++ calls
    ∧ exported_files w' = exported_files w ++ records_of calls
    ∧ n = length (records_of calls)
    ∧ visited ⊆ visited'
    ∧ Forall2 (fun call name =>
                 ∃ c objs folder,
                   coll_name c = name
                   ∧ coll_map_get coll_map c = Some objs
                   ∧ Fbx.filepath (call_params call)
                     = os_path_join folder (name +:+ ".fbx")
                   ∧ call_objects call = exported_of context objs)
              calls names
    ∧ NoDup names
    ∧ (∀ x, x ∈ names → (x ∉ visited) ∧ x ∈ visited').
Proof.
  destruct (logs_emits _ _
              (logs_export_selected_as_collections context coll_map parent_coll
                 parent_dir visited)
              (emits_and _ _ _
                 (emits_export_selected_as_collections context coll_map parent_coll
                    parent_dir visited)
                 (emits_export_selected_as_collections_names context coll_map
                    parent_coll parent_dir visited)) w)
    as ([n visited'] & w' & calls & Hrun & Hcalls & Hfiles & _
        & (Hn & _) & Hsub & names & Hall & Hnd & Hnames).
  by exists n, visited', w', calls, names.
Qed.

(** X16.  [export_selected_each_object] returns the number of files it
    recorded.  Its exporter calls follow the list: they are made, in
    order, for a sublist of the given objects, so at most one call per
    entry of the list.  Each call writes a file named after its object
    and exports that object alone, or nothing when the object is not in
    the view layer or cannot be selected there. *)
Theorem export_selected_each_object_calls context selected_objs directory
    (w : World FS) :
  ∃ n w' calls objs,
    export_selected_each_object context selected_objs directory w = Some (n, w')
    ∧ fbx_calls w' = fbx_calls w ++ calls
    ∧ exported_files w' = exported_files w ++ records_of calls
    ∧ n = length (records_of calls)
    ∧ sublist objs selected_objs
    ∧ Forall2 (fun c obj =>
                 call_objects c
                 = filter (fun o => bool_decide (o = obj) && selectable context o)
                          (view_layer_objects context)
                 ∧ ∃ folder, Fbx.filepath (call_params c)
                             = os_path_join folder (ob_name obj +:+ ".fbx"))
              calls objs.
Proof.
  destruct (logs_emits _ _
              (logs_export_selected_each_object context selected_objs directory)
              (emits_export_selected_each_object_order context selected_objs
                 directory) w)
    as (n & w' & calls & Hrun & Hcalls & Hfiles & _ & Hn & objs & Hsub & Hall).
  exists n, w', calls, objs. do 5 (split; [done|]).
  eapply Forall2_impl; [exact Hall|]. intros c obj [Hobjs Hpath].
  split; [|done]. rewrite Hobjs. unfold exported_of. apply filter_agree.
  intros o _. f_equal. apply bool_decide_ext. by rewrite list_elem_of_singleton.
Qed.

(** X17.  When [ensure_directory_exists] fails for the chosen directory,
    be it because an ancestor is missing or because the directory cannot
    be created, the run is cancelled with the helper's reason as its one
    ERROR report.  It creates nothing, calls no exporter, opens no dialog
    and leaves selection, active object and mode alone; the
    [exported_files] list of the previous run is emptied all the same. *)
Theorem execute_validation_failure context directory (w : World FS) msg fs' :
  ensure_directory_exists (w_fs w) (bpy_path_abspath directory)
  = Some ((false, msg), fs') →
  ∃ w', execute context directory w = Some (CANCELLED, w')
        ∧ reports w' = reports w ++ [(ERROR, msg)]
        ∧ w_fs w' = w_fs w
        ∧ fbx_calls w' = fbx_calls w
        ∧ exported_files w' = []
        ∧ summary_dialogs w' = summary_dialogs w
        ∧ w_selected w' = w_selected w ∧ w_active w' = w_active w
        ∧ w_mode w' = w_mode w.
Proof.
  intros Hens. unfold execute. set (dir := bpy_path_abspath directory) in *.
  set (w0 := {| w_fs := w_fs w; w_mode := w_mode w; w_selected := w_selected w;
                w_active := w_active w; exported_files := [];
                reports := reports w; fbx_calls := fbx_calls w;
                summary_dialogs := summary_dialogs w |}).
  rewrite (bind_some _ _ w tt w0) by reflexivity.
  destruct (check_path_exists_total (w_fs w0) (os_path_dirname dir)) as [m Hck].
  erewrite bind_some; [|unfold check_path; rewrite Hck; reflexivity].
  cbn [negb fst snd].
  destruct (os_path_exists (w_fs w0) (os_path_dirname dir)); cbn [negb].
  - erewrite bind_some by (eapply (ensure_directory_failure w0), Hens).
    cbn [negb fst snd]. eexists. split; [reflexivity|]. done.
  - unfold ensure_directory_exists in Hens. change (w_fs w) with (w_fs w0) in Hens.
    rewrite Hck in Hens. injection Hens as <- _.
    eexists. split; [reflexivity|]. done.
Qed.

(** X18.  A cancelled run made no exporter call, left [exported_files]
    empty, opened no dialog, kept selection, active object and mode, and
    added exactly one report.  When that report is an ERROR the file
    system is as it was.  When it is the WARNING of a selection without
    valid objects, the chosen directory had passed validation: the file
    system is the one [ensure_directory_exists] left, with the directory
    created if it was missing. *)
Theorem execute_cancelled_effect context directory (w w' : World FS) :
  execute context directory w = Some (CANCELLED, w') →
  fbx_calls w' = fbx_calls w
  ∧ exported_files w' = []
  ∧ summary_dialogs w' = summary_dialogs w
  ∧ w_selected w' = w_selected w ∧ w_active w' = w_active w
  ∧ w_mode w' = w_mode w
  ∧ ((∃ msg, reports w' = reports w ++ [(ERROR, msg)] ∧ w_fs w' = w_fs w)
     ∨ (reports w' = reports w ++ [(WARNING, "No valid selected objects to export")]
        ∧ ∃ msg fs',
            ensure_directory_exists (w_fs w) (bpy_path_abspath directory)
            = Some ((true, msg), fs')
            ∧ w_fs w' = fs')).
Proof.
  intros Hrun.
  destruct (execute_run context directory w)
    as (status & w2 & Hrun2 & (calls2 & _ & _ & Hdlg) & _).
  rewrite Hrun in Hrun2. injection Hrun2 as <- <-.
  destruct (execute_detail _ _ _ _ _ Hrun)
    as (calls & Hcalls & -> & Hfiles & Hsel & Hact & Hmode & Hreports).
  rewrite app_nil_r in Hcalls. rewrite Hfiles in Hdlg.
  split; [done|]. split; [done|]. split; [lia|]. split; [done|]. split; [done|].
  split; [done|].
  destruct Hreports as [Herror|(_ & _ & Hr & Hfs)]; [by left|by right].
Qed.

(** X19.  In selection mode, when no selected object has an allowed type,
    the run is cancelled with the warning "No valid selected objects to
    export" (or, before that, with a validation error): no exporter call
    is made, no dialog opens and [exported_files] ends empty. *)
Theorem execute_no_valid_selection context directory (w : World FS) :
  export_mode (props context) = SELECTED →
  filter (fun o => bool_decide (ob_type o ∈ get_object_types (props context)))
         (selected_objects context w) = [] →
  ∃ w' sev msg,
    execute context directory w = Some (CANCELLED, w')
    ∧ fbx_calls w' = fbx_calls w
    ∧ exported_files w' = []
    ∧ reports w' = reports w ++ [(sev, msg)]
    ∧ (sev = ERROR
       ∨ (sev = WARNING ∧ msg = "No valid selected objects to export")).
Proof.
  intros Hmode Hnone.
  destruct (execute_run context directory w) as (status & w' & Hrun & _).
  destruct (execute_detail _ _ _ _ _ Hrun) as (calls & Hcalls & Hdetail).
  destruct status.
  { rewrite Hmode in Hdetail. by destruct Hdetail as [Hne _]. }
  destruct Hdetail as (-> & Hfiles & _ & _ & _ & Hreports).
  rewrite app_nil_r in Hcalls.
  destruct Hreports as [(msg & Hr & _)|(_ & _ & Hr & _)].
  - exists w', ERROR, msg. repeat split; try done. by left.
  - exists w', WARNING, "No valid selected objects to export".
    repeat split; try done. by right.
Qed.

(** X20.  Whatever the settings, every object a run hands to the exporter
    is in the view layer and has a kind whose checkbox is set; in
    collection mode it is not hidden in the viewport, in selection mode it
    was selected when the run started. *)
Theorem execute_exports_only_allowed context directory (w : World FS) :
  ∃ status w' calls,
    execute context directory w = Some (status, w')
    ∧ fbx_calls w' = fbx_calls w ++ calls
    ∧ Forall (fun c =>
                Forall (fun o =>
                          o ∈ view_layer_objects context
                          ∧ ob_type o ∈ get_object_types (props context)
                          ∧ match export_mode (props context) with
                            | COLLECTIONS => ob_hide_viewport o = false
                            | SELECTED => o ∈ selected_objects context w
                            end)
                       (call_objects c))
             calls.
Proof.
  destruct (execute_run context directory w) as (status & w' & Hrun & _).
  destruct (execute_detail _ _ _ _ _ Hrun) as (calls & Hcalls & Hdetail).
  exists status, w', calls. split; [done|]. split; [done|].
  destruct status; [|destruct Hdetail as (-> & _); constructor].
  destruct (export_mode (props context)).
  - destruct Hdetail as (Hall & _).
    eapply Forall_impl; [exact Hall|].
    intros call (coll & _ & _ & Hobjs). apply Forall_forall. intros o Ho.
    destruct (Hobjs o Ho) as (_ & ? & ? & ?). done.
  - destruct Hdetail as (_ & Hall & _).
    eapply Forall_impl; [exact Hall|].
    intros call Hobjs. apply Forall_forall. intros o Ho.
    destruct (Hobjs o Ho) as (Hsel & Hview & _).
    apply list_elem_of_filter in Hsel as [Htype Hsel].
    by apply bool_decide_unpack in Htype.
Qed.

(** X21.  The number of FBX files the panel announces is an upper bound
    on the exporter calls of the run that follows, in selection mode (all
    three variants) and in collection mode with
    [combine_nested_collections] set. *)
Theorem execute_within_preview context directory (w : World FS) :
  export_mode (props context) = SELECTED
  ∨ combine_nested_collections (props context) = true →
  ∃ status w' calls,
    execute context directory w = Some (status, w')
    ∧ fbx_calls w' = fbx_calls w ++ calls
    ∧ (length calls ≤ (draw_counts context w).1)%nat
    ∧ (length (exported_files w') ≤ (draw_counts context w).1)%nat.
Proof.
  intros Hcase.
  destruct (execute_run context directory w)
    as (status & w' & Hrun & (calls2 & Hcalls2 & Hfiles & _) & _).
  destruct (execute_detail _ _ _ _ _ Hrun) as (calls & Hcalls & Hdetail).
  rewrite Hcalls in Hcalls2. apply app_inv_head in Hcalls2 as <-.
  exists status, w', calls. split; [done|]. split; [done|].
  assert (Hrec : (length (records_of calls) ≤ length calls)%nat).
  { clear. induction calls as [|c calls IH]; simpl; [done|].
    rewrite length_app. destruct (call_error c); simpl; lia. }
  rewrite Hfiles.
  enough (length calls ≤ (draw_counts context w).1)%nat by (split; [done|lia]).
  destruct status; [|destruct Hdetail as (-> & _); simpl; lia].
  destruct (export_mode (props context)) eqn:Hmode.
  - destruct Hcase as [?|Hcombine]; [done|].
    destruct Hdetail as (_ & Hlen & _).
    unfold draw_counts. rewrite Hmode, draw_top_level_walks. cbn [fst].
    by apply Hlen.
  - by destruct Hdetail as (_ & _ & Hlen & _).
Qed.

(** X22.  A finished run ends its reports with one INFO line.  In
    collection mode, in "single mesh + separate folders" mode and in
    per-object mode the number in that line is the number of files in
    [exported_files], that is of exporter calls that raised nothing.  In
    plain single-mesh mode the line names the file after the first
    collection of the active object, or "combined_export", and says
    "Exported" whether or not the export succeeded. *)
Theorem execute_report_counts_files context directory (w w' : World FS) :
  execute context directory w = Some (FINISHED, w') →
  ∃ earlier,
    reports w'
    = earlier
      ++ [(INFO,
           let n := str_of_nat (length (exported_files w')) in
           match export_mode (props context) with
           | COLLECTIONS => "Exported " +:+ n +:+ " FBX files (Collections mode)."
           | SELECTED =>
             if as_single_mesh (props context) && make_separate_folders (props context)
             then "Exported " +:+ n +:+ " FBX files (Single Mesh + Separate Folders)."
             else if as_single_mesh (props context)
             then "Exported single FBX with all selected objects: "
                  +:+ match w_active w with
                      | Some a =>
                        match users_collection context a with
                        | c :: _ => coll_name c
                        | [] => "combined_export"
                        end
                      | None => "combined_export"
                      end +:+ ".fbx"
             else "Exported " +:+ n +:+ " objects separately."
           end)].
Proof.
  intros Hrun.
  destruct (execute_run context directory w)
    as (status & w2 & Hrun2 & (calls2 & Hcalls2 & Hfiles & _) & _).
  rewrite Hrun in Hrun2. injection Hrun2 as <- <-.
  destruct (execute_detail _ _ _ _ _ Hrun) as (calls & Hcalls & Hdetail).
  rewrite Hcalls in Hcalls2. apply app_inv_head in Hcalls2 as <-.
  rewrite Hfiles. cbn zeta in *.
  destruct (export_mode (props context)).
  - by destruct Hdetail as (_ & _ & Hreports).
  - by destruct Hdetail as (_ & _ & _ & Hreports).
Qed.

(** X23.  Every object a run hands to the exporter is among the objects
    the panel has checked for its "2nd UV map" line.  So when the panel
    says YES, every mesh that the run exports has two or more UV layers. *)
Theorem execute_exports_previewed context directory uv_layers (w : World FS) :
  ∃ status w' calls,
    execute context directory w = Some (status, w')
    ∧ fbx_calls w' = fbx_calls w ++ calls
    ∧ Forall (fun c => Forall (fun o => o ∈ (draw_counts context w).2)
                              (call_objects c)) calls
    ∧ (draw_has_2nd_uv uv_layers context w = true →
       Forall (fun c => Forall (fun o => ob_type o = "MESH" → (2 ≤ uv_layers o)%nat)
                               (call_objects c)) calls).
Proof.
  destruct (execute_run context directory w) as (status & w' & Hrun & _).
  destruct (execute_detail _ _ _ _ _ Hrun) as (calls & Hcalls & Hdetail).
  exists status, w', calls. split; [done|]. split; [done|].
  assert (Hchecked : Forall (fun c => Forall (fun o => o ∈ (draw_counts context w).2)
                                             (call_objects c)) calls).
  { destruct status; [|destruct Hdetail as (-> & _); constructor].
    destruct (export_mode (props context)) eqn:Hmode.
    - destruct Hdetail as (Hall & _).
      eapply Forall_impl; [exact Hall|].
      intros call (coll & Hcoll & _ & Hobjs). apply Forall_forall. intros o Ho.
      destruct (Hobjs o Ho) as (Hin & _ & Htype & Hshown).
      unfold draw_counts. rewrite Hmode, draw_top_level_walks. cbn [snd].
      apply list_elem_of_In, in_concat.
      exists (filter (visible_allowed (get_object_types (props context)))
                     (all_objects coll)).
      split.
      + apply (in_map (fun coll => filter (visible_allowed
                                             (get_object_types (props context)))
                                          (all_objects coll))).
        by apply list_elem_of_In.
      + apply list_elem_of_In, list_elem_of_filter. split; [|done].
        apply Is_true_true, visible_allowed_spec. done.
    - destruct Hdetail as (_ & Hall & _).
      eapply Forall_impl; [exact Hall|].
      intros call Hobjs. apply Forall_forall. intros o Ho.
      by destruct (Hobjs o Ho) as (_ & _ & ?). }
  split; [exact Hchecked|].
  unfold draw_has_2nd_uv, all_have_2nd_uv_layer.
  rewrite all_have_2nd_uv_layer_from_spec. intros [_ Huv].
  eapply Forall_impl; [exact Hchecked|]. intros call Hcall.
  eapply Forall_impl; [exact Hcall|]. intros o Ho. by apply Huv.
Qed.
End RunTheorems.

(** ** The further properties on the example scenes *)

Section FurtherExamples.
Import Posix Scene.

Lemma check_path_exists_names_topmost_missing_witness :
  @PathLaws os_path MemFS file_system
  ∧ os_path_exists home_disk "/home/a/b" = false
  ∧ ∃ k, check_path_exists home_disk "/home/a/b"
         = Some (false, "Path '" +:+ Nat.iter k os_path_dirname "/home/a/b"
                        +:+ "' is not accessible.")
         ∧ (∀ j, (j ≤ k)%nat →
                 os_path_exists home_disk (Nat.iter j os_path_dirname "/home/a/b")
                 = false)
         ∧ (truthy (os_path_dirname (Nat.iter k os_path_dirname "/home/a/b")) = false
            ∨ os_path_exists home_disk
                (os_path_dirname (Nat.iter k os_path_dirname "/home/a/b"))
              = true).
Proof.
  split; [exact posix_path_laws|]. split; [reflexivity|].
  exact (check_path_exists_names_topmost_missing home_disk "/home/a/b"
                                                 eq_refl eq_refl).
Defined.

Lemma ensure_directory_exists_success_witness :
  @MakedirsLaws MemFS file_system
  ∧ ∃ fs', ensure_directory_exists out_disk "/out/Props" = Some ((true, ""), fs')
           ∧ os_path_exists out_disk (os_path_dirname "/out/Props") = true
           ∧ os_path_exists fs' "/out/Props" = true
           ∧ (∀ q, os_path_exists out_disk q = true → os_path_exists fs' q = true)
           ∧ (os_path_exists out_disk "/out/Props" = true → fs' = out_disk).
Proof.
  split; [exact posix_makedirs_laws|].
  eexists. split; [vm_compute; reflexivity|].
  apply (ensure_directory_exists_success out_disk _ "/out/Props" "").
  vm_compute. reflexivity.
Defined.

Lemma ensure_directory_exists_failure_untouched_witness :
  ensure_directory_exists home_disk "/home/x/y"
  = Some ((false, "Path '/home/x' is not accessible."), home_disk)
  ∧ os_path_exists home_disk (os_path_dirname "/home/x/y") = false
  ∧ home_disk = home_disk
  ∧ check_path_exists home_disk (os_path_dirname "/home/x/y")
    = Some (false, "Path '/home/x' is not accessible.").
Proof.
  assert (Hens : ensure_directory_exists home_disk "/home/x/y"
                 = Some ((false, "Path '/home/x' is not accessible."), home_disk)).
  { vm_compute. reflexivity. }
  destruct (ensure_directory_exists_failure_untouched
              home_disk home_disk "/home/x/y" _ Hens) as [Hsame Hparent].
  split; [exact Hens|]. split; [reflexivity|]. split; [exact Hsame|].
  exact (Hparent eq_refl).
Defined.

Lemma execute_restores_selection_witness :
  @PathLaws os_path MemFS file_system
  ∧ ∃ status w' calls,
      execute (context true false) "/out" (start out_disk) = Some (status, w')
      ∧ fbx_calls w' = fbx_calls (start out_disk) ++ calls
      ∧ selected_objects (context true false) w'
        = selected_objects (context true false) (start out_disk)
      ∧ (∀ o, w_active (start out_disk) = Some o → w_active w' = Some o)
      ∧ (w_active (start out_disk) = None →
         w_active w' = match last calls with
                       | Some c => call_active c
                       | None => None
                       end).
Proof.
  split; [exact posix_path_laws|].
  exact (execute_restores_selection (context true false) "/out" (start out_disk)).
Defined.

Lemma export_fbx_calls_exporter_once_witness :
  ensure_directory_exists out_disk (os_path_dirname "/out/Nested.fbx")
  = Some ((true, ""), out_disk)
  ∧ ∃ ok w' c,
      export_fbx (Veiled.context true false) "/out/Nested.fbx" [Sphere]
                 (start out_disk)
      = Some (ok, w')
      ∧ fbx_calls w' = fbx_calls (start out_disk) ++ [c]
      ∧ call_objects c
        = filter (fun x => bool_decide (x ∈ [Sphere])
                           && selectable (Veiled.context true false) x)
                 (view_layer_objects (Veiled.context true false))
      ∧ (ok = true ↔ call_error c = None)
      ∧ selected_objects (Veiled.context true false) w' = call_objects c
      ∧ w_active w'
        = match filter (fun x => bool_decide
                                   (x ∈ view_layer_objects
                                          (Veiled.context true false)))
                       [Sphere] with
          | first :: _ => Some first
          | [] => w_active (start out_disk)
          end
      ∧ call_active c = w_active w'.
Proof.
  split; [reflexivity|].
  exact (export_fbx_calls_exporter_once (Veiled.context true false)
           "/out/Nested.fbx" Sphere [] (start out_disk) "" out_disk eq_refl).
Defined.

Lemma export_collection_recursive_count_witness :
  @PathLaws os_path MemFS file_system
  ∧ ∃ n w' calls,
      export_collection_recursive (context true false) Props "/out"
        (get_object_types (settings true false)) true (start out_disk)
      = Some (n, w')
      ∧ fbx_calls w' = fbx_calls (start out_disk) ++ calls
      ∧ exported_files w' = exported_files (start out_disk) ++ records_of calls
      ∧ n = length (records_of calls)
      ∧ length (exported_files w')
        = (length (exported_files (start out_disk)) + n)%nat.
Proof.
  split; [exact posix_path_laws|].
  exact (export_collection_recursive_count (context true false) Props "/out"
           (get_object_types (settings true false)) true (start out_disk)).
Defined.

Lemma export_collection_recursive_exports_allowed_witness :
  @PathLaws os_path MemFS file_system
  ∧ ∃ n w' calls,
      export_collection_recursive (context true false) Props "/out"
        (get_object_types (settings true false)) true (start out_disk)
      = Some (n, w')
      ∧ fbx_calls w' = fbx_calls (start out_disk) ++ calls
      ∧ Forall (collection_call (context true false)
                  (get_object_types (settings true false)) Props) calls.
Proof.
  split; [exact posix_path_laws|].
  exact (export_collection_recursive_exports_allowed (context true false) Props
           "/out" (get_object_types (settings true false)) true (start out_disk)).
Defined.

Lemma export_collection_recursive_combined_witness :
  @PathLaws os_path MemFS file_system
  ∧ combine_nested_collections (props (Veiled.context true true)) = true
  ∧ ∃ n w' calls,
      export_collection_recursive (Veiled.context true true) Veiled.Props "/out"
        (get_object_types (settings true true)) true (start out_disk)
      = Some (n, w')
      ∧ fbx_calls w' = fbx_calls (start out_disk) ++ calls
      ∧ (length calls ≤ 1)%nat
      ∧ (coll_children Veiled.Props ≠ [] →
         Forall (fun c =>
                   call_objects c
                   = filter (fun o =>
                               bool_decide
                                 (o ∈ gather_all_objects_recursive
                                        Veiled.Props
                                        (get_object_types (settings true true)))
                               && selectable (Veiled.context true true) o)
                            (view_layer_objects (Veiled.context true true)))
                calls).
Proof.
  split; [exact posix_path_laws|]. split; [reflexivity|].
  exact (export_collection_recursive_combined (Veiled.context true true)
           Veiled.Props "/out" (get_object_types (settings true true)) true
           (start out_disk) eq_refl).
Defined.

Lemma export_selected_as_collections_once_witness :
  @PathLaws os_path MemFS file_system
  ∧ ∃ n visited' w' calls names,
      export_selected_as_collections (Picked.context true true)
        (gather_selected_by_collection (Picked.context true true) [Cube; Sphere])
        Props "/out" ∅ (Picked.start out_disk)
      = Some ((n, visited'), w')
      ∧ fbx_calls w' = fbx_calls (Picked.start out_disk) ++ calls
      ∧ exported_files w'
        = exported_files (Picked.start out_disk) ++ records_of calls
      ∧ n = length (records_of calls)
      ∧ ∅ ⊆ visited'
      ∧ Forall2 (fun call name =>
                   ∃ c objs folder,
                     coll_name c = name
                     ∧ coll_map_get
                         (gather_selected_by_collection (Picked.context true true)
                                                        [Cube; Sphere]) c
                       = Some objs
                     ∧ Fbx.filepath (call_params call)
                       = os_path_join folder (name +:+ ".fbx")
                     ∧ call_objects call
                       = exported_of (Picked.context true true) objs)
                calls names
      ∧ NoDup names
      ∧ (∀ x, x ∈ names → (x ∉ (∅ : gset string)) ∧ x ∈ visited').
Proof.
  split; [exact posix_path_laws|].
  exact (export_selected_as_collections_once (Picked.context true true)
           (gather_selected_by_collection (Picked.context true true) [Cube; Sphere])
           Props "/out" ∅ (Picked.start out_disk)).
Defined.

Lemma export_selected_each_object_calls_witness :
  @PathLaws os_path MemFS file_system
  ∧ ∃ n w' calls objs,
      export_selected_each_object (Picked.context false true) [Cube; Sphere] "/out"
                                  (Picked.start out_disk)
      = Some (n, w')
      ∧ fbx_calls w' = fbx_calls (Picked.start out_disk) ++ calls
      ∧ exported_files w'
        = exported_files (Picked.start out_disk) ++ records_of calls
      ∧ n = length (records_of calls)
      ∧ sublist objs [Cube; Sphere]
      ∧ Forall2 (fun c obj =>
                   call_objects c
                   = filter (fun o => bool_decide (o = obj)
                                      && selectable (Picked.context false true) o)
                            (view_layer_objects (Picked.context false true))
                   ∧ ∃ folder, Fbx.filepath (call_params c)
                               = os_path_join folder (ob_name obj +:+ ".fbx"))
                calls objs.
Proof.
  split; [exact posix_path_laws|].
  exact (export_selected_each_object_calls (Picked.context false true)
           [Cube; Sphere] "/out" (Picked.start out_disk)).
Defined.

Lemma execute_validation_failure_witness :
  @PathLaws os_path MemFS file_system
  ∧ ensure_directory_exists (w_fs (start guarded_disk))
                            (bpy_path_abspath "/srv/Props")
    = Some ((false, "Permission denied: Cannot create directory '/srv/Props'"),
            guarded_disk)
  ∧ ∃ w', execute (context true false) "/srv/Props" (start guarded_disk)
          = Some (CANCELLED, w')
          ∧ reports w'
            = reports (start guarded_disk)
              ++ [(ERROR, "Permission denied: Cannot create directory '/srv/Props'")]
          ∧ w_fs w' = w_fs (start guarded_disk)
          ∧ fbx_calls w' = fbx_calls (start guarded_disk)
          ∧ exported_files w' = []
          ∧ summary_dialogs w' = summary_dialogs (start guarded_disk)
          ∧ w_selected w' = w_selected (start guarded_disk)
          ∧ w_active w' = w_active (start guarded_disk)
          ∧ w_mode w' = w_mode (start guarded_disk).
Proof.
  split; [exact posix_path_laws|]. split; [reflexivity|].
  exact (execute_validation_failure (context true false) "/srv/Props"
           (start guarded_disk) _ guarded_disk eq_refl).
Defined.

Lemma execute_cancelled_effect_witness :
  @PathLaws os_path MemFS file_system
  ∧ ∃ w', execute (Picked.context true false) "/home/new" (start home_disk)
          = Some (CANCELLED, w')
          ∧ fbx_calls w' = fbx_calls (start home_disk)
          ∧ exported_files w' = []
          ∧ summary_dialogs w' = summary_dialogs (start home_disk)
          ∧ w_selected w' = w_selected (start home_disk)
          ∧ w_active w' = w_active (start home_disk)
          ∧ w_mode w' = w_mode (start home_disk)
          ∧ ((∃ msg, reports w' = reports (start home_disk) ++ [(ERROR, msg)]
                     ∧ w_fs w' = w_fs (start home_disk))
             ∨ (reports w'
                = reports (start home_disk)
                  ++ [(WARNING, "No valid selected objects to export")]
                ∧ ∃ msg fs',
                    ensure_directory_exists (w_fs (start home_disk))
                                            (bpy_path_abspath "/home/new")
                    = Some ((true, msg), fs')
                    ∧ w_fs w' = fs')).
Proof.
  split; [exact posix_path_laws|].
  eexists. split; [vm_compute; reflexivity|].
  apply (execute_cancelled_effect (Picked.context true false) "/home/new"
                                  (start home_disk)).
  vm_compute. reflexivity.
Defined.

Lemma execute_no_valid_selection_witness :
  @PathLaws os_path MemFS file_system
  ∧ export_mode (props (Picked.context true false)) = SELECTED
  ∧ filter (fun o => bool_decide
                       (ob_type o ∈ get_object_types
                                      (props (Picked.context true false))))
           (selected_objects (Picked.context true false) (start out_disk)) = []
  ∧ ∃ w' sev msg,
      execute (Picked.context true false) "/out" (start out_disk)
      = Some (CANCELLED, w')
      ∧ fbx_calls w' = fbx_calls (start out_disk)
      ∧ exported_files w' = []
      ∧ reports w' = reports (start out_disk) ++ [(sev, msg)]
      ∧ (sev = ERROR
         ∨ (sev = WARNING ∧ msg = "No valid selected objects to export")).
Proof.
  split; [exact posix_path_laws|]. split; [reflexivity|]. split; [reflexivity|].
  exact (execute_no_valid_selection (Picked.context true false) "/out"
           (start out_disk) eq_refl eq_refl).
Defined.

Lemma execute_exports_only_allowed_witness :
  @PathLaws os_path MemFS file_system
  ∧ ∃ status w' calls,
      execute (Picked.context true true) "/out" (Picked.start out_disk)
      = Some (status, w')
      ∧ fbx_calls w' = fbx_calls (Picked.start out_disk) ++ calls
      ∧ Forall (fun c =>
                  Forall (fun o =>
                            o ∈ view_layer_objects (Picked.context true true)
                            ∧ ob_type o ∈ get_object_types
                                            (props (Picked.context true true))
                            ∧ match export_mode (props (Picked.context true true)) with
                              | COLLECTIONS => ob_hide_viewport o = false
                              | SELECTED =>
                                o ∈ selected_objects (Picked.context true true)
                                                     (Picked.start out_disk)
                              end)
                         (call_objects c))
               calls.
Proof.
  split; [exact posix_path_laws|].
  exact (execute_exports_only_allowed (Picked.context true true) "/out"
           (Picked.start out_disk)).
Defined.

Lemma execute_within_preview_witness :
  @PathLaws os_path MemFS file_system
  ∧ (export_mode (props (context true true)) = SELECTED
     ∨ combine_nested_collections (props (context true true)) = true)
  ∧ ∃ status w' calls,
      execute (context true true) "/out" (start out_disk) = Some (status, w')
      ∧ fbx_calls w' = fbx_calls (start out_disk) ++ calls
      ∧ (length calls ≤ (draw_counts (context true true) (start out_disk)).1)%nat
      ∧ (length (exported_files w')
         ≤ (draw_counts (context true true) (start out_disk)).1)%nat.
Proof.
  split; [exact posix_path_laws|]. split; [right; reflexivity|].
  exact (execute_within_preview (context true true) "/out" (start out_disk)
           (or_intror eq_refl)).
Defined.

Lemma execute_report_counts_files_witness :
  @PathLaws os_path MemFS file_system
  ∧ ∃ w', execute (Picked.context false true) "/out" (Picked.start out_disk)
          = Some (FINISHED, w')
          ∧ ∃ earlier,
              reports w'
              = earlier
                ++ [(INFO, "Exported " +:+ str_of_nat (length (exported_files w'))
                           +:+ " objects separately.")].
Proof.
  split; [exact posix_path_laws|].
  eexists. split; [vm_compute; reflexivity|].
  apply (execute_report_counts_files (Picked.context false true) "/out"
                                     (Picked.start out_disk)).
  vm_compute. reflexivity.
Defined.

Lemma execute_exports_previewed_witness :
  @PathLaws os_path MemFS file_system
  ∧ ∃ status w' calls,
      execute (context true false) "/out" (start out_disk) = Some (status, w')
      ∧ fbx_calls w' = fbx_calls (start out_disk) ++ calls
      ∧ Forall (fun c =>
                  Forall (fun o => o ∈ (draw_counts (context true false)
                                                    (start out_disk)).2)
                         (call_objects c)) calls
      ∧ (draw_has_2nd_uv (fun _ => 2%nat) (context true false) (start out_disk) = true →
         Forall (fun c => Forall (fun o => ob_type o = "MESH" → (2 ≤ 2)%nat)
                                 (call_objects c)) calls).
Proof.
  split; [exact posix_path_laws|].
  exact (execute_exports_previewed (context true false) "/out" (fun _ => 2%nat)
           (start out_disk)).
Defined.
End FurtherExamples.
